(** * MTA visualizer: position animation and track-following engine

    A shallow embedding of the geometry helpers, the path resolver, the
    snapshot reconciliation effect and the animation frame of the map
    component [SubwayMap], and of the line filter of the train store
    [useTrainStore].

    Numbers.  JavaScript numbers are modelled as real numbers: [Math.sqrt],
    [Math.min], [Math.max], [Math.abs] and [Math.pow] are [sqrt], [Rmin],
    [Rmax], [Rabs] and [pow]; [Infinity] is the missing value of an
    [option R]; rounding, NaN and signed zeros are outside the model.

    Failure.  Reading [a[0]] of an [undefined] array element throws a
    TypeError; functions that can do so return [option], [None] being the
    throw. *)

From Stdlib Require Import Reals Lra Lia Ascii.
From stdpp Require Import gmap strings list fin_maps.
#[local] Open Scope R_scope.

(** ** Comparisons on numbers *)

#[global] Instance Rlt_decision : RelDecision Rlt := Rlt_dec.
#[global] Instance Rle_decision : RelDecision Rle := Rle_dec.
#[global] Instance Rgt_decision : RelDecision Rgt := Rgt_dec.
#[global] Instance Rge_decision : RelDecision Rge := Rge_dec.

(** [d < best] where [best] may still be [Infinity] ([None]). *)
Definition ltInf (d : R) (best : option R) : bool :=
  match best with
  | None => true
  | Some b => bool_decide (d < b)
  end.

(** ** Geometry *)

(** [[number, number]]: longitude first, latitude second. *)
Abbreviation Coord := (R * R)%type.

(** [const ANIMATION_DURATION = 4000]. *)
Definition ANIMATION_DURATION : R := 4000.

(** [function easeOutCubic(t)]: [1 - Math.pow(1 - t, 3)]. *)
Definition easeOutCubic (t : R) : R := 1 - (1 - t) ^ 3.

(** [function distance(a, b)]. *)
Definition distance (a b : Coord) : R :=
  let dx := a.1 - b.1 in
  let dy := a.2 - b.2 in
  sqrt (dx * dx + dy * dy).

(** The expression [[a[0] + t * (b[0] - a[0]), a[1] + t * (b[1] - a[1])]],
    which the source writes out at each use. *)
Definition lerp (a b : Coord) (t : R) : Coord :=
  (a.1 + t * (b.1 - a.1), a.2 + t * (b.2 - a.2)).

(** The clamped parameter computed in the body of the loop of
    [nearestPointOnLine] for the segment from [a] to [b]. *)
Definition segmentT (point a b : Coord) : R :=
  let abx := b.1 - a.1 in
  let aby := b.2 - a.2 in
  let apx := point.1 - a.1 in
  let apy := point.2 - a.2 in
  let abLen2 := abx * abx + aby * aby in
  let t := if decide (abLen2 > 0) then (apx * abx + apy * aby) / abLen2 else 0 in
  Rmax 0 (Rmin 1 t).

(** [[projX, projY]] of the same loop body. *)
Definition segmentProj (point a b : Coord) : Coord :=
  let abx := b.1 - a.1 in
  let aby := b.2 - a.2 in
  let t := segmentT point a b in
  (a.1 + t * abx, a.2 + t * aby).

(** The four loop variables of [nearestPointOnLine]. *)
Record NearestState := mkNearestState {
  nearestDist : option R;
  nearestPoint : Coord;
  nearestIndex : nat;
  nearestT : R
}.

(** One iteration of [for (let i = 0; i < line.length - 1; i++)]. *)
Definition nearestStep (point : Coord) (i : nat) (a b : Coord)
    (st : NearestState) : NearestState :=
  let t := segmentT point a b in
  let proj := segmentProj point a b in
  let dist := distance point proj in
  if ltInf dist (nearestDist st)
  then mkNearestState (Some dist) proj i t
  else st.

(** The loop, entered at index [i] with [line] the suffix [line.slice(i)]. *)
Fixpoint nearestLoop (point : Coord) (line : list Coord) (i : nat)
    (st : NearestState) : NearestState :=
  match line with
  | a :: rest =>
      match rest with
      | b :: _ => nearestLoop point rest (S i) (nearestStep point i a b st)
      | [] => st
      end
  | [] => st
  end.

(** The object [{ point, index, t }] returned by [nearestPointOnLine]. *)
Record Nearest := mkNearest {
  np_point : Coord;
  np_index : nat;
  np_t : R
}.

(** [function nearestPointOnLine(point, line)]. *)
Definition nearestPointOnLine (point : Coord) (line : list Coord) : Nearest :=
  let st := nearestLoop point line 0 (mkNearestState None point 0%nat 0) in
  mkNearest (nearestPoint st) (nearestIndex st) (nearestT st).

(** An entry of the local array [segments] of [pointAlongLine]. *)
Record Segment := mkSegment {
  seg_start : Coord;
  seg_end : Coord;
  seg_dist : R
}.

(** The full segment pushed for index [i] when walking forward. *)
Definition forwardSegment (line : list Coord) (i : nat) : option Segment :=
  a ← line !! i;
  b ← line !! (i + 1)%nat;
  Some (mkSegment a b (distance a b)).

(** The full segment pushed for index [i] when walking backward. *)
Definition backwardSegment (line : list Coord) (i : nat) : option Segment :=
  a ← line !! (i + 1)%nat;
  b ← line !! i;
  Some (mkSegment a b (distance a b)).

(** [totalDist] once every segment is pushed: each push adds its [dist]. *)
Definition totalDistOf (segments : list Segment) : R :=
  fold_left (λ acc seg, acc + seg_dist seg) segments 0.

(** [for (const seg of segments)]: the first segment that reaches
    [targetDist] gives the point; [None] when the loop runs to its end. *)
Fixpoint walkSegments (segments : list Segment) (targetDist accumulated : R)
    : option Coord :=
  match segments with
  | [] => None
  | seg :: rest =>
      if decide (accumulated + seg_dist seg >= targetDist)
      then
        let segProgress :=
          if decide (seg_dist seg > 0)
          then (targetDist - accumulated) / seg_dist seg
          else 0 in
        Some (lerp (seg_start seg) (seg_end seg) segProgress)
      else walkSegments rest targetDist (accumulated + seg_dist seg)
  end.

(** The array [segments] built by [pointAlongLine] when the two indices
    differ. *)
Definition buildSegments (line : list Coord) (startIndex : nat) (startPoint : Coord)
    (endIndex : nat) (endT : R) : option (list Segment) :=
  if decide (startIndex < endIndex)%nat
  then
    firstEnd ← line !! (startIndex + 1)%nat;
    mids ← mapM (forwardSegment line)
                (seq (startIndex + 1) (endIndex - (startIndex + 1)));
    c ← line !! endIndex;
    d ← line !! (endIndex + 1)%nat;
    let endPoint := lerp c d endT in
    Some (mkSegment startPoint firstEnd (distance startPoint firstEnd)
            :: mids ++ [mkSegment c endPoint (distance c endPoint)])
  else
    firstEnd ← line !! startIndex;
    mids ← mapM (backwardSegment line)
                (rev (seq (endIndex + 1) (startIndex - 1 - endIndex)));
    c ← line !! endIndex;
    d ← line !! (endIndex + 1)%nat;
    let endPoint := lerp c d endT in
    Some (mkSegment startPoint firstEnd (distance startPoint firstEnd)
            :: mids ++ [mkSegment d endPoint (distance d endPoint)]).

(** [function pointAlongLine(line, startIndex, startT, endIndex, endT, progress)]. *)
Definition pointAlongLine (line : list Coord) (startIndex : nat) (startT : R)
    (endIndex : nat) (endT : R) (progress : R) : option Coord :=
  a ← line !! startIndex;
  b ← line !! (startIndex + 1)%nat;
  let startPoint := lerp a b startT in
  if decide (startIndex = endIndex)
  then
    c ← line !! endIndex;
    d ← line !! (endIndex + 1)%nat;
    let endPoint := lerp c d endT in
    Some (lerp startPoint endPoint progress)
  else
    segments ← buildSegments line startIndex startPoint endIndex endT;
    let targetDist := progress * totalDistOf segments in
    match walkSegments segments targetDist 0 with
    | Some p => Some p
    | None =>
        match last segments with
        | Some lastSeg => Some (seg_end lastSeg)
        | None => Some startPoint
        end
    end.

(** [Math.atan2(y, x)] on real arguments, by the usual case table: the
    angle of the point [(x, y)] in (-PI, PI], and 0 at the origin. *)
Definition atan2 (y x : R) : R :=
  if decide (x > 0) then atan (y / x)
  else if decide (x < 0) then
    (if decide (y >= 0) then atan (y / x) + PI else atan (y / x) - PI)
  else if decide (y > 0) then PI / 2
  else if decide (y < 0) then - (PI / 2)
  else 0.

(** [function calculateBearing(from, to)]. *)
Definition calculateBearing (from to : Coord) : R :=
  let dx := to.1 - from.1 in
  let dy := to.2 - from.2 in
  let angle := atan2 dx dy * (180 / PI) in
  angle.

(** ['N' | 'S']. *)
Inductive Direction := DirN | DirS.

#[global] Instance Direction_eq_dec : EqDecision Direction.
Proof. solve_decision. Defined.

(** [stopId.slice(-1)]: the last character, if there is one. *)
Fixpoint lastChar (s : string) : option ascii :=
  match s with
  | EmptyString => None
  | String c EmptyString => Some c
  | String _ rest => lastChar rest
  end.

(** [function getDirectionFromStopId(stopId)]; [undefined] is [None], and the
    empty string is falsy as well. *)
Definition getDirectionFromStopId (stopId : option string) : option Direction :=
  match stopId with
  | None => None
  | Some s =>
      match lastChar s with
      | Some c =>
          if decide (c = "N"%char) then Some DirN
          else if decide (c = "S"%char) then Some DirS
          else None
      | None => None
      end
  end.

(** ** Records *)

Inductive Status := IN_TRANSIT | STOPPED | INCOMING.

(** [interface Train], with the fields the map component reads. *)
Record Train := mkTrain {
  t_id : string;
  t_routeId : string;
  t_latitude : R;
  t_longitude : R;
  t_status : Status;
  t_currentStopId : option string
}.

(** The optional fields [path], [startIndex], [startT], [endIndex], [endT]
    of [interface TrainAnimation].  The two places that build a
    [TrainAnimation] set all five or none of them, so they are one optional
    group here. *)
Record PathInfo := mkPathInfo {
  path : list Coord;
  startIndex : nat;
  startT : R;
  endIndex : nat;
  endT : R
}.

(** [interface TrainAnimation]. *)
Record TrainAnimation := mkTrainAnimation {
  startPos : Coord;
  endPos : Coord;
  startTime : R;
  routeId : string;
  pathInfo : option PathInfo
}.

(** [type RoutePaths = Map<string, [number, number][][]>]. *)
Abbreviation RoutePaths := (gmap string (list (list Coord))).

(** The two mutable maps held in refs by [SubwayMap]. *)
Record Store := mkStore {
  trainAnimations : gmap string TrainAnimation;
  currentPositions : gmap string Coord
}.

(** ** Path resolver *)

(** [{ index, t, dist }]. *)
Record PointInfo := mkPointInfo {
  pi_index : nat;
  pi_t : R;
  pi_dist : R
}.

(** [bestPath], [bestStartInfo] and [bestEndInfo] once a candidate has been
    kept; before that [bestPath] is [null] and both [dist] are [Infinity],
    which is [None] of [option Best]. *)
Record Best := mkBest {
  bestPath : list Coord;
  bestStartInfo : PointInfo;
  bestEndInfo : PointInfo
}.

(** [startDist + endDist] of a candidate. *)
Definition pathScore (start end_ : Coord) (p : list Coord) : R :=
  distance start (np_point (nearestPointOnLine start p))
  + distance end_ (np_point (nearestPointOnLine end_ p)).

(** [bestStartInfo.dist + bestEndInfo.dist], possibly [Infinity]. *)
Definition bestScore (best : option Best) : option R :=
  match best with
  | None => None
  | Some b => Some (pi_dist (bestStartInfo b) + pi_dist (bestEndInfo b))
  end.

(** One iteration of [for (const path of paths)]. *)
Definition pathStep (start end_ : Coord) (best : option Best) (p : list Coord)
    : option Best :=
  if decide (length p < 2)%nat then best
  else
    let startNearest := nearestPointOnLine start p in
    let endNearest := nearestPointOnLine end_ p in
    let startDist := distance start (np_point startNearest) in
    let endDist := distance end_ (np_point endNearest) in
    let totalDist := startDist + endDist in
    if ltInf totalDist (bestScore best)
    then Some (mkBest p
                 (mkPointInfo (np_index startNearest) (np_t startNearest) startDist)
                 (mkPointInfo (np_index endNearest) (np_t endNearest) endDist))
    else best.

(** The state of the candidate loop after all of [paths]. *)
Definition bestOf (start end_ : Coord) (paths : list (list Coord)) : option Best :=
  fold_left (pathStep start end_) paths None.

(** [findPathBetweenPoints(routeId, start, end)]; [null] is [None]. *)
Definition findPathBetweenPoints (routePaths : RoutePaths) (rid : string)
    (start end_ : Coord) : option PathInfo :=
  match routePaths !! rid with
  | None => None
  | Some paths =>
      if decide (length paths = 0%nat) then None
      else
        match bestOf start end_ paths with
        | Some b =>
            if bool_decide (pi_dist (bestStartInfo b) < 0.005)
               && bool_decide (pi_dist (bestEndInfo b) < 0.005)
            then Some (mkPathInfo (bestPath b)
                         (pi_index (bestStartInfo b)) (pi_t (bestStartInfo b))
                         (pi_index (bestEndInfo b)) (pi_t (bestEndInfo b)))
            else None
        | None => None
        end
  end.

(** ** Sampling an animation *)

(** [Math.min(elapsed / ANIMATION_DURATION, 1)] with
    [elapsed = now - anim.startTime]. *)
Definition progressAt (now : R) (anim : TrainAnimation) : R :=
  let elapsed := now - startTime anim in
  Rmin (elapsed / ANIMATION_DURATION) 1.

(** The position of an animation at time [now]: along the path when the
    record has one, on the straight line otherwise.  The reconciliation
    effect and the frame both contain this code. *)
Definition interpolatedPosition (now : R) (anim : TrainAnimation) : option Coord :=
  let progress := progressAt now anim in
  let easedProgress := easeOutCubic progress in
  match pathInfo anim with
  | Some pi =>
      pointAlongLine (path pi) (startIndex pi) (startT pi)
                     (endIndex pi) (endT pi) easedProgress
  | None =>
      Some ((startPos anim).1 + ((endPos anim).1 - (startPos anim).1) * easedProgress,
            (startPos anim).2 + ((endPos anim).2 - (startPos anim).2) * easedProgress)
  end.

(** ** Snapshot reconciliation *)

(** The test "position actually changed" that returns early. *)
Definition unchangedPosition (currentPos : option Coord) (newPos : Coord) : bool :=
  match currentPos with
  | Some c =>
      bool_decide (Rabs (c.1 - newPos.1) < 0.000001)
      && bool_decide (Rabs (c.2 - newPos.2) < 0.000001)
  | None => false
  end.

(** [startPos] as the [forEach] callback computes it. *)
Definition startPosition (now : R) (st : Store) (train : Train) : option Coord :=
  let newPos := (t_longitude train, t_latitude train) in
  match trainAnimations st !! t_id train with
  | Some existingAnim => interpolatedPosition now existingAnim
  | None =>
      match currentPositions st !! t_id train with
      | Some currentPos => Some currentPos
      | None => Some newPos
      end
  end.


(** The body of [filteredTrains.forEach(train => ...)]. *)
Definition reconcileTrain (routePaths : RoutePaths) (now : R) (st : Store)
    (train : Train) : option Store :=
  let newPos := (t_longitude train, t_latitude train) in
  if unchangedPosition (currentPositions st !! t_id train) newPos then Some st
  else
    startPos ← startPosition now st train;
    let dist := distance startPos newPos in
    if decide (dist > 0.02) then
      Some (mkStore (delete (t_id train) (trainAnimations st))
                    (<[t_id train := newPos]> (currentPositions st)))
    else if decide (dist > 0.00001) then
      match findPathBetweenPoints routePaths (t_routeId train) startPos newPos with
      | Some pathInfo =>
          Some (mkStore
                  (<[t_id train :=
                       mkTrainAnimation startPos newPos now (t_routeId train)
                                        (Some pathInfo)]> (trainAnimations st))
                  (currentPositions st))
      | None =>
          Some (mkStore
                  (<[t_id train :=
                       mkTrainAnimation startPos newPos now (t_routeId train)
                                        None]> (trainAnimations st))
                  (currentPositions st))
      end
    else Some st.

(** [filteredTrains.forEach], stopping at the first throw. *)
Fixpoint reconcileTrains (routePaths : RoutePaths) (now : R) (st : Store)
    (trains : list Train) : option Store :=
  match trains with
  | [] => Some st
  | train :: rest =>
      st' ← reconcileTrain routePaths now st train;
      reconcileTrains routePaths now st' rest
  end.

(** The callback of the clean-up [trainAnimations.current.forEach]. *)
Definition cleanupStep (currentIds : gset string) (st : Store) (id : string) : Store :=
  if decide (id ∈ currentIds) then st
  else mkStore (delete id (trainAnimations st)) (delete id (currentPositions st)).

(** "Clean up old train data": the callback runs once for each key of
    [trainAnimations]. *)
Definition cleanup (trains : list Train) (st : Store) : Store :=
  let currentIds : gset string := list_to_set (t_id <$> trains) in
  foldl (cleanupStep currentIds) st (elements (dom (trainAnimations st))).

(** The effect "Update animation targets when train data changes". *)
Definition reconcile (routePaths : RoutePaths) (now : R) (st : Store)
    (trains : list Train) : option Store :=
  st' ← reconcileTrains routePaths now st trains;
  Some (cleanup trains st').

(** ** Animation frame *)

(** The properties of a GeoJSON feature handed to the map source; the
    colour, a styling constant looked up from the route id, is left out. *)
Record Feature := mkFeature {
  f_coordinates : Coord;
  f_id : string;
  f_routeId : string;
  f_status : Status;
  f_bearing : option R;
  f_direction : option Direction
}.

(** The bearing along segment [idx] of [p]: the two vertices picked by the
    [if (idx < path.length - 1)] test, [calculateBearing] on them, and the
    half turn for ['S'].  Both bearing branches of the frame contain this
    code. *)
Definition tangentBearing (p : list Coord) (idx : nat)
    (direction : option Direction) : option R :=
  pts ← (if decide (idx < length p - 1)%nat
         then fromPt ← p !! idx; toPt ← p !! (idx + 1)%nat; Some (fromPt, toPt)
         else fromPt ← p !! (idx - 1)%nat; toPt ← p !! idx; Some (fromPt, toPt));
  let bearing := calculateBearing pts.1 pts.2 in
  if decide (direction = Some DirS) then Some (bearing + 180) else Some bearing.

(** The fallback [for (const path of paths)] with its [break]; inner [None]
    is a [bearing] left [null]. *)
Fixpoint fallbackBearing (coords : Coord) (direction : option Direction)
    (paths : list (list Coord)) : option (option R) :=
  match paths with
  | [] => Some None
  | p :: rest =>
      if decide (length p < 2)%nat then fallbackBearing coords direction rest
      else
        let nearest := nearestPointOnLine coords p in
        let dist := distance coords (np_point nearest) in
        if decide (dist < 0.005) then
          bearing ← tangentBearing p (np_index nearest) direction;
          Some (Some bearing)
        else fallbackBearing coords direction rest
  end.

(** [coords] and the store after the first [if (anim) ... else ...] of the
    [map] callback. *)
Definition frameCoords (now : R) (st : Store) (train : Train) : option (Coord * Store) :=
  match trainAnimations st !! t_id train with
  | Some anim =>
      coords ← interpolatedPosition now anim;
      if decide (progressAt now anim >= 1) then
        Some (coords,
              mkStore (delete (t_id train) (trainAnimations st))
                      (<[t_id train := endPos anim]> (currentPositions st)))
      else Some (coords, st)
  | None =>
      let coords :=
        default (t_longitude train, t_latitude train)
                (currentPositions st !! t_id train) in
      Some (coords,
            mkStore (trainAnimations st)
                    (<[t_id train := coords]> (currentPositions st)))
  end.

(** [bearing] as computed by the [map] callback; inner [None] is [null]. *)
Definition frameBearing (routePaths : RoutePaths) (st : Store) (train : Train)
    (coords : Coord) : option (option R) :=
  let trainAnim := trainAnimations st !! t_id train in
  let direction := getDirectionFromStopId (t_currentStopId train) in
  match trainAnim ≫= pathInfo with
  | Some pi =>
      if decide (2 <= length (path pi))%nat then
        let nearest := nearestPointOnLine coords (path pi) in
        bearing ← tangentBearing (path pi) (np_index nearest) direction;
        Some (Some bearing)
      else
        match direction with
        | Some _ =>
            match routePaths !! t_routeId train with
            | Some paths => fallbackBearing coords direction paths
            | None => Some None
            end
        | None => Some None
        end
  | None =>
      match direction with
      | Some _ =>
          match routePaths !! t_routeId train with
          | Some paths => fallbackBearing coords direction paths
          | None => Some None
          end
      | None => Some None
      end
  end.

(** The callback of [filteredTrains.map(train => ...)]. *)
Definition animateTrain (routePaths : RoutePaths) (now : R) (st : Store)
    (train : Train) : option (Store * Feature) :=
  cs ← frameCoords now st train;
  let coords := cs.1 in
  let st' := cs.2 in
  bearing ← frameBearing routePaths st' train coords;
  let direction := getDirectionFromStopId (t_currentStopId train) in
  Some (st',
        mkFeature coords (t_id train) (t_routeId train) (t_status train)
                  ((λ b, b - 90) <$> bearing) direction).

(** One run of [animate] once the map source exists: the features handed to
    [source.setData], and the store the frame leaves behind. *)
Fixpoint animate (routePaths : RoutePaths) (now : R) (st : Store)
    (trains : list Train) : option (Store * list Feature) :=
  match trains with
  | [] => Some (st, [])
  | train :: rest =>
      r ← animateTrain routePaths now st train;
      rs ← animate routePaths now r.1 rest;
      Some (rs.1, r.2 :: rs.2)
  end.

(** ** Line filter of the train store *)

(** [LINE_GROUPS]. *)
Definition LINE_GROUPS : list (string * list string) :=
  [ ("1/2/3", ["1"; "2"; "3"]);
    ("4/5/6", ["4"; "5"; "6"]);
    ("7", ["7"]);
    ("A/C/E", ["A"; "C"; "E"]);
    ("B/D/F/M", ["B"; "D"; "F"; "M"]);
    ("G", ["G"]);
    ("J/Z", ["J"; "Z"]);
    ("L", ["L"]);
    ("N/Q/R/W", ["N"; "Q"; "R"; "W"]);
    ("S", ["S"; "GS"; "FS"; "H"; "SI"]) ]%string.

(** The property names every object literal inherits from
    [Object.prototype]: [LINE_GROUPS[name]] is then a function or an object,
    truthy and not iterable. *)
Definition objectPrototypeKeys : list string :=
  [ "constructor"; "hasOwnProperty"; "isPrototypeOf"; "propertyIsEnumerable";
    "toLocaleString"; "toString"; "valueOf"; "__proto__";
    "__defineGetter__"; "__defineSetter__";
    "__lookupGetter__"; "__lookupSetter__" ]%string.

(** [const routes = LINE_GROUPS[lineGroup] || [lineGroup]], up to the point
    where [routes] is iterated; [None] when it is not iterable. *)
Definition routesOf (lineGroup : string) : option (list string) :=
  match list_to_map (M := gmap string (list string)) LINE_GROUPS !! lineGroup with
  | Some routes => Some routes
  | None =>
      if decide (lineGroup ∈ objectPrototypeKeys) then None
      else Some [lineGroup]
  end.

(** [activeLines: Set<string> | null] is the only field [toggleLine]
    writes; [set] leaves the others as they are. *)
Abbreviation ActiveLines := (option (gset string)).

(** [toggleLine(lineGroup)] as a function of [activeLines]. *)
Definition toggleLine (lineGroup : string) (activeLines : ActiveLines)
    : option ActiveLines :=
  routes ← routesOf lineGroup;
  match activeLines with
  | None => Some (Some (list_to_set routes))
  | Some active =>
      let newActive := active in
      let allPresent := forallb (λ r, bool_decide (r ∈ newActive)) routes in
      if allPresent then
        let newActive := foldl (λ s r, s ∖ {[r]}) newActive routes in
        Some (if decide (size newActive = 0%nat) then None else Some newActive)
      else
        let newActive := foldl (λ s r, {[r]} ∪ s) newActive routes in
        Some (Some newActive)
  end.

(** [showAllLines()]. *)
Definition showAllLines : ActiveLines := None.

(** [filteredTrains] of [SubwayMap]. *)
Definition filteredTrains (activeLines : ActiveLines) (trains : list Train) : list Train :=
  match activeLines with
  | None => trains
  | Some active => filter (λ t, t_routeId t ∈ active) trains
  end.

(** ** Vocabulary of the statements *)

(** The distance from [point] to its clamped projection on a segment. *)
Definition segmentDist (point a b : Coord) : R :=
  distance point (segmentProj point a b).

(** The loop variables of [nearestPointOnLine] right after segment [i], from
    [a] to [b], is kept. *)
Definition keptAt (point : Coord) (i : nat) (a b : Coord) : NearestState :=
  mkNearestState (Some (segmentDist point a b)) (segmentProj point a b) i
                 (segmentT point a b).

(** The segments lead from [x] to [y]: each starts where the one before it
    ends, and its [dist] is the distance between its two ends. *)
Fixpoint chain (x : Coord) (segments : list Segment) (y : Coord) : Prop :=
  match segments with
  | [] => x = y
  | seg :: rest =>
      seg_start seg = x
      /\ seg_dist seg = distance (seg_start seg) (seg_end seg)
      /\ chain (seg_end seg) rest y
  end.

(** The sum of the [dist] fields. *)
Definition sumDist (segments : list Segment) : R :=
  foldr (λ seg acc, seg_dist seg + acc) 0 segments.

(** Where the loop of [walkSegments] stops: the value of [accumulated], the
    segment, and [segProgress]. *)
Fixpoint locate (segments : list Segment) (targetDist accumulated : R)
    : option (R * Segment * R) :=
  match segments with
  | [] => None
  | seg :: rest =>
      if decide (accumulated + seg_dist seg >= targetDist)
      then
        Some (accumulated, seg,
              if decide (seg_dist seg > 0)
              then (targetDist - accumulated) / seg_dist seg
              else 0)
      else locate rest targetDist (accumulated + seg_dist seg)
  end.

(** [q] lies on the way from the start projection to the end projection,
    at path length [d] from the start: within one segment, [q] is between the
    two projected points and [d] is its distance from the first; otherwise [q]
    is on one of the [segments], and [d] is the length of the segments before
    it plus the distance from the start of that segment to [q]. *)
Definition onPathAt (line : list Coord) (startIndex : nat) (startT : R)
    (endIndex : nat) (endT : R) (q : Coord) (d : R) : Prop :=
  exists a b,
    line !! startIndex = Some a /\ line !! (startIndex + 1)%nat = Some b
    /\ let startPoint := lerp a b startT in
       if decide (startIndex = endIndex)
       then
         exists c e s,
           line !! endIndex = Some c /\ line !! (endIndex + 1)%nat = Some e
           /\ 0 <= s <= 1
           /\ q = lerp startPoint (lerp c e endT) s
           /\ d = distance startPoint q
       else
         exists segments before seg after s,
           buildSegments line startIndex startPoint endIndex endT = Some segments
           /\ segments = before ++ seg :: after
           /\ 0 <= s <= 1
           /\ q = lerp (seg_start seg) (seg_end seg) s
           /\ d = sumDist before + distance (seg_start seg) q.

(** The length of path between the start projection and the point that
    [pointAlongLine] returns: within one segment, the distance from the
    start point to the returned point; otherwise the segments walked in
    full, plus the distance from the start of the segment where the loop
    stops to the returned point (all of the segments if the loop runs to
    its end). *)
Definition pathDistance (line : list Coord) (startIndex : nat) (startT : R)
    (endIndex : nat) (endT : R) (progress : R) : option R :=
  a ← line !! startIndex;
  b ← line !! (startIndex + 1)%nat;
  let startPoint := lerp a b startT in
  if decide (startIndex = endIndex)
  then
    c ← line !! endIndex;
    d ← line !! (endIndex + 1)%nat;
    Some (distance startPoint (lerp startPoint (lerp c d endT) progress))
  else
    segments ← buildSegments line startIndex startPoint endIndex endT;
    match locate segments (progress * totalDistOf segments) 0 with
    | Some (accumulated, seg, segProgress) =>
        Some (accumulated
              + distance (seg_start seg)
                         (lerp (seg_start seg) (seg_end seg) segProgress))
    | None => Some (totalDistOf segments)
    end.

(** [bestPath], [bestStartInfo] and [bestEndInfo] right after candidate [p]
    is kept. *)
Definition candidate (start end_ : Coord) (p : list Coord) : Best :=
  let startNearest := nearestPointOnLine start p in
  let endNearest := nearestPointOnLine end_ p in
  mkBest p
    (mkPointInfo (np_index startNearest) (np_t startNearest)
                 (distance start (np_point startNearest)))
    (mkPointInfo (np_index endNearest) (np_t endNearest)
                 (distance end_ (np_point endNearest))).

(** Both indices of a path record name a segment of its path. *)
Definition validPathInfo (pi : PathInfo) : Prop :=
  (startIndex pi + 1 < length (path pi))%nat
  /\ (endIndex pi + 1 < length (path pi))%nat.

(** Every path record in the animation store is valid. *)
Definition validStore (st : Store) : Prop :=
  forall id anim pi,
    trainAnimations st !! id = Some anim -> pathInfo anim = Some pi ->
    validPathInfo pi.

(** No animation record spans more than the snap threshold. *)
Definition withinSnap (st : Store) : Prop :=
  forall id anim,
    trainAnimations st !! id = Some anim ->
    distance (startPos anim) (endPos anim) <= 0.02.

(** The stores the component can be in: both maps start empty, and are
    written by the reconciliation effect and by the frames only, whatever
    the route paths loaded at that time, the clock and the trains shown. *)
Inductive reachable : Store -> Prop :=
| reachable_init : reachable (mkStore ∅ ∅)
| reachable_reconcile routePaths now st trains st' :
    reachable st ->
    reconcile routePaths now st trains = Some st' ->
    reachable st'
| reachable_animate routePaths now st trains st' features :
    reachable st ->
    animate routePaths now st trains = Some (st', features) ->
    reachable st'.

(** ** Example data *)

(** A train "X" of route "L" reported at [(lon, lat)]. *)
Definition trainX (lon lat : R) : Train :=
  mkTrain "X" "L" lat lon IN_TRANSIT None.

(** A straight-line animation of "X" from (0,0) to (0.01,0), started at
    time 0. *)
Definition straightAnim : TrainAnimation :=
  mkTrainAnimation (0, 0) (0.01, 0) 0 "L" None.

(** A straight piece of track of route "L", and the route paths that hold
    it alone. *)
Definition trackL : list Coord := [(0, 0); (0.01, 0); (0.02, 0)].

Definition routesL : RoutePaths := {["L" := [trackL]]}.

(** The train "X" reported at (0.01,0) with the southbound stop "L08S". *)
Definition trainSouth : Train :=
  mkTrain "X" "L" 0 0.01 IN_TRANSIT (Some "L08S"%string).

(** ** Vocabulary of the projection *)

(** [t] is the parameter of the orthogonal projection of [p] onto the line
    through [a] and [b], clamped to [0,1].  [across] is the scalar product of
    the segment with the vector from the point at [t] to [p]: it is 0 when
    that vector is perpendicular to the segment.  Strictly inside the
    segment it is 0; at parameter 0 the foot of the perpendicular is [a] or
    lies before it, at parameter 1 it is [b] or lies beyond it.  On a segment
    without length the parameter is 0. *)
Definition clampedProjection (p a b : Coord) (t : R) : Prop :=
  let q := lerp a b t in
  let across := (p.1 - q.1) * (b.1 - a.1) + (p.2 - q.2) * (b.2 - a.2) in
  0 <= t <= 1
  /\ (0 < t -> 0 <= across)
  /\ (t < 1 -> across <= 0)
  /\ (a = b -> t = 0).

(** ** Vocabulary of the bearing *)

(** The condition under which the bearing would be reversed if the reversal
    went by the order of the vertices: the direction hint is opposite to the
    direction in which the segment from [a] to [b] runs, north when the
    latitude grows and south when it falls. *)
Definition hintOpposes (direction : option Direction) (a b : Coord) : Prop :=
  match direction with
  | Some DirN => b.2 < a.2
  | Some DirS => a.2 < b.2
  | None => False
  end.

(** A piece of track of route "L" whose vertices run from north to south,
    and the route paths that hold it alone. *)
Definition trackS : list Coord := [(0, 0.02); (0, 0.01); (0, 0)].

Definition routesS : RoutePaths := {["L" := [trackS]]}.

(** The train "X" reported at longitude 0 and latitude 0.01 with the
    southbound stop "L08S". *)
Definition trainSouthbound : Train :=
  mkTrain "X" "L" 0.01 0 IN_TRANSIT (Some "L08S"%string).

(** ** Vocabulary of the position along a polyline *)

(** The length of segment [i] of the polyline; 0 where there is none. *)
Definition segmentLength (line : list Coord) (i : nat) : R :=
  match line !! i, line !! S i with
  | Some a, Some b => distance a b
  | _, _ => 0
  end.

(** The length of the polyline from its first vertex to vertex [j]. *)
Fixpoint arcLength (line : list Coord) (j : nat) : R :=
  match j with
  | O => 0
  | S i => arcLength line i + segmentLength line i
  end.

(** The length of the polyline from its first vertex to the point at
    parameter [t] of segment [j]. *)
Definition arcPosition (line : list Coord) (j : nat) (t : R) : R :=
  arcLength line j + t * segmentLength line j.

(** [q] is a point of the polyline at length [s] from its first vertex. *)
Definition atArc (line : list Coord) (q : Coord) (s : R) : Prop :=
  exists j a b t,
    line !! j = Some a /\ line !! S j = Some b /\ 0 <= t <= 1
    /\ q = lerp a b t /\ s = arcPosition line j t.

(** The segments lead along the polyline from length [u] to length [v],
    forward when [sigma] is 1 and backward when it is -1: each is a piece of
    one segment of the polyline, starts at the length where the one before
    it ends, and has as [dist] the distance between its two ends. *)
Fixpoint arcChain (line : list Coord) (sigma u : R) (segments : list Segment)
    (v : R) : Prop :=
  match segments with
  | [] => u = v
  | seg :: rest =>
      exists j a b t1 t2,
        line !! j = Some a /\ line !! S j = Some b
        /\ 0 <= t1 <= 1 /\ 0 <= t2 <= 1 /\ 0 <= sigma * (t2 - t1)
        /\ seg_start seg = lerp a b t1 /\ seg_end seg = lerp a b t2
        /\ seg_dist seg = distance (seg_start seg) (seg_end seg)
        /\ u = arcPosition line j t1
        /\ arcChain line sigma (arcPosition line j t2) rest v
  end.

(** ** Vocabulary of the further properties *)

(** [q] is a point of one of the segments of the polyline. *)
Definition onPolyline (line : list Coord) (q : Coord) : Prop :=
  exists j a b s,
    line !! j = Some a /\ line !! (j + 1)%nat = Some b
    /\ 0 <= s <= 1 /\ q = lerp a b s.

(** A segment of the walk of [pointAlongLine] is a piece of one segment of
    the polyline. *)
Definition subSegment (line : list Coord) (seg : Segment) : Prop :=
  exists j a b s1 s2,
    line !! j = Some a /\ line !! (j + 1)%nat = Some b
    /\ 0 <= s1 <= 1 /\ 0 <= s2 <= 1
    /\ seg_start seg = lerp a b s1 /\ seg_end seg = lerp a b s2.

(** Every animation record of the store satisfies [P]. *)
Definition allRecords (P : TrainAnimation -> Prop) (st : Store) : Prop :=
  forall id anim, trainAnimations st !! id = Some anim -> P anim.

(** A record as the reconciliation callback builds it: its path fields are
    what the resolver gave for its route and its two positions, which are
    more than 0.00001 and at most 0.02 apart. *)
Definition builtRecord (anim : TrainAnimation) : Prop :=
  (exists routePaths : RoutePaths,
     pathInfo anim
     = findPathBetweenPoints routePaths (routeId anim) (startPos anim) (endPos anim))
  /\ 0.00001 < distance (startPos anim) (endPos anim) <= 0.02.

(** ** Further code of the line filter *)

(** [showOnlyLine(lineGroup)]. *)
Definition showOnlyLine (lineGroup : string) : option ActiveLines :=
  routes ← routesOf lineGroup;
  Some (Some (list_to_set routes)).

(** [isLineActive(lineGroup)] of [SubwayMap]: with no filter the answer is
    given before [LINE_GROUPS] is read; [None] where [routes.some] is not a
    function. *)
Definition isLineActive (activeLines : ActiveLines) (lineGroup : string)
    : option bool :=
  match activeLines with
  | None => Some true
  | Some active =>
      routes ← routesOf lineGroup;
      Some (existsb (λ r, bool_decide (r ∈ active)) routes)
  end.

(** ** Alerts: the parser of the API *)

(** [Alert]. *)
Record Alert := mkAlert {
  a_id : string;
  a_routeIds : list string;
  a_headerText : string;
  a_descriptionText : string;
  a_activePeriodStart : option Z;
  a_activePeriodEnd : option Z
}.

(** The alerts feed, in the shape [fetchAlerts] reads it: optional members
    are options. *)
Record InformedEntity := mkInformedEntity {
  route_id : option string
}.

Record Translation := mkTranslation {
  language : string;
  text : string
}.

Record TranslatedString := mkTranslatedString {
  translation : option (list Translation)
}.

Record TimeRange := mkTimeRange {
  range_start : option Z;
  range_end : option Z
}.

Record AlertBody := mkAlertBody {
  informed_entity : option (list InformedEntity);
  header_text : option TranslatedString;
  description_text : option TranslatedString;
  active_period : option (list TimeRange)
}.

Record FeedEntity := mkFeedEntity {
  entity_id : string;
  entity_alert : option AlertBody
}.

Record AlertsFeed := mkAlertsFeed {
  entity : option (list FeedEntity)
}.

(** What [fetch] and [response.json()] give. *)
Inductive Fetched (A : Type) : Type :=
| Thrown : Fetched A          (* [fetch] or [json()] throws *)
| NotOk : Fetched A           (* [!response.ok] *)
| Body : A -> Fetched A.
Arguments Thrown {A}.
Arguments NotOk {A}.
Arguments Body {A} _.

(** One turn of the loop over [alert.informed_entity]. *)
Definition routeIdsStep (routeIds : list string) (informed : InformedEntity)
    : list string :=
  match route_id informed with
  | Some r =>
      if decide (r <> ""%string /\ r ∉ routeIds)
      then routeIds ++ [r]
      else routeIds
  | None => routeIds
  end.

(** [routeIds] after the loop. *)
Definition routeIdsOf (alert : AlertBody) : list string :=
  match informed_entity alert with
  | Some informed => foldl routeIdsStep [] informed
  | None => []
  end.

(** [headerText] and [descriptionText]: the text of the first English
    translation, else of the first translation, else the empty string. *)
Definition textOf (translated : option TranslatedString) : string :=
  match translated ≫= translation with
  | Some translation =>
      let found :=
        match List.find (λ t, bool_decide (language t = "en"%string)) translation with
        | Some t => Some t
        | None => head translation
        end in
      match found with
      | Some t => text t
      | None => ""%string
      end
  | None => ""%string
  end.

(** [activePeriodStart] and [activePeriodEnd]. *)
Definition periodOf (alert : AlertBody) : option Z * option Z :=
  match active_period alert with
  | Some (period :: _) => (range_start period, range_end period)
  | _ => (None, None)
  end.

(** One turn of the loop over [data.entity]. *)
Definition alertsStep (alerts : list Alert) (e : FeedEntity) : list Alert :=
  match entity_alert e with
  | Some alert =>
      let routeIds := routeIdsOf alert in
      let headerText := textOf (header_text alert) in
      let descriptionText := textOf (description_text alert) in
      let '(activePeriodStart, activePeriodEnd) := periodOf alert in
      if decide ((0 < length routeIds)%nat /\ headerText <> ""%string)
      then alerts ++ [mkAlert (entity_id e) routeIds headerText descriptionText
                              activePeriodStart activePeriodEnd]
      else alerts
  | None => alerts
  end.

(** [fetchAlerts(url)], as a function of what the request gives. *)
Definition fetchAlerts (response : Fetched AlertsFeed) : list Alert :=
  match response with
  | Thrown => []
  | NotOk => []
  | Body data =>
      match entity data with
      | Some entities => foldl alertsStep [] entities
      | None => []
      end
  end.

(** ** Alerts: the panel *)

(** [filteredAlerts] of [AlertPanel]. *)
Definition filteredAlerts (activeLines : ActiveLines) (alerts : list Alert)
    : list Alert :=
  match activeLines with
  | None => []
  | Some active =>
      filter (λ alert, Exists (λ routeId, routeId ∈ active) (a_routeIds alert))
             alerts
  end.

(** The updater of [goToPrevious], for [filteredAlerts] of the given
    length. *)
Definition goToPrevious (filteredLength prev : Z) : Z :=
  if decide (prev = 0)%Z then (filteredLength - 1)%Z else (prev - 1)%Z.

(** The updater of [goToNext]. *)
Definition goToNext (filteredLength prev : Z) : Z :=
  if decide (prev = filteredLength - 1)%Z then 0%Z else (prev + 1)%Z.

(** [filteredAlerts[currentIndex]]. *)
Definition currentAlert (filtered : list Alert) (currentIndex : Z)
    : option Alert :=
  if decide (0 <= currentIndex)%Z then filtered !! Z.to_nat currentIndex
  else None.

(** [primaryRoute]: the first active route of the alert, else its first
    route; an empty string found by [find] is falsy and gives the first route
    as well. *)
Definition primaryRoute (active : gset string) (alert : Alert) : option string :=
  match List.find (λ r, bool_decide (r ∈ active)) (a_routeIds alert) with
  | Some r =>
      if decide (r = ""%string) then head (a_routeIds alert) else Some r
  | None => head (a_routeIds alert)
  end.

(** The route badges of the header. *)
Definition routeBadges (active : gset string) (alert : Alert) : list string :=
  filter (λ r, r ∈ active) (a_routeIds alert).

(** An alerts feed with one entity: the L line twice, an informed entity
    without route and one with an empty route id; a Spanish and an English
    title. *)
Definition feedL : AlertsFeed :=
  mkAlertsFeed
    (Some [ mkFeedEntity "a1"
              (Some (mkAlertBody
                       (Some [ mkInformedEntity (Some "L");
                               mkInformedEntity None;
                               mkInformedEntity (Some "");
                               mkInformedEntity (Some "L") ])
                       (Some (mkTranslatedString
                                (Some [ mkTranslation "es" "Retrasos";
                                        mkTranslation "en" "Delays" ])))
                       None None)) ])%string.

Definition alertL : Alert :=
  mkAlert "a1" ["L"] "Delays" "" None None.

(** ** Alerts: the description *)

(** [DESCRIPTION_PREVIEW_LENGTH]. *)
Definition DESCRIPTION_PREVIEW_LENGTH : nat := 150.

(** [text.indexOf(pattern)]; [None] stands for -1. *)
Definition indexOf (text pattern : string) : option nat :=
  String.index 0 pattern text.

(** [text.slice(from, to)] for indices that are not negative. *)
Definition slice (text : string) (from to : nat) : string :=
  String.substring from (to - from) text.

(** The patterns of [hasWhatsHappeningSection] and [formatDescription]. *)
Definition patterns : list string :=
  [ "What's happening?"; "What's Happening?"; "WHAT'S HAPPENING?" ]%string.

Record WhatsHappening := mkWhatsHappening {
  hasSection : bool;
  beforeText : string;
  afterText : string
}.

(** What [formatDescription] renders: [formatAlertText] of the whole text,
    or the section with its content and, if it is not empty, the
    introduction. *)
Inductive Description : Type :=
| Plain (text : string)
| WithSection (intro : option string) (content : string).

Section Description.

(** [String.prototype.trim]. *)
Variable trim : string -> string.

(** The loop of [hasWhatsHappeningSection], which returns at the first
    pattern found; [None] when it runs to its end. *)
Fixpoint sectionLoop (patterns : list string) (text : string)
    : option WhatsHappening :=
  match patterns with
  | [] => None
  | pattern :: rest =>
      match indexOf text pattern with
      | Some idx =>
          Some (mkWhatsHappening true
                  (trim (slice text 0 idx))
                  (trim (slice text (idx + String.length pattern)
                               (String.length text))))
      | None => sectionLoop rest text
      end
  end.

(** [hasWhatsHappeningSection(text)]. *)
Definition hasWhatsHappeningSection (text : string) : WhatsHappening :=
  match sectionLoop patterns text with
  | Some found => found
  | None => mkWhatsHappening false text ""
  end.

(** The loop of [formatDescription] over [whatsHappeningIndex] and
    [matchedPattern], which breaks at the first pattern found. *)
Fixpoint descriptionLoop (patterns : list string) (text : string)
    (whatsHappeningIndex : Z) (matchedPattern : string) : Z * string :=
  match patterns with
  | [] => (whatsHappeningIndex, matchedPattern)
  | pattern :: rest =>
      match indexOf text pattern with
      | Some idx => (Z.of_nat idx, pattern)
      | None => descriptionLoop rest text whatsHappeningIndex matchedPattern
      end
  end.

(** [formatDescription(text)]. *)
Definition formatDescription (text : string) : Description :=
  let '(whatsHappeningIndex, matchedPattern) :=
    descriptionLoop patterns text (-1) "" in
  if decide (whatsHappeningIndex = -1)%Z then Plain text
  else
    let beforeSection := trim (slice text 0 (Z.to_nat whatsHappeningIndex)) in
    let afterSection :=
      trim (slice text (Z.to_nat whatsHappeningIndex + String.length matchedPattern)
                  (String.length text)) in
    if decide (afterSection = ""%string) then Plain text
    else WithSection
           (if decide (beforeSection = ""%string) then None
            else Some beforeSection)
           afterSection.

(** [hasExpandableContent] of [AlertPanel], as a truth value. *)
Definition hasExpandableContent (whatsHappening : WhatsHappening) : bool :=
  (hasSection whatsHappening
   && bool_decide (afterText whatsHappening <> ""%string))
  || bool_decide (DESCRIPTION_PREVIEW_LENGTH
                  < String.length (beforeText whatsHappening))%nat.

End Description.

(** * Properties *)

(** ** Distances and segments *)

Section Geometry.

Implicit Types (p a b : Coord) (s : R).

Lemma sum_squares_nonneg (x y : R) : 0 <= x * x + y * y.
Proof. nra. Qed.

Lemma distance_nonneg p a : 0 <= distance p a.
Proof. unfold distance. apply sqrt_pos. Qed.

Lemma distance_self p : distance p p = 0.
Proof.
  unfold distance. simpl.
  replace ((p.1 - p.1) * (p.1 - p.1) + (p.2 - p.2) * (p.2 - p.2)) with 0 by ring.
  apply sqrt_0.
Qed.

Lemma distance_sym p a : distance p a = distance a p.
Proof. unfold distance. simpl. f_equal. ring. Qed.

Lemma distance_zero_eq p a : distance p a = 0 -> p = a.
Proof.
  unfold distance. simpl. intros H.
  apply sqrt_eq_0 in H; [| apply sum_squares_nonneg].
  destruct p as [px py], a as [ax ay]. simpl in *.
  apply Rplus_sqr_eq_0 in H as [Hx Hy]. f_equal; lra.
Qed.

(** Distances compare like their squares. *)
Lemma distance_le_sq p a b :
  (p.1 - a.1) * (p.1 - a.1) + (p.2 - a.2) * (p.2 - a.2)
    <= (p.1 - b.1) * (p.1 - b.1) + (p.2 - b.2) * (p.2 - b.2) ->
  distance p a <= distance p b.
Proof. intros H. unfold distance. simpl. apply sqrt_le_1_alt, H. Qed.

Lemma lerp_0 a b : lerp a b 0 = a.
Proof. destruct a, b. unfold lerp. simpl. f_equal; ring. Qed.

Lemma lerp_1 a b : lerp a b 1 = b.
Proof. destruct a, b. unfold lerp. simpl. f_equal; ring. Qed.

(** A point at parameter [s] of a segment is [|s|] segment lengths from
    its start. *)
Lemma distance_lerp a b s : distance a (lerp a b s) = Rabs s * distance a b.
Proof.
  unfold distance, lerp. simpl.
  replace ((a.1 - (a.1 + s * (b.1 - a.1))) * (a.1 - (a.1 + s * (b.1 - a.1)))
           + (a.2 - (a.2 + s * (b.2 - a.2))) * (a.2 - (a.2 + s * (b.2 - a.2))))
    with ((s * s) * ((a.1 - b.1) * (a.1 - b.1) + (a.2 - b.2) * (a.2 - b.2)))
    by ring.
  rewrite sqrt_mult_alt by nra.
  f_equal. replace (s * s) with (Rsqr s) by reflexivity. apply sqrt_Rsqr_abs.
Qed.

Lemma segmentT_range p a b : 0 <= segmentT p a b <= 1.
Proof.
  unfold segmentT. simpl.
  split; [apply Rmax_l |].
  apply Rmax_lub; [lra | apply Rmin_l].
Qed.

Lemma segmentProj_lerp p a b : segmentProj p a b = lerp a b (segmentT p a b).
Proof. reflexivity. Qed.

(** The clamped projection is the point of the segment nearest to [p]. *)
Lemma segmentProj_closest p a b s :
  0 <= s <= 1 ->
  distance p (segmentProj p a b) <= distance p (lerp a b s).
Proof.
  intros Hs. apply distance_le_sq.
  unfold segmentProj, segmentT, lerp.
  destruct p as [px py], a as [ax ay], b as [bx by_]. simpl.
  set (abx := bx - ax). set (aby := by_ - ay).
  set (apx := px - ax). set (apy := py - ay).
  set (L := abx * abx + aby * aby).
  set (c := apx * abx + apy * aby).
  assert (HL : 0 <= L) by (unfold L; nra).
  assert (Hgen : forall t,
    (px - (ax + s * abx)) * (px - (ax + s * abx))
      + (py - (ay + s * aby)) * (py - (ay + s * aby))
    - ((px - (ax + t * abx)) * (px - (ax + t * abx))
      + (py - (ay + t * aby)) * (py - (ay + t * aby)))
    = (s - t) * ((s + t) * L - 2 * c)).
  { intros t. unfold L, c, apx, apy. ring. }
  match goal with |- ?l <= ?r => cut (0 <= r - l); [lra |] end.
  rewrite Hgen. clear Hgen.
  destruct (decide (L > 0)) as [Hpos | Hzero].
  - assert (Hq : c / L * L = c) by (field; lra).
    set (q := c / L) in *.
    unfold Rmin. destruct (Rle_dec 1 q) as [H1 | H1].
    + unfold Rmax. destruct (Rle_dec 0 1); [| lra].
      replace ((s - 1) * ((s + 1) * L - 2 * c))
        with ((1 - s) * (L * (2 * q - s - 1))) by (rewrite <- Hq; ring).
      apply Rmult_le_pos; [lra |]. apply Rmult_le_pos; lra.
    + unfold Rmax. destruct (Rle_dec 0 q) as [H0 | H0].
      * replace ((s - q) * ((s + q) * L - 2 * c)) with (L * ((s - q) * (s - q)))
          by (rewrite <- Hq; ring).
        apply Rmult_le_pos; [lra | apply Rle_0_sqr].
      * replace ((s - 0) * ((s + 0) * L - 2 * c))
          with (s * (L * (s + 2 * - q))) by (rewrite <- Hq; ring).
        apply Rmult_le_pos; [lra |]. apply Rmult_le_pos; lra.
  - assert (L = 0) by lra.
    assert (abx = 0 /\ aby = 0) as [Hx Hy] by (unfold L in *; split; nra).
    assert (c = 0) by (unfold c; rewrite Hx, Hy; ring).
    unfold Rmin. destruct (Rle_dec 1 0); [lra |].
    unfold Rmax. destruct (Rle_dec 0 0); nra.
Qed.

(** When the parameter is not clamped the projection is orthogonal: the
    vector from the projection to [p] is perpendicular to the segment. *)
Lemma segmentProj_orthogonal p a b :
  0 < segmentT p a b < 1 ->
  let q := segmentProj p a b in
  (p.1 - q.1) * (b.1 - a.1) + (p.2 - q.2) * (b.2 - a.2) = 0.
Proof.
  unfold segmentProj, segmentT.
  destruct p as [px py], a as [ax ay], b as [bx by_]. simpl.
  set (L := (bx - ax) * (bx - ax) + (by_ - ay) * (by_ - ay)).
  set (c := (px - ax) * (bx - ax) + (py - ay) * (by_ - ay)).
  destruct (decide (L > 0)) as [Hpos | Hzero].
  - intros Ht.
    assert (Hq : c / L * L = c) by (field; lra).
    assert (Hm : Rmax 0 (Rmin 1 (c / L)) = c / L).
    { revert Ht. unfold Rmin. destruct (Rle_dec 1 (c / L)).
      - unfold Rmax. destruct (Rle_dec 0 1); lra.
      - unfold Rmax. destruct (Rle_dec 0 (c / L)); lra. }
    rewrite Hm. set (q := c / L) in *.
    replace ((px - (ax + q * (bx - ax))) * (bx - ax)
             + (py - (ay + q * (by_ - ay))) * (by_ - ay))
      with (c - q * L) by (unfold c, L; ring).
    lra.
  - intros Ht. exfalso. revert Ht.
    unfold Rmin. destruct (Rle_dec 1 0); [lra |].
    unfold Rmax. destruct (Rle_dec 0 0); lra.
Qed.

Lemma distance_horizontal (x1 x2 y : R) :
  distance (x1, y) (x2, y) = Rabs (x1 - x2).
Proof.
  unfold distance. simpl.
  replace ((x1 - x2) * (x1 - x2) + (y - y) * (y - y)) with (Rsqr (x1 - x2))
    by (unfold Rsqr; ring).
  apply sqrt_Rsqr_abs.
Qed.

Lemma distance_vertical (x y1 y2 : R) :
  distance (x, y1) (x, y2) = Rabs (y1 - y2).
Proof.
  unfold distance. simpl.
  replace ((x - x) * (x - x) + (y1 - y2) * (y1 - y2)) with (Rsqr (y1 - y2))
    by (unfold Rsqr; ring).
  apply sqrt_Rsqr_abs.
Qed.

End Geometry.

(** Decides the comparisons, minima and maxima of a goal on concrete
    numbers. *)
Ltac eval_tests :=
  repeat first
    [ rewrite decide_True by lra
    | rewrite decide_False by lra
    | rewrite bool_decide_eq_true_2 by lra
    | rewrite bool_decide_eq_false_2 by lra
    | rewrite Rmin_left by lra
    | rewrite Rmin_right by lra
    | rewrite Rmax_left by lra
    | rewrite Rmax_right by lra ].

(** ** Projection onto a polyline *)

Section NearestPoint.

Variable point : Coord.

#[local] Abbreviation segmentDist := (segmentDist point).
#[local] Abbreviation keptAt := (keptAt point).

Lemma ltInf_Some d b : ltInf d (Some b) = true <-> d < b.
Proof. simpl. apply bool_decide_eq_true. Qed.

Lemma ltInf_false d best :
  ltInf d best = false -> exists b, best = Some b /\ b <= d.
Proof.
  destruct best as [b |]; simpl; [| discriminate].
  intros H. apply bool_decide_eq_false in H. exists b. split; [done | lra].
Qed.

Lemma nearestStep_cases i a b st :
  (ltInf (segmentDist a b) (nearestDist st) = true
     /\ nearestStep point i a b st = keptAt i a b)
  \/ (ltInf (segmentDist a b) (nearestDist st) = false
     /\ nearestStep point i a b st = st).
Proof.
  unfold nearestStep, keptAt, segmentDist.
  destruct (ltInf _ _); [left | right]; done.
Qed.

(** What the loop does to its variables: either no segment improves on
    the distance it started with, or it ends on the first segment of
    least distance. *)
Lemma nearestLoop_spec (line : list Coord) : forall i st,
  (nearestLoop point line i st = st
     /\ forall j a b, line !! j = Some a -> line !! S j = Some b ->
          ltInf (segmentDist a b) (nearestDist st) = false)
  \/ (exists j a b,
        line !! j = Some a /\ line !! S j = Some b
        /\ nearestLoop point line i st = keptAt (i + j) a b
        /\ ltInf (segmentDist a b) (nearestDist st) = true
        /\ (forall j' a' b', line !! j' = Some a' -> line !! S j' = Some b' ->
              segmentDist a b <= segmentDist a' b')
        /\ (forall j' a' b', (j' < j)%nat ->
              line !! j' = Some a' -> line !! S j' = Some b' ->
              segmentDist a b < segmentDist a' b')).
Proof.
  induction line as [| a rest IH]; intros i st.
  { left. split; [done |]. intros j ? ? H. destruct j; discriminate H. }
  destruct rest as [| b rest'].
  { left. split; [done |]. intros j ? ? _ H. destruct j; discriminate H. }
  change (nearestLoop point (a :: b :: rest') i st)
    with (nearestLoop point (b :: rest') (S i) (nearestStep point i a b st)).
  destruct (nearestStep_cases i a b st) as [[Hlt ->] | [Hge ->]].
  - (* segment i is kept *)
    destruct (IH (S i) (keptAt i a b))
      as [[-> Hnone] | (j & a1 & b1 & Ha1 & Hb1 & -> & Hlt1 & Hmin & Hfirst)].
    + right. exists 0%nat, a, b. rewrite Nat.add_0_r.
      repeat split; try done.
      * intros [| j'] a' b' Ha' Hb'.
        -- simpl in Ha', Hb'. simplify_eq. lra.
        -- pose proof (Hnone j' a' b' Ha' Hb') as Hf.
           apply ltInf_false in Hf as (d & Hd & Hle). simpl in Hd.
           simplify_eq. exact Hle.
      * intros j' a' b' Hj. lia.
    + right. exists (S j), a1, b1. apply ltInf_Some in Hlt1.
      replace (i + S j)%nat with (S i + j)%nat by lia.
      repeat split; try done.
      * destruct (nearestDist st) as [d |]; [| done].
        apply ltInf_Some. apply ltInf_Some in Hlt. lra.
      * intros [| j'] a' b' Ha' Hb'.
        -- simpl in Ha', Hb'. simplify_eq. lra.
        -- eapply Hmin; eassumption.
      * intros [| j'] a' b' Hj Ha' Hb'.
        -- simpl in Ha', Hb'. simplify_eq. exact Hlt1.
        -- eapply (Hfirst j'); [lia | eassumption..].
  - (* segment i is not kept *)
    destruct (IH (S i) st)
      as [[-> Hnone] | (j & a1 & b1 & Ha1 & Hb1 & -> & Hlt1 & Hmin & Hfirst)].
    + left. split; [done |].
      intros [| j'] a' b' Ha' Hb'.
      * simpl in Ha', Hb'. simplify_eq. exact Hge.
      * eapply Hnone; eassumption.
    + right. exists (S j), a1, b1.
      replace (i + S j)%nat with (S i + j)%nat by lia.
      apply ltInf_false in Hge as (d & Hd & Hle).
      assert (Hlt0 : segmentDist a1 b1 < segmentDist a b).
      { rewrite Hd in Hlt1. apply ltInf_Some in Hlt1. lra. }
      repeat split; try done.
      * intros [| j'] a' b' Ha' Hb'.
        -- simpl in Ha', Hb'. simplify_eq. lra.
        -- eapply Hmin; eassumption.
      * intros [| j'] a' b' Hj Ha' Hb'.
        -- simpl in Ha', Hb'. simplify_eq. exact Hlt0.
        -- eapply (Hfirst j'); [lia | eassumption..].
Qed.

(** On a polyline of at least two points the result is the clamped
    projection onto the first segment of least distance. *)
Lemma nearestPointOnLine_spec (line : list Coord) :
  (2 <= length line)%nat ->
  exists j a b,
    line !! j = Some a /\ line !! S j = Some b
    /\ nearestPointOnLine point line
       = mkNearest (segmentProj point a b) j (segmentT point a b)
    /\ (forall j' a' b', line !! j' = Some a' -> line !! S j' = Some b' ->
          segmentDist a b <= segmentDist a' b')
    /\ (forall j' a' b', (j' < j)%nat ->
          line !! j' = Some a' -> line !! S j' = Some b' ->
          segmentDist a b < segmentDist a' b').
Proof.
  intros Hlen. unfold nearestPointOnLine.
  destruct (nearestLoop_spec line 0 (mkNearestState None point 0%nat 0))
    as [[_ Hnone] | (j & a & b & Ha & Hb & -> & _ & Hmin & Hfirst)].
  - exfalso. destruct line as [| a [| b rest]]; simpl in Hlen; try lia.
    specialize (Hnone 0%nat a b eq_refl eq_refl). discriminate Hnone.
  - exists j, a, b. simpl. repeat split; done.
Qed.

(** With fewer than two points the loop body never runs and the query
    point itself comes back with index 0. *)
Lemma nearestPointOnLine_degenerate (line : list Coord) :
  (length line < 2)%nat ->
  nearestPointOnLine point line = mkNearest point 0 0.
Proof.
  intros Hlen. destruct line as [| a [| b rest]]; simpl in Hlen; try lia; done.
Qed.

(** The index returned for a polyline of at least two points is the
    index of one of its segments. *)
Lemma nearestPointOnLine_index (line : list Coord) :
  (2 <= length line)%nat ->
  (np_index (nearestPointOnLine point line) < length line - 1)%nat.
Proof.
  intros Hlen.
  destruct (nearestPointOnLine_spec line Hlen) as (j & a & b & _ & Hb & -> & _).
  simpl. apply lookup_lt_Some in Hb. lia.
Qed.

End NearestPoint.

(** The point (1,1) is as near to the first segment of the polyline (0,0),
    (2,0), (2,2) as to the second; the first is kept. *)
Example nearestPointOnLine_example :
  nearestPointOnLine (1, 1) [(0, 0); (2, 0); (2, 2)] = mkNearest (1, 0) 0 (1 / 2).
Proof.
  unfold nearestPointOnLine. cbn [nearestLoop].
  assert (T0 : segmentT (1, 1) (0, 0) (2, 0) = 1 / 2).
  { unfold segmentT. cbn [fst snd]. eval_tests.
    replace (((1 - 0) * (2 - 0) + (1 - 0) * (0 - 0))
             / ((2 - 0) * (2 - 0) + (0 - 0) * (0 - 0))) with (1 / 2) by field.
    eval_tests. reflexivity. }
  assert (T1 : segmentT (1, 1) (2, 0) (2, 2) = 1 / 2).
  { unfold segmentT. cbn [fst snd]. eval_tests.
    replace (((1 - 2) * (2 - 2) + (1 - 0) * (2 - 0))
             / ((2 - 2) * (2 - 2) + (2 - 0) * (2 - 0))) with (1 / 2) by field.
    eval_tests. reflexivity. }
  assert (P0 : segmentProj (1, 1) (0, 0) (2, 0) = (1, 0)).
  { unfold segmentProj. rewrite T0. cbn [fst snd]. f_equal; lra. }
  assert (P1 : segmentProj (1, 1) (2, 0) (2, 2) = (2, 1)).
  { unfold segmentProj. rewrite T1. cbn [fst snd]. f_equal; lra. }
  unfold nearestStep. rewrite P0, P1, T0, T1.
  rewrite distance_vertical, distance_horizontal.
  cbn [nearestDist ltInf].
  replace (Rabs (1 - 0)) with 1 by (rewrite Rabs_pos_eq; lra).
  replace (Rabs (1 - 2)) with 1 by (rewrite Rabs_left; lra).
  cbn [nearestDist ltInf]. eval_tests. reflexivity.
Qed.

(** The projection is at least as near to the query point as any point of
    any segment of the polyline. *)
Lemma nearestPointOnLine_closest (point : Coord) (line : list Coord)
    (j : nat) (a b : Coord) (s : R) :
  (2 <= length line)%nat ->
  line !! j = Some a -> line !! S j = Some b -> 0 <= s <= 1 ->
  distance point (np_point (nearestPointOnLine point line))
    <= distance point (lerp a b s).
Proof.
  intros Hlen Ha Hb Hs.
  destruct (nearestPointOnLine_spec point line Hlen)
    as (k & a0 & b0 & _ & _ & -> & Hmin & _).
  simpl. etransitivity; [apply (Hmin j a b Ha Hb) |].
  apply segmentProj_closest, Hs.
Qed.

(** The projection is at least as near to the query point as any vertex. *)
Lemma nearestPointOnLine_vertex (point : Coord) (line : list Coord) (v : Coord) :
  (2 <= length line)%nat -> v ∈ line ->
  distance point (np_point (nearestPointOnLine point line)) <= distance point v.
Proof.
  intros Hlen Hv. apply list_elem_of_lookup in Hv as [j Hj].
  destruct (line !! S j) as [w |] eqn:Hw.
  - rewrite <- (lerp_0 v w).
    apply (nearestPointOnLine_closest point line j v w 0); [done.. | lra].
  - destruct j as [| j'].
    { apply lookup_ge_None in Hw. lia. }
    destruct (line !! j') as [u |] eqn:Hu.
    + rewrite <- (lerp_1 u v).
      apply (nearestPointOnLine_closest point line j' u v 1); [done.. | lra].
    + apply lookup_ge_None in Hu. apply lookup_lt_Some in Hj. lia.
Qed.

(** The parameter computed in the loop is that of the clamped orthogonal
    projection. *)
Lemma segmentT_clampedProjection (p a b : Coord) :
  clampedProjection p a b (segmentT p a b).
Proof.
  unfold clampedProjection, segmentT, lerp.
  destruct p as [px py], a as [ax ay], b as [bx by_]. cbn [fst snd].
  set (L := (bx - ax) * (bx - ax) + (by_ - ay) * (by_ - ay)).
  set (c := (px - ax) * (bx - ax) + (py - ay) * (by_ - ay)).
  assert (Hacross : forall t,
            (px - (ax + t * (bx - ax))) * (bx - ax)
            + (py - (ay + t * (by_ - ay))) * (by_ - ay) = c - t * L)
    by (intros t; unfold c, L; ring).
  rewrite Hacross. clear Hacross.
  assert (Hsame : (ax, ay) = (bx, by_) -> L = 0)
    by (intros [= -> ->]; unfold L; ring).
  assert (Hflat : L <= 0 -> c = 0).
  { intros Hz.
    assert (bx - ax = 0 /\ by_ - ay = 0) as [Hx Hy].
    { apply Rplus_sqr_eq_0. unfold Rsqr.
      apply Rle_antisym; [exact Hz | apply sum_squares_nonneg]. }
    unfold c. rewrite Hx, Hy. ring. }
  clearbody L c.
  destruct (decide (L > 0)) as [Hpos | Hzero].
  - assert (Hq : c / L * L = c) by (field; lra).
    set (q := c / L) in *. clearbody q.
    unfold Rmin. destruct (Rle_dec 1 q) as [H1 | H1].
    + unfold Rmax. destruct (Rle_dec 0 1); [| lra].
      split; [lra |]. split; [intros _; nra |]. split; [lra |].
      intros Heq. apply Hsame in Heq. lra.
    + unfold Rmax. destruct (Rle_dec 0 q) as [H0 | H0].
      * split; [lra |]. split; [intros _; lra |]. split; [intros _; lra |].
        intros Heq. apply Hsame in Heq. lra.
      * split; [lra |]. split; [lra |]. split; [intros _; nra |]. done.
  - apply Rnot_gt_le in Hzero. specialize (Hflat Hzero).
    unfold Rmin. destruct (Rle_dec 1 0); [lra |].
    unfold Rmax. destruct (Rle_dec 0 0); [| lra].
    split; [lra |]. split; [lra |]. split; [intros _; lra | done].
Qed.

(** A segment has one clamped orthogonal projection of a point. *)
Lemma clampedProjection_unique (p a b : Coord) (t t' : R) :
  clampedProjection p a b t -> clampedProjection p a b t' -> t = t'.
Proof.
  unfold clampedProjection, lerp.
  destruct p as [px py], a as [ax ay], b as [bx by_]. cbn [fst snd].
  set (L := (bx - ax) * (bx - ax) + (by_ - ay) * (by_ - ay)).
  set (c := (px - ax) * (bx - ax) + (py - ay) * (by_ - ay)).
  assert (Hacross : forall t,
            (px - (ax + t * (bx - ax))) * (bx - ax)
            + (py - (ay + t * (by_ - ay))) * (by_ - ay) = c - t * L)
    by (intros s; unfold c, L; ring).
  rewrite !Hacross. clear Hacross.
  assert (Hflat : L <= 0 -> (ax, ay) = (bx, by_)).
  { intros Hz.
    assert (bx - ax = 0 /\ by_ - ay = 0) as [Hx Hy].
    { apply Rplus_sqr_eq_0. unfold Rsqr.
      apply Rle_antisym; [exact Hz | apply sum_squares_nonneg]. }
    f_equal; lra. }
  clearbody L c.
  intros (Ht & Hlo & Hhi & Hdeg) (Ht' & Hlo' & Hhi' & Hdeg').
  destruct (Rle_lt_dec L 0) as [Hz | Hpos].
  - specialize (Hflat Hz). rewrite (Hdeg Hflat), (Hdeg' Hflat). done.
  - destruct (Rtotal_order t t') as [Hlt | [Heq | Hgt]]; [| done |].
    + exfalso. assert (H1 : c - t * L <= 0) by (apply Hhi; lra).
      assert (H2 : 0 <= c - t' * L) by (apply Hlo'; lra). nra.
    + exfalso. assert (H1 : c - t' * L <= 0) by (apply Hhi'; lra).
      assert (H2 : 0 <= c - t * L) by (apply Hlo; lra). nra.
Qed.

(** C7. For a polyline of at least two points, [nearestPointOnLine] returns
    a segment of the polyline (its index), the parameter of the orthogonal
    projection of the query point onto that segment clamped to [0,1], and the
    point of the segment at that parameter.  Among the clamped orthogonal
    projections onto all segments it has the least distance to the query
    point, and it is no farther from the query point than any vertex of the
    polyline. *)
Theorem nearestPointOnLine_minimum (point : Coord) (line : list Coord) :
  (2 <= length line)%nat ->
  let r := nearestPointOnLine point line in
  exists a b,
    line !! np_index r = Some a /\ line !! S (np_index r) = Some b
    /\ clampedProjection point a b (np_t r)
    /\ (forall t, clampedProjection point a b t -> t = np_t r)
    /\ np_point r = lerp a b (np_t r)
    /\ (forall j a' b' t',
          line !! j = Some a' -> line !! S j = Some b' ->
          clampedProjection point a' b' t' ->
          distance point (np_point r) <= distance point (lerp a' b' t'))
    /\ (forall v, v ∈ line -> distance point (np_point r) <= distance point v).
Proof.
  intros Hlen r.
  destruct (nearestPointOnLine_spec point line Hlen)
    as (k & a & b & Ha & Hb & Hr & _ & _).
  exists a, b.
  split; [subst r; rewrite Hr; exact Ha |].
  split; [subst r; rewrite Hr; exact Hb |].
  split; [subst r; rewrite Hr; apply segmentT_clampedProjection |].
  split.
  { intros t Ht. subst r. rewrite Hr. cbn [np_t].
    apply (clampedProjection_unique point a b); [exact Ht |].
    apply segmentT_clampedProjection. }
  split; [subst r; rewrite Hr; apply segmentProj_lerp |].
  split.
  { intros j a' b' t' Ha' Hb' (Ht' & _). subst r.
    apply (nearestPointOnLine_closest point line j a' b' t'); done. }
  intros v Hv. apply nearestPointOnLine_vertex; done.
Qed.

(** An instance: the polyline (0,0), (2,0), (2,2) and the query point (1,1). *)
Lemma nearestPointOnLine_minimum_witness :
  let line : list Coord := [(0, 0); (2, 0); (2, 2)] in
  let r := nearestPointOnLine (1, 1) line in
  exists a b,
    line !! np_index r = Some a /\ line !! S (np_index r) = Some b
    /\ clampedProjection (1, 1) a b (np_t r)
    /\ (forall t, clampedProjection (1, 1) a b t -> t = np_t r)
    /\ np_point r = lerp a b (np_t r)
    /\ (forall j a' b' t',
          line !! j = Some a' -> line !! S j = Some b' ->
          clampedProjection (1, 1) a' b' t' ->
          distance (1, 1) (np_point r) <= distance (1, 1) (lerp a' b' t'))
    /\ (forall v, v ∈ line -> distance (1, 1) (np_point r) <= distance (1, 1) v).
Proof.
  apply (nearestPointOnLine_minimum (1, 1) [(0, 0); (2, 0); (2, 2)]).
  simpl. lia.
Defined.

(** ** Interpolation along a polyline *)

Section Segments.

Implicit Types (segments : list Segment) (x y : Coord).

Lemma totalDistOf_from segments : forall acc,
  fold_left (λ acc seg, acc + seg_dist seg) segments acc = acc + sumDist segments.
Proof.
  induction segments as [| seg rest IH]; intros acc; simpl.
  - unfold sumDist. simpl. ring.
  - rewrite IH. unfold sumDist. simpl. ring.
Qed.

Lemma totalDistOf_sum segments : totalDistOf segments = sumDist segments.
Proof. unfold totalDistOf. rewrite totalDistOf_from. ring. Qed.

Lemma sumDist_cons seg segments :
  sumDist (seg :: segments) = seg_dist seg + sumDist segments.
Proof. reflexivity. Qed.

Lemma chain_sumDist_nonneg segments : forall x y,
  chain x segments y -> 0 <= sumDist segments.
Proof.
  induction segments as [| seg rest IH]; intros x y H.
  - unfold sumDist. simpl. lra.
  - destruct H as (_ & Hd & Hrest). rewrite sumDist_cons, Hd.
    pose proof (distance_nonneg (seg_start seg) (seg_end seg)).
    pose proof (IH _ _ Hrest). lra.
Qed.

(** Segments of total length zero do not move. *)
Lemma chain_zero segments : forall x y,
  chain x segments y -> sumDist segments <= 0 -> x = y.
Proof.
  induction segments as [| seg rest IH]; intros x y H Hz; [exact H |].
  destruct H as (Hs & Hd & Hrest). rewrite sumDist_cons in Hz.
  pose proof (chain_sumDist_nonneg _ _ _ Hrest) as Hr.
  pose proof (distance_nonneg (seg_start seg) (seg_end seg)) as Hn.
  rewrite <- Hs. transitivity (seg_end seg).
  - apply distance_zero_eq. lra.
  - apply (IH _ _ Hrest). lra.
Qed.

Lemma chain_app segments1 segments2 : forall x y z,
  chain x segments1 y -> chain y segments2 z -> chain x (segments1 ++ segments2) z.
Proof.
  induction segments1 as [| seg rest IH]; intros x y z H1 H2; simpl in *.
  - subst. exact H2.
  - destruct H1 as (Hs & Hd & Hrest). eauto.
Qed.

(** The loop returns the point at the place where it stops. *)
Lemma walkSegments_locate segments : forall targetDist accumulated,
  walkSegments segments targetDist accumulated
  = (λ r, lerp (seg_start r.1.2) (seg_end r.1.2) r.2)
      <$> locate segments targetDist accumulated.
Proof.
  induction segments as [| seg rest IH]; intros targetDist accumulated; simpl.
  - done.
  - destruct (decide (accumulated + seg_dist seg >= targetDist)); [done | apply IH].
Qed.

(** At target distance 0 the loop stops at once, on the start of the first
    segment. *)
Lemma walkSegments_zero seg segments x y :
  chain x (seg :: segments) y ->
  walkSegments (seg :: segments) 0 0 = Some x.
Proof.
  intros (Hs & Hd & _). simpl.
  pose proof (distance_nonneg (seg_start seg) (seg_end seg)).
  destruct (decide (0 + seg_dist seg >= 0)) as [_ | Hno]; [| lra].
  f_equal. rewrite <- Hs.
  destruct (decide (seg_dist seg > 0)).
  - replace ((0 - 0) / seg_dist seg) with 0 by (field; lra). apply lerp_0.
  - apply lerp_0.
Qed.

(** At the total distance the loop returns the end of the last segment. *)
Lemma walkSegments_total segments : forall x y accumulated,
  segments <> [] -> chain x segments y ->
  walkSegments segments (accumulated + sumDist segments) accumulated = Some y.
Proof.
  induction segments as [| seg rest IH]; intros x y accumulated Hne H; [done |].
  destruct H as (Hs & Hd & Hrest). rewrite sumDist_cons. cbn [walkSegments].
  pose proof (chain_sumDist_nonneg _ _ _ Hrest) as Hr.
  pose proof (distance_nonneg (seg_start seg) (seg_end seg)) as Hn.
  destruct (decide (accumulated + seg_dist seg
                    >= accumulated + (seg_dist seg + sumDist rest))) as [Hge | Hlt].
  - assert (Hz : sumDist rest <= 0) by lra.
    pose proof (chain_zero _ _ _ Hrest Hz) as Hend.
    f_equal. rewrite <- Hend.
    destruct (decide (seg_dist seg > 0)).
    + replace ((accumulated + (seg_dist seg + sumDist rest) - accumulated)
               / seg_dist seg) with 1 by (field_simplify_eq; lra).
      apply lerp_1.
    + assert (Hse : seg_start seg = seg_end seg)
        by (apply distance_zero_eq; lra).
      rewrite lerp_0. exact Hse.
  - replace (accumulated + (seg_dist seg + sumDist rest))
      with (accumulated + seg_dist seg + sumDist rest) by ring.
    apply (IH (seg_end seg)); [| exact Hrest].
    intros ->. unfold sumDist in Hlt. simpl in Hlt. lra.
Qed.

(** For a target between [accumulated] and the total, the loop stops on
    one of the segments, with [accumulated] the length of those before it
    and a [segProgress] in [0,1], and the length walked up to the returned
    point is the target. *)
Lemma locate_split segments : forall x y targetDist accumulated,
  chain x segments y -> segments <> [] ->
  accumulated <= targetDist <= accumulated + sumDist segments ->
  exists before seg after acc segProgress,
    segments = before ++ seg :: after
    /\ locate segments targetDist accumulated = Some (acc, seg, segProgress)
    /\ acc = accumulated + sumDist before
    /\ 0 <= segProgress <= 1
    /\ acc + distance (seg_start seg)
                      (lerp (seg_start seg) (seg_end seg) segProgress)
       = targetDist.
Proof.
  induction segments as [| seg rest IH];
    intros x y targetDist accumulated H Hne Hrange; [done |].
  destruct H as (Hs & Hd & Hrest). rewrite sumDist_cons in Hrange.
  cbn [locate].
  pose proof (distance_nonneg (seg_start seg) (seg_end seg)) as Hn.
  destruct (decide (accumulated + seg_dist seg >= targetDist)) as [Hge | Hlt].
  - exists [], seg, rest. eexists _, _.
    split; [reflexivity |]. split; [reflexivity |].
    split; [unfold sumDist; simpl; ring |].
    destruct (decide (seg_dist seg > 0)) as [Hpos | Hzero].
    + assert (Hsp : 0 <= (targetDist - accumulated) / seg_dist seg <= 1).
      { split.
        - apply Rmult_le_pos; [lra |]. left. apply Rinv_0_lt_compat. lra.
        - apply (Rmult_le_reg_r (seg_dist seg)); [lra |].
          replace ((targetDist - accumulated) / seg_dist seg * seg_dist seg)
            with (targetDist - accumulated) by (field; lra).
          lra. }
      split; [exact Hsp |].
      rewrite distance_lerp, <- Hd, Rabs_pos_eq by lra. field. lra.
    + split; [lra |]. rewrite distance_lerp, Rabs_R0. lra.
  - destruct (IH (seg_end seg) y targetDist (accumulated + seg_dist seg))
      as (before & seg' & after & acc & sp & -> & Hloc & Hacc & Hsp & Hw).
    + exact Hrest.
    + intros ->. unfold sumDist in Hrange. simpl in Hrange. lra.
    + lra.
    + exists (seg :: before), seg', after, acc, sp.
      split; [reflexivity |]. split; [exact Hloc |].
      split; [rewrite sumDist_cons; lra |]. split; [exact Hsp | exact Hw].
Qed.

End Segments.

Section BuildSegments.

Variable line : list Coord.

Lemma forwardSegment_Some i a b :
  line !! i = Some a -> line !! (i + 1)%nat = Some b ->
  forwardSegment line i = Some (mkSegment a b (distance a b)).
Proof. intros Ha Hb. unfold forwardSegment. rewrite Ha, Hb. done. Qed.

Lemma backwardSegment_Some i a b :
  line !! (i + 1)%nat = Some a -> line !! i = Some b ->
  backwardSegment line i = Some (mkSegment a b (distance a b)).
Proof. intros Ha Hb. unfold backwardSegment. rewrite Ha, Hb. done. Qed.

(** The full segments pushed by the forward loop lead from vertex [i] to
    vertex [i + n]. *)
Lemma forwardSegments_chain : forall n i x,
  line !! i = Some x -> (i + n < length line)%nat ->
  exists mids y,
    mapM (forwardSegment line) (seq i n) = Some mids
    /\ line !! (i + n)%nat = Some y /\ chain x mids y.
Proof.
  induction n as [| n IH]; intros i x Hx Hlen.
  - exists [], x. rewrite Nat.add_0_r. done.
  - destruct (lookup_lt_is_Some_2 line (i + 1)) as [x1 Hx1]; [lia |].
    destruct (IH (S i) x1) as (mids & y & Hm & Hy & Hc).
    { rewrite <- Hx1. f_equal. lia. }
    { lia. }
    exists (mkSegment x x1 (distance x x1) :: mids), y.
    split; [| split].
    + cbn [seq mapM]. rewrite (forwardSegment_Some i x x1 Hx Hx1). simpl.
      rewrite Hm. done.
    + rewrite <- Hy. f_equal. lia.
    + simpl. done.
Qed.

(** The full segments pushed by the backward loop lead from vertex [e + n]
    down to vertex [e]. *)
Lemma backwardSegments_chain : forall n e x,
  line !! (e + n)%nat = Some x ->
  exists mids y,
    mapM (backwardSegment line) (rev (seq e n)) = Some mids
    /\ line !! e = Some y /\ chain x mids y.
Proof.
  induction n as [| n IH]; intros e x Hx.
  - exists [], x. rewrite Nat.add_0_r in Hx. done.
  - destruct (lookup_lt_is_Some_2 line (e + n)) as [x1 Hx1].
    { apply lookup_lt_Some in Hx. lia. }
    destruct (IH e x1 Hx1) as (mids & y & Hm & Hy & Hc).
    exists (mkSegment x x1 (distance x x1) :: mids), y.
    split; [| split; [exact Hy |]].
    + rewrite seq_S, rev_unit. cbn [mapM].
      rewrite (backwardSegment_Some (e + n) x x1); [| | exact Hx1].
      * simpl. rewrite Hm. done.
      * rewrite <- Hx. f_equal. lia.
    + simpl. done.
Qed.

(** With two different segment indices of the polyline, [segments] is
    built without a throw and leads from the start point to the end
    point. *)
Lemma buildSegments_chain startIndex startPoint endIndex endT :
  startIndex <> endIndex ->
  (startIndex + 1 < length line)%nat -> (endIndex + 1 < length line)%nat ->
  exists segments c d,
    buildSegments line startIndex startPoint endIndex endT = Some segments
    /\ line !! endIndex = Some c /\ line !! (endIndex + 1)%nat = Some d
    /\ chain startPoint segments (lerp c d endT)
    /\ segments <> [].
Proof.
  intros Hne Hs He.
  destruct (lookup_lt_is_Some_2 line endIndex) as [c Hc]; [lia |].
  destruct (lookup_lt_is_Some_2 line (endIndex + 1)) as [d Hd]; [lia |].
  destruct (lookup_lt_is_Some_2 line startIndex) as [a Ha]; [lia |].
  destruct (lookup_lt_is_Some_2 line (startIndex + 1)) as [b Hb]; [lia |].
  unfold buildSegments.
  destruct (decide (startIndex < endIndex)%nat) as [Hfwd | Hbwd].
  - destruct (forwardSegments_chain (endIndex - (startIndex + 1)) (startIndex + 1) b Hb)
      as (mids & y & Hm & Hy & Hch); [lia |].
    replace (startIndex + 1 + (endIndex - (startIndex + 1)))%nat
      with endIndex in Hy by lia.
    assert (y = c) as -> by congruence.
    eexists _, c, d. rewrite Hb. simpl. rewrite Hm. simpl.
    rewrite Hc, Hd. simpl.
    split; [reflexivity |]. split; [done |]. split; [done |].
    split; [| done].
    simpl. split; [done |]. split; [done |].
    eapply chain_app; [exact Hch |]. simpl. done.
  - destruct (backwardSegments_chain (startIndex - 1 - endIndex) (endIndex + 1) a)
      as (mids & y & Hm & Hy & Hch).
    { rewrite <- Ha. f_equal. lia. }
    assert (y = d) as -> by congruence.
    eexists _, c, d. rewrite Ha. simpl. rewrite Hm. simpl.
    rewrite Hc, Hd. simpl.
    split; [reflexivity |]. split; [done |]. split; [done |].
    split; [| done].
    simpl. split; [done |]. split; [done |].
    eapply chain_app; [exact Hch |]. simpl. done.
Qed.

End BuildSegments.

Section PointAlongLine.

Variable line : list Coord.
Variables (startIndex endIndex : nat) (startT endT : R).
Variables a b c d : Coord.
Hypothesis Ha : line !! startIndex = Some a.
Hypothesis Hb : line !! (startIndex + 1)%nat = Some b.
Hypothesis Hc : line !! endIndex = Some c.
Hypothesis Hd : line !! (endIndex + 1)%nat = Some d.

(** Two projections in the same segment: the straight interpolation
    between the two projected points, whatever the progress. *)
Lemma pointAlongLine_same_segment progress :
  startIndex = endIndex ->
  pointAlongLine line startIndex startT endIndex endT progress
  = Some (lerp (lerp a b startT) (lerp c d endT) progress).
Proof.
  intros Heq. unfold pointAlongLine. rewrite Ha, Hb. simpl.
  rewrite decide_True by exact Heq. rewrite Hc, Hd. done.
Qed.

(** In all other cases: the walk over [segments], which leads from the one
    projected point to the other. *)
Lemma pointAlongLine_walk progress :
  startIndex <> endIndex ->
  exists segments,
    chain (lerp a b startT) segments (lerp c d endT) /\ segments <> []
    /\ buildSegments line startIndex (lerp a b startT) endIndex endT = Some segments
    /\ pointAlongLine line startIndex startT endIndex endT progress
       = match walkSegments segments (progress * totalDistOf segments) 0 with
         | Some p => Some p
         | None =>
             match last segments with
             | Some lastSeg => Some (seg_end lastSeg)
             | None => Some (lerp a b startT)
             end
         end.
Proof.
  intros Hne.
  destruct (buildSegments_chain line startIndex (lerp a b startT) endIndex endT Hne)
    as (segments & c' & d' & Hbuild & Hc' & Hd' & Hchain & Hnil).
  { apply lookup_lt_Some in Hb. exact Hb. }
  { apply lookup_lt_Some in Hd. exact Hd. }
  assert (c' = c) as -> by congruence. assert (d' = d) as -> by congruence.
  exists segments. split; [exact Hchain |]. split; [exact Hnil |].
  split; [exact Hbuild |].
  unfold pointAlongLine. rewrite Ha, Hb. simpl.
  rewrite decide_False by exact Hne. rewrite Hbuild. done.
Qed.

(** No throw, whatever the progress. *)
Lemma pointAlongLine_total progress :
  is_Some (pointAlongLine line startIndex startT endIndex endT progress).
Proof.
  destruct (decide (startIndex = endIndex)) as [Heq | Hne].
  - rewrite pointAlongLine_same_segment by exact Heq. done.
  - destruct (pointAlongLine_walk progress Hne) as (segments & _ & _ & _ & ->).
    destruct (walkSegments _ _ _); [done |]. destruct (last segments); done.
Qed.

(** Progress 0 gives the projected start point. *)
Lemma pointAlongLine_start :
  pointAlongLine line startIndex startT endIndex endT 0 = Some (lerp a b startT).
Proof.
  destruct (decide (startIndex = endIndex)) as [Heq | Hne].
  - rewrite pointAlongLine_same_segment by exact Heq. f_equal. apply lerp_0.
  - destruct (pointAlongLine_walk 0 Hne) as (segments & Hchain & Hnil & _ & ->).
    rewrite Rmult_0_l.
    destruct segments as [| seg rest]; [done |].
    rewrite (walkSegments_zero seg rest _ _ Hchain). done.
Qed.

(** Progress 1 gives the projected end point. *)
Lemma pointAlongLine_end :
  pointAlongLine line startIndex startT endIndex endT 1 = Some (lerp c d endT).
Proof.
  destruct (decide (startIndex = endIndex)) as [Heq | Hne].
  - rewrite pointAlongLine_same_segment by exact Heq. f_equal. apply lerp_1.
  - destruct (pointAlongLine_walk 1 Hne) as (segments & Hchain & Hnil & _ & ->).
    rewrite Rmult_1_l, totalDistOf_sum.
    replace (sumDist segments) with (0 + sumDist segments) by ring.
    rewrite (walkSegments_total segments _ _ 0 Hnil Hchain). done.
Qed.

(** For a progress in [0,1]: a point is returned, it lies on the way from
    the start projection to the end projection, and the length of path up to
    it is the progress times a length that does not depend on the
    progress. *)
Lemma pointAlongLine_path_distance :
  exists total, 0 <= total /\ forall progress, 0 <= progress <= 1 ->
    exists q,
      pointAlongLine line startIndex startT endIndex endT progress = Some q
      /\ pathDistance line startIndex startT endIndex endT progress
         = Some (progress * total)
      /\ onPathAt line startIndex startT endIndex endT q (progress * total).
Proof.
  destruct (decide (startIndex = endIndex)) as [Heq | Hne].
  - exists (distance (lerp a b startT) (lerp c d endT)).
    split; [apply distance_nonneg |]. intros progress Hp.
    eexists. split; [apply pointAlongLine_same_segment, Heq |].
    assert (Hdist : distance (lerp a b startT)
                      (lerp (lerp a b startT) (lerp c d endT) progress)
                    = progress * distance (lerp a b startT) (lerp c d endT)).
    { rewrite distance_lerp, Rabs_pos_eq by lra. done. }
    split.
    + unfold pathDistance. rewrite Ha, Hb. simpl.
      rewrite decide_True by exact Heq. rewrite Hc, Hd. simpl.
      rewrite Hdist. done.
    + exists a, b. split; [exact Ha |]. split; [exact Hb |]. cbv zeta.
      rewrite decide_True by exact Heq.
      exists c, d, progress. rewrite Hdist. done.
  - destruct (pointAlongLine_walk 0 Hne) as (segments & Hchain & Hnil & Hbuild & _).
    exists (sumDist segments).
    pose proof (chain_sumDist_nonneg _ _ _ Hchain) as Hnn.
    split; [exact Hnn |]. intros progress Hp.
    destruct (locate_split segments _ _ (progress * sumDist segments) 0 Hchain Hnil)
      as (before & seg & after & acc & sp & Hsplit & Hloc & Hacc & Hsp & Hw);
      [nra |].
    exists (lerp (seg_start seg) (seg_end seg) sp). split; [| split].
    + unfold pointAlongLine. rewrite Ha, Hb. simpl.
      rewrite decide_False by exact Hne. rewrite Hbuild. simpl.
      rewrite walkSegments_locate, totalDistOf_sum, Hloc. done.
    + unfold pathDistance. rewrite Ha, Hb. simpl.
      rewrite decide_False by exact Hne. rewrite Hbuild. simpl.
      rewrite totalDistOf_sum, Hloc, Hw. done.
    + exists a, b. split; [exact Ha |]. split; [exact Hb |]. cbv zeta.
      rewrite decide_False by exact Hne.
      exists segments, before, seg, after, sp.
      split; [exact Hbuild |]. split; [exact Hsplit |]. split; [exact Hsp |].
      split; [reflexivity |]. lra.
Qed.

End PointAlongLine.

(** From the middle of the first segment of the polyline (0,0), (2,0),
    (2,2) to the middle of the second, half of the way is the corner. *)
Example pointAlongLine_example :
  pointAlongLine [(0, 0); (2, 0); (2, 2)] 0 (1 / 2) 1 (1 / 2) (1 / 2) = Some (2, 0).
Proof.
  assert (L0 : lerp (0, 0) (2, 0) (1 / 2) = (1, 0)).
  { unfold lerp. cbn [fst snd]. f_equal; lra. }
  assert (L1 : lerp (2, 0) (2, 2) (1 / 2) = (2, 1)).
  { unfold lerp. cbn [fst snd]. f_equal; lra. }
  unfold pointAlongLine, buildSegments.
  cbn [lookup list_lookup Nat.add mbind option_bind].
  rewrite decide_False by discriminate. rewrite decide_True by lia.
  cbn [lookup list_lookup Nat.add Nat.sub seq mapM mbind option_bind mret
       option_ret app].
  rewrite L0, L1, distance_horizontal, distance_vertical.
  replace (Rabs (1 - 2)) with 1 by (rewrite Rabs_left; lra).
  replace (Rabs (0 - 1)) with 1 by (rewrite Rabs_left; lra).
  unfold totalDistOf. cbn [fold_left seg_dist walkSegments seg_start seg_end].
  eval_tests. f_equal. unfold lerp. cbn [fst snd]. f_equal; field.
Qed.

(** A projection onto a polyline of at least two points names one of its
    segments and is the point of that segment at its parameter. *)
Lemma nearestPointOnLine_on_segment (point : Coord) (line : list Coord) :
  (2 <= length line)%nat ->
  let r := nearestPointOnLine point line in
  exists a b,
    line !! np_index r = Some a /\ line !! (np_index r + 1)%nat = Some b
    /\ np_point r = lerp a b (np_t r).
Proof.
  intros Hlen r.
  destruct (nearestPointOnLine_spec point line Hlen) as (j & a & b & Ha & Hb & Hr & _).
  exists a, b. subst r. rewrite Hr. simpl.
  replace (j + 1)%nat with (S j) by lia. done.
Qed.

(** C4. On a polyline of at least two points, with the projections of [A]
    and [B] as start and end, [pointAlongLine] returns the projected point of
    [A] at progress 0 and the projected point of [B] at progress 1; when both
    projections fall in the same segment it returns, at every progress, the
    straight interpolation between the two projected points. *)
Theorem pointAlongLine_endpoints (line : list Coord) (A B : Coord) :
  (2 <= length line)%nat ->
  let pa := nearestPointOnLine A line in
  let pb := nearestPointOnLine B line in
  pointAlongLine line (np_index pa) (np_t pa) (np_index pb) (np_t pb) 0
    = Some (np_point pa)
  /\ pointAlongLine line (np_index pa) (np_t pa) (np_index pb) (np_t pb) 1
    = Some (np_point pb)
  /\ (np_index pa = np_index pb -> forall progress,
        pointAlongLine line (np_index pa) (np_t pa) (np_index pb) (np_t pb) progress
        = Some (lerp (np_point pa) (np_point pb) progress)).
Proof.
  intros Hlen pa pb.
  destruct (nearestPointOnLine_on_segment A line Hlen) as (a & b & Ha & Hb & HpA).
  destruct (nearestPointOnLine_on_segment B line Hlen) as (c & d & Hc & Hd & HpB).
  fold pa in Ha, Hb, HpA. fold pb in Hc, Hd, HpB. rewrite HpA, HpB.
  split; [| split].
  - eapply pointAlongLine_start; eassumption.
  - eapply pointAlongLine_end; eassumption.
  - intros Heq progress. eapply pointAlongLine_same_segment; eassumption.
Qed.

(** An instance: the polyline (0,0), (2,0), (2,2), from near the first
    segment to near the second. *)
Lemma pointAlongLine_endpoints_witness :
  let line : list Coord := [(0, 0); (2, 0); (2, 2)] in
  let pa := nearestPointOnLine (1, -1) line in
  let pb := nearestPointOnLine (3, 1) line in
  pointAlongLine line (np_index pa) (np_t pa) (np_index pb) (np_t pb) 0
    = Some (np_point pa)
  /\ pointAlongLine line (np_index pa) (np_t pa) (np_index pb) (np_t pb) 1
    = Some (np_point pb)
  /\ (np_index pa = np_index pb -> forall progress,
        pointAlongLine line (np_index pa) (np_t pa) (np_index pb) (np_t pb) progress
        = Some (lerp (np_point pa) (np_point pb) progress)).
Proof.
  apply (pointAlongLine_endpoints [(0, 0); (2, 0); (2, 2)] (1, -1) (3, 1)).
  simpl. lia.
Defined.

Lemma lerp_lerp (a b : Coord) (s1 s2 s : R) :
  lerp (lerp a b s1) (lerp a b s2) s = lerp a b (s1 + s * (s2 - s1)).
Proof. unfold lerp. simpl. f_equal; ring. Qed.

Lemma between_range (s1 s2 s : R) :
  0 <= s1 <= 1 -> 0 <= s2 <= 1 -> 0 <= s <= 1 ->
  0 <= s1 + s * (s2 - s1) <= 1.
Proof.
  intros H1 H2 Hs.
  replace (s1 + s * (s2 - s1)) with ((1 - s) * s1 + s * s2) by ring.
  split.
  - apply Rplus_le_le_0_compat; apply Rmult_le_pos; lra.
  - apply Rle_trans with ((1 - s) * 1 + s * 1); [| lra].
    apply Rplus_le_compat; apply Rmult_le_compat_l; lra.
Qed.

(** Two points of one segment are apart by the difference of their
    parameters times the length of the segment. *)
Lemma distance_lerp_lerp (a b : Coord) (t1 t2 : R) :
  distance (lerp a b t1) (lerp a b t2) = Rabs (t2 - t1) * distance a b.
Proof.
  rewrite <- (distance_lerp a b (t2 - t1)).
  unfold distance, lerp. simpl. f_equal. ring.
Qed.

Section ArcLength.

Variable line : list Coord.

Lemma segmentLength_lookup (j : nat) (a b : Coord) :
  line !! j = Some a -> line !! S j = Some b ->
  segmentLength line j = distance a b.
Proof. intros Ha Hb. unfold segmentLength. by rewrite Ha, Hb. Qed.

Lemma arcPosition_0 (j : nat) : arcPosition line j 0 = arcLength line j.
Proof. unfold arcPosition. ring. Qed.

Lemma arcPosition_1 (j : nat) : arcPosition line j 1 = arcLength line (S j).
Proof. unfold arcPosition. simpl. ring. Qed.

Lemma arcChain_app (sigma : R) (segments1 segments2 : list Segment) :
  forall u w v,
    arcChain line sigma u segments1 w -> arcChain line sigma w segments2 v ->
    arcChain line sigma u (segments1 ++ segments2) v.
Proof.
  induction segments1 as [| seg rest IH]; intros u w v H1 H2; simpl in *.
  - subst. exact H2.
  - destruct H1 as (j & a & b & t1 & t2 & Ha & Hb & H1 & H2' & Hs & Hst & Hen
                    & Hd & Hu & Hrest).
    exists j, a, b, t1, t2. repeat (split; [assumption |]).
    eapply IH; eassumption.
Qed.

(** The length of a piece of a segment, walked in the direction [sigma]. *)
Lemma arcChain_step (sigma : R) (j : nat) (a b : Coord) (t1 t2 : R) :
  sigma = 1 \/ sigma = -1 ->
  line !! j = Some a -> line !! S j = Some b ->
  0 <= sigma * (t2 - t1) ->
  distance (lerp a b t1) (lerp a b t2)
  = sigma * (arcPosition line j t2 - arcPosition line j t1).
Proof.
  intros Hsigma Ha Hb Hdir. rewrite distance_lerp_lerp.
  unfold arcPosition. rewrite (segmentLength_lookup j a b Ha Hb).
  destruct Hsigma as [-> | ->].
  - rewrite Rabs_pos_eq by lra. ring.
  - rewrite Rabs_left1 by lra. ring.
Qed.

(** The segments of a walk are as long together as the piece of polyline
    between its two ends. *)
Lemma arcChain_sum (sigma : R) (segments : list Segment) :
  sigma = 1 \/ sigma = -1 ->
  forall u v, arcChain line sigma u segments v ->
              sumDist segments = sigma * (v - u).
Proof.
  intros Hsigma. induction segments as [| seg rest IH]; intros u v H.
  - simpl in H. subst. unfold sumDist. simpl. ring.
  - destruct H as (j & a & b & t1 & t2 & Ha & Hb & H1 & H2 & Hs & Hst & Hen
                   & Hd & -> & Hrest).
    rewrite sumDist_cons, (IH _ _ Hrest), Hd, Hst, Hen.
    rewrite (arcChain_step sigma j a b t1 t2 Hsigma Ha Hb Hs). ring.
Qed.

(** The loop over the segments returns the point of the polyline that lies
    the target distance from the start of the walk, in its direction. *)
Lemma arcChain_walk (sigma : R) (segments : list Segment) :
  sigma = 1 \/ sigma = -1 ->
  forall u v targetDist accumulated,
    arcChain line sigma u segments v -> segments <> [] ->
    accumulated <= targetDist <= accumulated + sumDist segments ->
    exists q,
      walkSegments segments targetDist accumulated = Some q
      /\ atArc line q (u + sigma * (targetDist - accumulated)).
Proof.
  intros Hsigma.
  assert (Hsq : sigma * sigma = 1) by (destruct Hsigma as [-> | ->]; ring).
  induction segments as [| seg rest IH];
    intros u v targetDist accumulated H Hne Hrange; [done |].
  destruct H as (j & a & b & t1 & t2 & Ha & Hb & H1 & H2 & Hs & Hst & Hen
                 & Hd & -> & Hrest).
  pose proof (arcChain_step sigma j a b t1 t2 Hsigma Ha Hb Hs) as Hlen.
  rewrite <- Hst, <- Hen, <- Hd in Hlen.
  pose proof (distance_nonneg (seg_start seg) (seg_end seg)) as Hnn.
  rewrite <- Hd in Hnn.
  rewrite sumDist_cons in Hrange. cbn [walkSegments].
  destruct (decide (accumulated + seg_dist seg >= targetDist)) as [Hge | Hlt].
  - eexists. split; [reflexivity |].
    set (sp := if decide (seg_dist seg > 0)
               then (targetDist - accumulated) / seg_dist seg else 0).
    assert (Hsp : 0 <= sp <= 1
                  /\ sp * seg_dist seg = targetDist - accumulated).
    { subst sp. destruct (decide (seg_dist seg > 0)) as [Hpos | Hzero].
      - split; [split |].
        + apply Rmult_le_pos; [lra |]. left. apply Rinv_0_lt_compat. lra.
        + apply (Rmult_le_reg_r (seg_dist seg)); [lra |].
          replace ((targetDist - accumulated) / seg_dist seg * seg_dist seg)
            with (targetDist - accumulated) by (field; lra).
          lra.
        + field. lra.
      - split; [lra |]. lra. }
    destruct Hsp as [Hsp Hprod].
    rewrite Hst, Hen, lerp_lerp.
    exists j, a, b, (t1 + sp * (t2 - t1)).
    split; [exact Ha |]. split; [exact Hb |].
    split; [apply between_range; done |]. split; [reflexivity |].
    unfold arcPosition in *.
    set (len := segmentLength line j) in *. clearbody len.
    set (d := seg_dist seg) in *. clearbody d.
    assert (Hd2 : sigma * d = (t2 - t1) * len).
    { rewrite Hlen.
      replace (sigma * (sigma * (arcLength line j + t2 * len
                                 - (arcLength line j + t1 * len))))
        with (sigma * sigma * ((t2 - t1) * len)) by ring.
      rewrite Hsq. ring. }
    replace (sigma * (targetDist - accumulated)) with (sp * (sigma * d))
      by (rewrite <- Hprod; ring).
    rewrite Hd2. ring.
  - destruct (IH (arcPosition line j t2) v targetDist
                 (accumulated + seg_dist seg) Hrest)
      as (q & Hq & Hat).
    + intros ->. unfold sumDist in Hrange. simpl in Hrange. lra.
    + lra.
    + exists q. split; [exact Hq |].
      replace (arcPosition line j t1 + sigma * (targetDist - accumulated))
        with (arcPosition line j t2
              + sigma * (targetDist - (accumulated + seg_dist seg)));
        [exact Hat |].
      rewrite Hlen.
      replace (sigma * (targetDist
                        - (accumulated
                           + sigma * (arcPosition line j t2
                                      - arcPosition line j t1))))
        with (sigma * (targetDist - accumulated)
              - sigma * sigma * (arcPosition line j t2 - arcPosition line j t1))
        by ring.
      rewrite Hsq. ring.
Qed.

End ArcLength.

Section WalkArc.

Variable line : list Coord.

(** The full segments of the forward loop lead from vertex [i] to vertex
    [i + n]. *)
Lemma forwardSegments_arc : forall n i mids,
  mapM (forwardSegment line) (seq i n) = Some mids ->
  arcChain line 1 (arcLength line i) mids (arcLength line (i + n)).
Proof.
  induction n as [| n IH]; intros i mids Hm.
  - simpl in Hm. injection Hm as <-. simpl. f_equal. lia.
  - cbn [seq mapM] in Hm.
    destruct (forwardSegment line i) as [seg |] eqn:Hseg; [| discriminate Hm].
    simpl in Hm.
    destruct (mapM (forwardSegment line) (seq (S i) n)) as [rest |] eqn:Hrest;
      [| discriminate Hm].
    simpl in Hm. injection Hm as <-.
    unfold forwardSegment in Hseg.
    destruct (line !! i) as [a |] eqn:Ha; [| discriminate Hseg].
    destruct (line !! (i + 1)%nat) as [b |] eqn:Hb; [| discriminate Hseg].
    simpl in Hseg. injection Hseg as <-.
    replace (i + 1)%nat with (S i) in Hb by lia.
    exists i, a, b, 0, 1. cbn [seg_start seg_end seg_dist].
    rewrite lerp_0, lerp_1, arcPosition_0, arcPosition_1.
    split; [exact Ha |]. split; [exact Hb |]. split; [lra |]. split; [lra |].
    split; [lra |]. split; [done |]. split; [done |]. split; [done |].
    split; [done |].
    replace (i + S n)%nat with (S i + n)%nat by lia. apply IH, Hrest.
Qed.

(** The full segments of the backward loop lead from vertex [e + n] down to
    vertex [e]. *)
Lemma backwardSegments_arc : forall n e mids,
  mapM (backwardSegment line) (rev (seq e n)) = Some mids ->
  arcChain line (-1) (arcLength line (e + n)) mids (arcLength line e).
Proof.
  induction n as [| n IH]; intros e mids Hm.
  - simpl in Hm. injection Hm as <-. simpl. f_equal. lia.
  - rewrite seq_S, rev_unit in Hm. cbn [mapM] in Hm.
    destruct (backwardSegment line (e + n)) as [seg |] eqn:Hseg;
      [| discriminate Hm].
    simpl in Hm.
    destruct (mapM (backwardSegment line) (rev (seq e n))) as [rest |] eqn:Hrest;
      [| discriminate Hm].
    simpl in Hm. injection Hm as <-.
    unfold backwardSegment in Hseg.
    destruct (line !! (e + n + 1)%nat) as [b |] eqn:Hb; [| discriminate Hseg].
    destruct (line !! (e + n)%nat) as [a |] eqn:Ha; [| discriminate Hseg].
    simpl in Hseg. injection Hseg as <-.
    replace (e + n + 1)%nat with (S (e + n)) in Hb by lia.
    exists (e + n)%nat, a, b, 1, 0. cbn [seg_start seg_end seg_dist].
    rewrite lerp_0, lerp_1, arcPosition_0, arcPosition_1.
    split; [exact Ha |]. split; [exact Hb |]. split; [lra |]. split; [lra |].
    split; [lra |]. split; [done |]. split; [done |]. split; [done |].
    split; [f_equal; lia |].
    apply IH, Hrest.
Qed.

(** The segments built for two different indices lead along the polyline
    from the start projection to the end projection, forward or backward. *)
Lemma buildSegments_arc startIndex startT endIndex endT a b segments :
  startIndex <> endIndex ->
  line !! startIndex = Some a -> line !! (startIndex + 1)%nat = Some b ->
  0 <= startT <= 1 -> 0 <= endT <= 1 ->
  buildSegments line startIndex (lerp a b startT) endIndex endT = Some segments ->
  exists sigma,
    (sigma = 1 \/ sigma = -1)
    /\ arcChain line sigma (arcPosition line startIndex startT) segments
                (arcPosition line endIndex endT).
Proof.
  intros Hne Ha Hb Hst Het. unfold buildSegments.
  replace (startIndex + 1)%nat with (S startIndex) in * by lia.
  destruct (decide (startIndex < endIndex)%nat) as [Hfwd | Hbwd].
  - rewrite Hb. simpl.
    destruct (mapM (forwardSegment line) _) as [mids |] eqn:Hm; [| done].
    simpl.
    destruct (line !! endIndex) as [c |] eqn:Hc; [| done].
    destruct (line !! (endIndex + 1)%nat) as [d |] eqn:Hd; [| done].
    replace (endIndex + 1)%nat with (S endIndex) in Hd by lia.
    simpl. intros [= <-]. exists 1. split; [by left |].
    exists startIndex, a, b, startT, 1. cbn [seg_start seg_end seg_dist].
    rewrite lerp_1, arcPosition_1.
    split; [exact Ha |]. split; [exact Hb |]. split; [lra |]. split; [lra |].
    split; [lra |]. split; [done |]. split; [done |]. split; [done |].
    split; [done |].
    apply (arcChain_app line 1 mids _ _ (arcLength line endIndex)).
    + apply forwardSegments_arc in Hm.
      replace (S startIndex + (endIndex - S startIndex))%nat
        with endIndex in Hm by lia.
      exact Hm.
    + exists endIndex, c, d, 0, endT. cbn [seg_start seg_end seg_dist].
      rewrite lerp_0, arcPosition_0.
      split; [exact Hc |]. split; [exact Hd |]. split; [lra |].
      split; [lra |]. split; [lra |]. split; [done |]. split; [done |].
      split; [done |]. split; [done |]. simpl. done.
  - rewrite Ha. simpl.
    destruct (mapM (backwardSegment line) _) as [mids |] eqn:Hm; [| done].
    simpl.
    destruct (line !! endIndex) as [c |] eqn:Hc; [| done].
    destruct (line !! (endIndex + 1)%nat) as [d |] eqn:Hd; [| done].
    replace (endIndex + 1)%nat with (S endIndex) in Hd by lia.
    simpl. intros [= <-]. exists (-1). split; [by right |].
    exists startIndex, a, b, startT, 0. cbn [seg_start seg_end seg_dist].
    rewrite lerp_0, arcPosition_0.
    split; [exact Ha |]. split; [exact Hb |]. split; [lra |]. split; [lra |].
    split; [lra |]. split; [done |]. split; [done |]. split; [done |].
    split; [done |].
    apply (arcChain_app line (-1) mids _ _ (arcLength line (S endIndex))).
    + apply backwardSegments_arc in Hm.
      replace (endIndex + 1 + (startIndex - 1 - endIndex))%nat
        with startIndex in Hm by lia.
      replace (endIndex + 1)%nat with (S endIndex) in Hm by lia.
      exact Hm.
    + exists endIndex, c, d, 1, endT. cbn [seg_start seg_end seg_dist].
      rewrite lerp_1, arcPosition_1.
      split; [exact Hc |]. split; [exact Hd |]. split; [lra |].
      split; [lra |]. split; [lra |]. split; [done |]. split; [done |].
      split; [done |]. split; [done |]. simpl. done.
Qed.

(** Between two places of the polyline, the point returned for a progress
    in [0,1] is the point of the polyline whose length from the first vertex
    is the progress-weighted mean of the lengths of the two places. *)
Lemma pointAlongLine_arc startIndex startT endIndex endT progress :
  (startIndex + 1 < length line)%nat -> (endIndex + 1 < length line)%nat ->
  0 <= startT <= 1 -> 0 <= endT <= 1 -> 0 <= progress <= 1 ->
  exists q,
    pointAlongLine line startIndex startT endIndex endT progress = Some q
    /\ atArc line q
             (arcPosition line startIndex startT
              + progress * (arcPosition line endIndex endT
                            - arcPosition line startIndex startT)).
Proof.
  intros Hsi Hei Hst Het Hp.
  destruct (lookup_lt_is_Some_2 line startIndex) as [a Ha]; [lia |].
  destruct (lookup_lt_is_Some_2 line (startIndex + 1)) as [b Hb]; [lia |].
  destruct (lookup_lt_is_Some_2 line endIndex) as [c Hc]; [lia |].
  destruct (lookup_lt_is_Some_2 line (endIndex + 1)) as [d Hd]; [lia |].
  destruct (decide (startIndex = endIndex)) as [Heq | Hne].
  - rewrite (pointAlongLine_same_segment line startIndex endIndex startT endT
               a b c d Ha Hb Hc Hd progress Heq).
    subst endIndex.
    assert (c = a) as -> by congruence. assert (d = b) as -> by congruence.
    eexists. split; [reflexivity |]. rewrite lerp_lerp.
    exists startIndex, a, b, (startT + progress * (endT - startT)).
    split; [exact Ha |].
    split; [replace (S startIndex) with (startIndex + 1)%nat by lia; exact Hb |].
    split; [apply between_range; done |]. split; [reflexivity |].
    unfold arcPosition. ring.
  - destruct (pointAlongLine_walk line startIndex endIndex startT endT
                a b c d Ha Hb Hc Hd progress Hne)
      as (segments & Hchain & Hnil & Hbuild & ->).
    destruct (buildSegments_arc startIndex startT endIndex endT a b segments
                Hne Ha Hb Hst Het Hbuild) as (sigma & Hsigma & Harc).
    pose proof (arcChain_sum line sigma segments Hsigma _ _ Harc) as Hsum.
    pose proof (chain_sumDist_nonneg _ _ _ Hchain) as Hnn.
    rewrite totalDistOf_sum.
    destruct (arcChain_walk line sigma segments Hsigma _ _
                (progress * sumDist segments) 0 Harc Hnil)
      as (q & Hq & Hat); [nra |].
    exists q. rewrite Hq. split; [reflexivity |].
    replace (arcPosition line startIndex startT
             + progress * (arcPosition line endIndex endT
                           - arcPosition line startIndex startT))
      with (arcPosition line startIndex startT
            + sigma * (progress * sumDist segments - 0)); [exact Hat |].
    rewrite Hsum.
    assert (Hsq : sigma * sigma = 1) by (destruct Hsigma as [-> | ->]; ring).
    set (s0 := arcPosition line startIndex startT) in *.
    set (s1 := arcPosition line endIndex endT) in *.
    replace (s0 + sigma * (progress * (sigma * (s1 - s0)) - 0))
      with (s0 + sigma * sigma * (progress * (s1 - s0))) by ring.
    rewrite Hsq. ring.
Qed.

End WalkArc.

(** C5. On a polyline of at least two points, with the projections of [A]
    and [B] as start and end, [pointAlongLine] returns for every progress in
    [0,1] the point of the polyline whose length from the first vertex lies
    between those of the two projections, at the share [progress] of the way
    from the first to the second.  So the length of polyline between the
    start projection and the returned point does not decrease when the
    progress grows, and the point moves along the polyline in one direction
    only. *)
Theorem pointAlongLine_monotonic (line : list Coord) (A B : Coord) (p1 p2 : R) :
  (2 <= length line)%nat ->
  0 <= p1 -> p1 <= p2 -> p2 <= 1 ->
  let pa := nearestPointOnLine A line in
  let pb := nearestPointOnLine B line in
  let s0 := arcPosition line (np_index pa) (np_t pa) in
  let s1 := arcPosition line (np_index pb) (np_t pb) in
  atArc line (np_point pa) s0 /\ atArc line (np_point pb) s1
  /\ exists q1 q2 d1 d2,
       pointAlongLine line (np_index pa) (np_t pa) (np_index pb) (np_t pb) p1
       = Some q1
       /\ pointAlongLine line (np_index pa) (np_t pa) (np_index pb) (np_t pb) p2
          = Some q2
       /\ atArc line q1 d1 /\ atArc line q2 d2
       /\ d1 = s0 + p1 * (s1 - s0) /\ d2 = s0 + p2 * (s1 - s0)
       /\ Rabs (d1 - s0) <= Rabs (d2 - s0)
       /\ (s0 <= d1 /\ d1 <= d2 /\ d2 <= s1 \/ s1 <= d2 /\ d2 <= d1 /\ d1 <= s0).
Proof.
  intros Hlen H0 H12 H1 pa pb s0 s1.
  destruct (nearestPointOnLine_spec A line Hlen) as (j & a & b & Ha & Hb & HA & _).
  destruct (nearestPointOnLine_spec B line Hlen) as (k & c & d & Hc & Hd & HB & _).
  subst s0 s1 pa pb. rewrite HA, HB. cbn [np_index np_t np_point].
  pose proof (segmentT_range A a b) as Hta.
  pose proof (segmentT_range B c d) as Htb.
  set (s0 := arcPosition line j (segmentT A a b)).
  set (s1 := arcPosition line k (segmentT B c d)).
  split; [exists j, a, b, (segmentT A a b); done |].
  split; [exists k, c, d, (segmentT B c d); done |].
  apply lookup_lt_Some in Hb as Hj. apply lookup_lt_Some in Hd as Hk.
  destruct (pointAlongLine_arc line j (segmentT A a b) k (segmentT B c d) p1)
    as (q1 & Hq1 & Hat1); [lia | lia | done | done | lra |].
  destruct (pointAlongLine_arc line j (segmentT A a b) k (segmentT B c d) p2)
    as (q2 & Hq2 & Hat2); [lia | lia | done | done | lra |].
  exists q1, q2, (s0 + p1 * (s1 - s0)), (s0 + p2 * (s1 - s0)).
  split; [exact Hq1 |]. split; [exact Hq2 |].
  split; [exact Hat1 |]. split; [exact Hat2 |].
  split; [reflexivity |]. split; [reflexivity |].
  split.
  - replace (s0 + p1 * (s1 - s0) - s0) with (p1 * (s1 - s0)) by ring.
    replace (s0 + p2 * (s1 - s0) - s0) with (p2 * (s1 - s0)) by ring.
    rewrite !Rabs_mult, (Rabs_pos_eq p1), (Rabs_pos_eq p2) by lra.
    apply Rmult_le_compat_r; [apply Rabs_pos | exact H12].
  - destruct (Rle_lt_dec s0 s1) as [Hle | Hgt]; [left | right]; nra.
Qed.

(** An instance: the polyline (0,0), (2,0), (2,2), from near the first
    segment to near the second, at progress 1/4 and 3/4. *)
Lemma pointAlongLine_monotonic_witness :
  let line : list Coord := [(0, 0); (2, 0); (2, 2)] in
  let pa := nearestPointOnLine (1, -1) line in
  let pb := nearestPointOnLine (3, 1) line in
  let s0 := arcPosition line (np_index pa) (np_t pa) in
  let s1 := arcPosition line (np_index pb) (np_t pb) in
  atArc line (np_point pa) s0 /\ atArc line (np_point pb) s1
  /\ exists q1 q2 d1 d2,
       pointAlongLine line (np_index pa) (np_t pa) (np_index pb) (np_t pb) (1/4)
       = Some q1
       /\ pointAlongLine line (np_index pa) (np_t pa) (np_index pb) (np_t pb) (3/4)
          = Some q2
       /\ atArc line q1 d1 /\ atArc line q2 d2
       /\ d1 = s0 + 1/4 * (s1 - s0) /\ d2 = s0 + 3/4 * (s1 - s0)
       /\ Rabs (d1 - s0) <= Rabs (d2 - s0)
       /\ (s0 <= d1 /\ d1 <= d2 /\ d2 <= s1 \/ s1 <= d2 /\ d2 <= d1 /\ d1 <= s0).
Proof.
  apply (pointAlongLine_monotonic [(0, 0); (2, 0); (2, 2)] (1, -1) (3, 1) (1/4) (3/4)).
  - simpl. lia.
  - lra.
  - lra.
  - lra.
Defined.

(** ** Path resolver *)

Section Resolver.

Variables start end_ : Coord.

#[local] Abbreviation score := (pathScore start end_).
#[local] Abbreviation step := (pathStep start end_).

Lemma bestScore_candidate p :
  bestScore (Some (candidate start end_ p)) = Some (score p).
Proof. reflexivity. Qed.

Lemma pathStep_cases best p :
  ((length p < 2)%nat /\ step best p = best)
  \/ ((2 <= length p)%nat /\ ltInf (score p) (bestScore best) = true
      /\ step best p = Some (candidate start end_ p))
  \/ ((2 <= length p)%nat /\ ltInf (score p) (bestScore best) = false
      /\ step best p = best).
Proof.
  unfold pathStep. destruct (decide (length p < 2)%nat) as [Hshort | Hlong].
  - left. done.
  - right. fold (score p). unfold candidate.
    destruct (ltInf (score p) (bestScore best)) eqn:Hlt; [left | right];
      (split; [lia | done]).
Qed.

(** What the candidate loop does to [best]: either no polyline of at
    least two points improves on the score it started with, or it ends on
    the first such polyline of least score. *)
Lemma bestOf_spec (paths : list (list Coord)) : forall best,
  (fold_left step paths best = best
     /\ forall k p, paths !! k = Some p -> (2 <= length p)%nat ->
          ltInf (score p) (bestScore best) = false)
  \/ (exists k p,
        paths !! k = Some p /\ (2 <= length p)%nat
        /\ fold_left step paths best = Some (candidate start end_ p)
        /\ ltInf (score p) (bestScore best) = true
        /\ (forall k' q, paths !! k' = Some q -> (2 <= length q)%nat ->
              score p <= score q)
        /\ (forall k' q, (k' < k)%nat -> paths !! k' = Some q ->
              (2 <= length q)%nat -> score p < score q)).
Proof.
  induction paths as [| p0 rest IH]; intros best.
  { left. split; [done |]. intros k p H. destruct k; discriminate H. }
  cbn [fold_left].
  destruct (pathStep_cases best p0)
    as [[Hshort ->] | [(Hlong & Hlt & ->) | (Hlong & Hge & ->)]].
  - (* skipped by [continue] *)
    destruct (IH best)
      as [[-> Hnone] | (k & p & Hp & Hlen & -> & Hlt1 & Hmin & Hfirst)].
    + left. split; [done |]. intros [| k'] q Hq Hq2.
      * simpl in Hq. simplify_eq. lia.
      * eapply Hnone; eassumption.
    + right. exists (S k), p. repeat split; try done.
      * intros [| k'] q Hq Hq2.
        -- simpl in Hq. simplify_eq. lia.
        -- eapply Hmin; eassumption.
      * intros [| k'] q Hk Hq Hq2.
        -- simpl in Hq. simplify_eq. lia.
        -- eapply (Hfirst k'); [lia | eassumption..].
  - (* kept *)
    destruct (IH (Some (candidate start end_ p0)))
      as [[-> Hnone] | (k & p & Hp & Hlen & -> & Hlt1 & Hmin & Hfirst)].
    + right. exists 0%nat, p0. repeat split; try done.
      * intros [| k'] q Hq Hq2.
        -- simpl in Hq. simplify_eq. lra.
        -- pose proof (Hnone k' q Hq Hq2) as Hf.
           apply ltInf_false in Hf as (s & Hs & Hle).
           rewrite bestScore_candidate in Hs. simplify_eq. exact Hle.
      * intros k' q Hk. lia.
    + right. exists (S k), p.
      rewrite bestScore_candidate in Hlt1. apply ltInf_Some in Hlt1.
      repeat split; try done.
      * destruct (bestScore best) as [s |]; [| done].
        apply ltInf_Some. apply ltInf_Some in Hlt. lra.
      * intros [| k'] q Hq Hq2.
        -- simpl in Hq. simplify_eq. lra.
        -- eapply Hmin; eassumption.
      * intros [| k'] q Hk Hq Hq2.
        -- simpl in Hq. simplify_eq. exact Hlt1.
        -- eapply (Hfirst k'); [lia | eassumption..].
  - (* not kept *)
    destruct (IH best)
      as [[-> Hnone] | (k & p & Hp & Hlen & -> & Hlt1 & Hmin & Hfirst)].
    + left. split; [done |]. intros [| k'] q Hq Hq2.
      * simpl in Hq. simplify_eq. exact Hge.
      * eapply Hnone; eassumption.
    + right. exists (S k), p.
      apply ltInf_false in Hge as (s & Hs & Hle).
      assert (Hlt0 : score p < score p0).
      { rewrite Hs in Hlt1. apply ltInf_Some in Hlt1. lra. }
      repeat split; try done.
      * intros [| k'] q Hq Hq2.
        -- simpl in Hq. simplify_eq. lra.
        -- eapply Hmin; eassumption.
      * intros [| k'] q Hk Hq Hq2.
        -- simpl in Hq. simplify_eq. exact Hlt0.
        -- eapply (Hfirst k'); [lia | eassumption..].
Qed.

(** The loop ends without a candidate exactly when no polyline has two
    points; otherwise on the first polyline of least score. *)
Lemma bestOf_cases (paths : list (list Coord)) :
  (bestOf start end_ paths = None
     /\ forall k p, paths !! k = Some p -> (length p < 2)%nat)
  \/ (exists k p,
        paths !! k = Some p /\ (2 <= length p)%nat
        /\ bestOf start end_ paths = Some (candidate start end_ p)
        /\ (forall k' q, paths !! k' = Some q -> (2 <= length q)%nat ->
              score p <= score q)
        /\ (forall k' q, (k' < k)%nat -> paths !! k' = Some q ->
              (2 <= length q)%nat -> score p < score q)).
Proof.
  unfold bestOf.
  destruct (bestOf_spec paths None)
    as [[-> Hnone] | (k & p & Hp & Hlen & -> & _ & Hmin & Hfirst)].
  - left. split; [done |]. intros k p Hp.
    destruct (decide (length p < 2)%nat) as [| Hlong]; [done |].
    assert (Hl : (2 <= length p)%nat) by lia.
    specialize (Hnone k p Hp Hl). discriminate Hnone.
  - right. exists k, p. done.
Qed.

End Resolver.

(** C3. [findPathBetweenPoints] returns a result exactly when the route has
    a polyline of at least two points whose score, the sum of the two
    projection distances, is least among such polylines (the first one if
    several are), and both projection distances on it are below 0.005; the
    result is that polyline with the segment index and parameter of both
    projections. *)
Theorem findPathBetweenPoints_spec (routePaths : RoutePaths) (rid : string)
    (start end_ : Coord) (r : PathInfo) :
  findPathBetweenPoints routePaths rid start end_ = Some r
  <-> exists paths k,
        routePaths !! rid = Some paths
        /\ paths !! k = Some (path r) /\ (2 <= length (path r))%nat
        /\ (forall k' q, paths !! k' = Some q -> (2 <= length q)%nat ->
              pathScore start end_ (path r) <= pathScore start end_ q)
        /\ (forall k' q, (k' < k)%nat -> paths !! k' = Some q ->
              (2 <= length q)%nat ->
              pathScore start end_ (path r) < pathScore start end_ q)
        /\ startIndex r = np_index (nearestPointOnLine start (path r))
        /\ startT r = np_t (nearestPointOnLine start (path r))
        /\ endIndex r = np_index (nearestPointOnLine end_ (path r))
        /\ endT r = np_t (nearestPointOnLine end_ (path r))
        /\ distance start (np_point (nearestPointOnLine start (path r))) < 0.005
        /\ distance end_ (np_point (nearestPointOnLine end_ (path r))) < 0.005.
Proof.
  unfold findPathBetweenPoints. split.
  - destruct (routePaths !! rid) as [paths |]; [| done].
    destruct (decide (length paths = 0%nat)); [done |].
    destruct (bestOf_cases start end_ paths)
      as [[-> _] | (k & p & Hp & Hlen & -> & Hmin & Hfirst)]; [done |].
    simpl. intros H.
    destruct (bool_decide _) eqn:Hs in H; [| done].
    destruct (bool_decide _) eqn:He in H; [| done].
    simpl in H. simplify_eq. simpl.
    apply bool_decide_eq_true in Hs, He.
    exists paths, k. repeat split; done.
  - intros (paths & k & -> & Hk & Hlen & Hmin & Hfirst & Hsi & Hst & Hei & Het & Hs & He).
    rewrite decide_False.
    2:{ intros Hz. apply lookup_lt_Some in Hk. lia. }
    destruct (bestOf_cases start end_ paths)
      as [[_ Hshort] | (k0 & p & Hp & Hlen0 & -> & Hmin0 & Hfirst0)].
    { specialize (Hshort k _ Hk). lia. }
    assert (k0 = k) as ->.
    { destruct (Nat.lt_trichotomy k0 k) as [Hlt | [Heq | Hgt]]; [| done |].
      - pose proof (Hfirst k0 p Hlt Hp Hlen0). pose proof (Hmin0 k _ Hk Hlen). lra.
      - pose proof (Hfirst0 k _ Hgt Hk Hlen). pose proof (Hmin k0 p Hp Hlen0). lra. }
    assert (p = path r) as -> by congruence.
    simpl. rewrite !bool_decide_eq_true_2 by done. simpl.
    destruct r; simpl in *. congruence.
Qed.

(** ** Line filter *)

Lemma routesOf_Some (lineGroup : string) :
  lineGroup ∉ objectPrototypeKeys -> is_Some (routesOf lineGroup).
Proof.
  intros Hno. unfold routesOf.
  destruct (_ !! lineGroup); [done |].
  rewrite decide_False by exact Hno. done.
Qed.

(** Every label of [LINE_GROUPS] has its routes. *)
Lemma routesOf_LINE_GROUPS (label : string) (routes : list string) :
  (label, routes) ∈ LINE_GROUPS -> routesOf label = Some routes.
Proof.
  intros Hin. unfold routesOf.
  repeat (apply elem_of_cons in Hin as [Heq | Hin];
          [injection Heq as -> ->; vm_compute; reflexivity |]).
  apply elem_of_nil in Hin. done.
Qed.

(** No label of [LINE_GROUPS] is the name of an inherited property. *)
Lemma LINE_GROUPS_labels_own (label : string) (routes : list string) :
  (label, routes) ∈ LINE_GROUPS -> label ∉ objectPrototypeKeys.
Proof.
  intros Hin Hproto.
  repeat (apply elem_of_cons in Hin as [Heq | Hin];
          [injection Heq as -> ->;
           repeat (apply elem_of_cons in Hproto as [Hp | Hproto];
                   [discriminate Hp |]);
           apply elem_of_nil in Hproto; exact Hproto |]).
  apply elem_of_nil in Hin. exact Hin.
Qed.

Lemma forallb_list_to_set (routes : list string) (s : gset string) :
  list_to_set routes ⊆ s ->
  forallb (λ r, bool_decide (r ∈ s)) routes = true.
Proof.
  intros Hsub. apply forallb_forall. intros r Hr.
  apply bool_decide_eq_true. apply Hsub.
  apply elem_of_list_to_set, list_elem_of_In, Hr.
Qed.

Lemma foldl_delete_routes (routes : list string) : forall s : gset string,
  foldl (λ s r, s ∖ {[r]}) s routes = s ∖ list_to_set routes.
Proof.
  induction routes as [| r rest IH]; intros s; simpl.
  - rewrite difference_empty_L. done.
  - rewrite IH. apply difference_difference_l_L.
Qed.

(** [routes] is never empty: every group of [LINE_GROUPS] has a route, and
    the fallback is the one-element list. *)
Lemma routesOf_nonempty (lineGroup : string) (routes : list string) :
  routesOf lineGroup = Some routes -> routes <> [].
Proof.
  unfold routesOf.
  destruct (list_to_map (M := gmap string (list string)) LINE_GROUPS !! lineGroup)
    as [rs |] eqn:Hl.
  - intros [= <-]. apply elem_of_list_to_map_2 in Hl.
    repeat (apply elem_of_cons in Hl as [Heq | Hl];
            [injection Heq as _ ->; discriminate |]).
    apply elem_of_nil in Hl. done.
  - destruct (decide (lineGroup ∈ objectPrototypeKeys)); [done |].
    intros [= <-]. discriminate.
Qed.

(** An unlisted label that is not an inherited property name stands for
    itself. *)
Lemma routesOf_unlisted (lineGroup : string) :
  lineGroup ∉ LINE_GROUPS.*1 -> lineGroup ∉ objectPrototypeKeys ->
  routesOf lineGroup = Some [lineGroup].
Proof.
  intros Hno Hown. unfold routesOf.
  rewrite (not_elem_of_list_to_map_1 _ _ Hno).
  rewrite decide_False by exact Hown. done.
Qed.

(** C10. From the show-all state, [toggleLine] with a label of [LINE_GROUPS]
    makes exactly the routes listed for that label active, and [toggleLine]
    with the same label again removes them all and goes back to the show-all
    state.  The same holds, with the label itself as only route, for every
    unlisted string that is not the name of a property inherited from
    [Object.prototype]. *)
Theorem toggleLine_twice (lineGroup : string) (routes : list string) :
  (lineGroup, routes) ∈ LINE_GROUPS
  \/ ((lineGroup ∉ LINE_GROUPS.*1) /\ (lineGroup ∉ objectPrototypeKeys)
      /\ routes = [lineGroup]) ->
  routes <> []
  /\ toggleLine lineGroup None = Some (Some (list_to_set routes))
  /\ (forall r, r ∈ (list_to_set routes : gset string) <-> r ∈ routes)
  /\ toggleLine lineGroup (Some (list_to_set routes)) = Some showAllLines.
Proof.
  intros H.
  assert (Hroutes : routesOf lineGroup = Some routes).
  { destruct H as [Hin | (Hno & Hown & ->)].
    - by apply routesOf_LINE_GROUPS.
    - by apply routesOf_unlisted. }
  split; [exact (routesOf_nonempty _ _ Hroutes) |].
  unfold toggleLine. rewrite Hroutes. simpl.
  split; [done |]. split; [intros r; apply elem_of_list_to_set |].
  rewrite forallb_list_to_set by done.
  rewrite foldl_delete_routes.
  rewrite difference_diag_L.
  rewrite decide_True by apply size_empty. done.
Qed.

(** An instance: the label "A/C/E" makes the routes A, C and E active. *)
Lemma toggleLine_twice_witness :
  ["A"; "C"; "E"]%string <> []
  /\ toggleLine "A/C/E" None = Some (Some (list_to_set ["A"; "C"; "E"]%string))
  /\ (forall r, r ∈ (list_to_set ["A"; "C"; "E"]%string : gset string)
                <-> r ∈ ["A"; "C"; "E"]%string)
  /\ toggleLine "A/C/E" (Some (list_to_set ["A"; "C"; "E"]%string))
     = Some showAllLines.
Proof.
  apply (toggleLine_twice "A/C/E" ["A"; "C"; "E"]%string).
  left. unfold LINE_GROUPS.
  repeat (apply elem_of_cons; first [by left | right]).
Defined.

(** ** The two stores *)

Section Stores.

Implicit Types (st : Store) (train : Train) (anim : TrainAnimation).

(** A resolved path has at least two points, and both projections name one
    of its segments. *)
Lemma findPathBetweenPoints_valid (routePaths : RoutePaths) rid start end_ r :
  findPathBetweenPoints routePaths rid start end_ = Some r ->
  (2 <= length (path r))%nat /\ validPathInfo r.
Proof.
  unfold findPathBetweenPoints.
  destruct (routePaths !! rid) as [paths |]; [| done].
  destruct (decide (length paths = 0%nat)); [done |].
  destruct (bestOf_cases start end_ paths)
    as [[-> _] | (k & p & Hp & Hlen & -> & _)]; [done |].
  destruct (_ && _); [| done]. intros [= <-].
  pose proof (nearestPointOnLine_index start p Hlen).
  pose proof (nearestPointOnLine_index end_ p Hlen).
  unfold validPathInfo, nearestPointOnLine in *. simpl in *. lia.
Qed.

Lemma pointAlongLine_valid (pi : PathInfo) progress :
  validPathInfo pi ->
  is_Some (pointAlongLine (path pi) (startIndex pi) (startT pi)
                          (endIndex pi) (endT pi) progress).
Proof.
  intros [Hs He].
  destruct (lookup_lt_is_Some_2 (path pi) (startIndex pi)) as [a Ha]; [lia |].
  destruct (lookup_lt_is_Some_2 (path pi) (startIndex pi + 1)) as [b Hb]; [lia |].
  destruct (lookup_lt_is_Some_2 (path pi) (endIndex pi)) as [c Hc]; [lia |].
  destruct (lookup_lt_is_Some_2 (path pi) (endIndex pi + 1)) as [d Hd]; [lia |].
  eapply pointAlongLine_total; eassumption.
Qed.

Lemma interpolatedPosition_total now anim :
  (forall pi, pathInfo anim = Some pi -> validPathInfo pi) ->
  is_Some (interpolatedPosition now anim).
Proof.
  intros Hvalid. unfold interpolatedPosition.
  destruct (pathInfo anim) as [pi |]; [| done].
  apply pointAlongLine_valid, Hvalid. done.
Qed.

Lemma startPosition_total now st train :
  validStore st -> is_Some (startPosition now st train).
Proof.
  intros Hvalid. unfold startPosition.
  destruct (trainAnimations st !! t_id train) as [anim |] eqn:Hanim.
  - apply interpolatedPosition_total. intros pi Hpi. eapply Hvalid; eassumption.
  - destruct (currentPositions st !! t_id train); done.
Qed.

(** The four outcomes of the [forEach] callback. *)
Lemma reconcileTrain_cases routePaths now st train st' :
  reconcileTrain routePaths now st train = Some st' ->
  let newPos := (t_longitude train, t_latitude train) in
  (* early return, or a distance of at most 0.00001 *)
  st' = st
  \/ (* snap *)
     (exists startPos,
        startPosition now st train = Some startPos
        /\ distance startPos newPos > 0.02
        /\ st' = mkStore (delete (t_id train) (trainAnimations st))
                         (<[t_id train := newPos]> (currentPositions st)))
  \/ (* a new animation *)
     (exists startPos,
        startPosition now st train = Some startPos
        /\ 0.00001 < distance startPos newPos <= 0.02
        /\ st' = mkStore
                   (<[t_id train :=
                        mkTrainAnimation startPos newPos now (t_routeId train)
                          (findPathBetweenPoints routePaths (t_routeId train)
                                                 startPos newPos)]>
                      (trainAnimations st))
                   (currentPositions st)).
Proof.
  intros H. cbv zeta. unfold reconcileTrain in H.
  destruct (unchangedPosition _ _); [left; congruence |].
  destruct (startPosition now st train) as [startPos |]; [| done].
  simpl in H.
  set (newPos := (t_longitude train, t_latitude train)) in *.
  destruct (decide (distance startPos newPos > 0.02)) as [Hfar | Hnear].
  - right. left. exists startPos. split; [done |]. split; [done |]. congruence.
  - destruct (decide (distance startPos newPos > 0.00001)) as [Hmove | Hstill].
    + right. right. exists startPos. split; [done |]. split; [lra |].
      destruct (findPathBetweenPoints _ _ _ _); congruence.
    + left. congruence.
Qed.

Lemma reconcileTrain_total routePaths now st train :
  validStore st -> is_Some (reconcileTrain routePaths now st train).
Proof.
  intros Hvalid. unfold reconcileTrain.
  destruct (unchangedPosition _ _); [done |].
  destruct (startPosition_total now st train Hvalid) as [startPos ->]. simpl.
  destruct (decide _); [done |]. destruct (decide _); [| done].
  destruct (findPathBetweenPoints _ _ _ _); done.
Qed.

Lemma reconcileTrain_valid routePaths now st train st' :
  reconcileTrain routePaths now st train = Some st' ->
  validStore st -> validStore st'.
Proof.
  intros H Hvalid.
  destruct (reconcileTrain_cases _ _ _ _ _ H)
    as [-> | [(sp & _ & _ & ->) | (sp & _ & _ & ->)]]; [done | |].
  - intros id anim pi Hanim Hpi. simpl in Hanim.
    apply lookup_delete_Some in Hanim as [_ Hanim]. eapply Hvalid; eassumption.
  - intros id anim pi Hanim Hpi. simpl in Hanim.
    apply lookup_insert_Some in Hanim as [[_ <-] | [_ Hanim]].
    + simpl in Hpi. apply findPathBetweenPoints_valid in Hpi as [_ Hpi]. exact Hpi.
    + eapply Hvalid; eassumption.
Qed.

Lemma reconcileTrain_withinSnap routePaths now st train st' :
  reconcileTrain routePaths now st train = Some st' ->
  withinSnap st -> withinSnap st'.
Proof.
  intros H Hsnap.
  destruct (reconcileTrain_cases _ _ _ _ _ H)
    as [-> | [(sp & _ & _ & ->) | (sp & _ & Hd & ->)]]; [done | |].
  - intros id anim Hanim. simpl in Hanim.
    apply lookup_delete_Some in Hanim as [_ Hanim]. eapply Hsnap; eassumption.
  - intros id anim Hanim. simpl in Hanim.
    apply lookup_insert_Some in Hanim as [[_ <-] | [_ Hanim]].
    + simpl. lra.
    + eapply Hsnap; eassumption.
Qed.

(** The callback leaves the entries of all other ids alone. *)
Lemma reconcileTrain_other routePaths now st train st' id :
  reconcileTrain routePaths now st train = Some st' ->
  id <> t_id train ->
  trainAnimations st' !! id = trainAnimations st !! id
  /\ currentPositions st' !! id = currentPositions st !! id.
Proof.
  intros H Hne.
  destruct (reconcileTrain_cases _ _ _ _ _ H)
    as [-> | [(sp & _ & _ & ->) | (sp & _ & _ & ->)]]; [done | |]; simpl.
  - rewrite lookup_delete_ne, lookup_insert_ne by done. done.
  - rewrite lookup_insert_ne by done. done.
Qed.

Lemma reconcileTrains_total routePaths now trains : forall st,
  validStore st -> is_Some (reconcileTrains routePaths now st trains).
Proof.
  induction trains as [| train rest IH]; intros st Hvalid; simpl; [done |].
  destruct (reconcileTrain_total routePaths now st train Hvalid) as [st' Hst'].
  rewrite Hst'. simpl. apply IH. eapply reconcileTrain_valid; eassumption.
Qed.

Lemma reconcileTrains_invariant routePaths now trains : forall st st',
  reconcileTrains routePaths now st trains = Some st' ->
  (validStore st -> validStore st') /\ (withinSnap st -> withinSnap st').
Proof.
  induction trains as [| train rest IH]; intros st st' H; simpl in H.
  - by simplify_eq.
  - destruct (reconcileTrain routePaths now st train) as [st1 |] eqn:H1; [| done].
    simpl in H. destruct (IH _ _ H) as [Hv Hs].
    split; intros H0.
    + eapply Hv, reconcileTrain_valid; eassumption.
    + eapply Hs, reconcileTrain_withinSnap; eassumption.
Qed.

Lemma reconcileTrains_other routePaths now trains id : forall st st',
  reconcileTrains routePaths now st trains = Some st' ->
  id ∉ (t_id <$> trains) ->
  trainAnimations st' !! id = trainAnimations st !! id
  /\ currentPositions st' !! id = currentPositions st !! id.
Proof.
  induction trains as [| train rest IH]; intros st st' H Hid; simpl in H.
  - by simplify_eq.
  - destruct (reconcileTrain routePaths now st train) as [st1 |] eqn:H1; [| done].
    simpl in H. rewrite fmap_cons in Hid.
    apply not_elem_of_cons in Hid as [Hne Hid].
    destruct (IH _ _ H Hid) as [-> ->].
    eapply reconcileTrain_other; eassumption.
Qed.

End Stores.

Section Cleanup.

Variable currentIds : gset string.

Implicit Types (st : Store) (ids : list string).

Lemma cleanupStep_lookup st id0 id :
  (trainAnimations (cleanupStep currentIds st id0) !! id
   = if decide (id0 = id /\ id0 ∉ currentIds) then None
     else trainAnimations st !! id)
  /\ (currentPositions (cleanupStep currentIds st id0) !! id
      = if decide (id0 = id /\ id0 ∉ currentIds) then None
        else currentPositions st !! id).
Proof.
  unfold cleanupStep. destruct (decide (id0 ∈ currentIds)) as [Hin | Hout].
  - rewrite !decide_False by tauto. done.
  - simpl. destruct (decide (id0 = id)) as [-> | Hne].
    + rewrite !decide_True by done. rewrite !lookup_delete_eq. done.
    + rewrite !decide_False by tauto. rewrite !lookup_delete_ne by done. done.
Qed.

(** The clean-up only ever removes entries. *)
Lemma cleanup_fold_shrinks ids : forall st id,
  (trainAnimations (foldl (cleanupStep currentIds) st ids) !! id = None
   \/ trainAnimations (foldl (cleanupStep currentIds) st ids) !! id
      = trainAnimations st !! id)
  /\ (currentPositions (foldl (cleanupStep currentIds) st ids) !! id = None
      \/ currentPositions (foldl (cleanupStep currentIds) st ids) !! id
         = currentPositions st !! id).
Proof.
  induction ids as [| id0 rest IH]; intros st id; simpl; [tauto |].
  destruct (IH (cleanupStep currentIds st id0) id) as [Ha Hp].
  destruct (cleanupStep_lookup st id0 id) as [Ea Ep].
  rewrite Ea in Ha. rewrite Ep in Hp.
  destruct (decide (id0 = id /\ id0 ∉ currentIds)); tauto.
Qed.

(** An id the callback is run for, and that is not current, loses both of
    its entries. *)
Lemma cleanup_fold_removed ids : forall st id,
  id ∈ ids -> id ∉ currentIds ->
  trainAnimations (foldl (cleanupStep currentIds) st ids) !! id = None
  /\ currentPositions (foldl (cleanupStep currentIds) st ids) !! id = None.
Proof.
  induction ids as [| id0 rest IH]; intros st id Hin Hout; simpl.
  - apply elem_of_nil in Hin. done.
  - destruct (decide (id0 = id)) as [-> | Hne].
    + destruct (cleanup_fold_shrinks rest (cleanupStep currentIds st id) id)
        as [Ha Hp].
      destruct (cleanupStep_lookup st id id) as [Ea Ep].
      rewrite decide_True in Ea by done. rewrite decide_True in Ep by done.
      rewrite Ea in Ha. rewrite Ep in Hp. tauto.
    + apply elem_of_cons in Hin as [-> | Hin]; [done |]. apply IH; done.
Qed.

(** Every other id keeps both of its entries. *)
Lemma cleanup_fold_kept ids : forall st id,
  id ∉ ids \/ id ∈ currentIds ->
  trainAnimations (foldl (cleanupStep currentIds) st ids) !! id
  = trainAnimations st !! id
  /\ currentPositions (foldl (cleanupStep currentIds) st ids) !! id
     = currentPositions st !! id.
Proof.
  induction ids as [| id0 rest IH]; intros st id Hkeep; simpl; [done |].
  destruct (IH (cleanupStep currentIds st id0) id) as [-> ->].
  { destruct Hkeep as [Hout | Hin]; [left | right; done].
    apply not_elem_of_cons in Hout. tauto. }
  destruct (cleanupStep_lookup st id0 id) as [-> ->].
  assert (Hno : ~ (id0 = id /\ id0 ∉ currentIds)).
  { intros [-> Hno]. destruct Hkeep as [Hout | Hin]; [| done].
    apply Hout, elem_of_cons. left. done. }
  rewrite !decide_False by exact Hno. done.
Qed.

End Cleanup.

Section CleanupBatch.

Variable trains : list Train.
Implicit Types (st : Store) (id : string).

(** After the clean-up the animation store holds the records of the ids of
    the batch only. *)
Lemma cleanup_animations st id :
  trainAnimations (cleanup trains st) !! id
  = if decide (id ∈ t_id <$> trains) then trainAnimations st !! id else None.
Proof.
  unfold cleanup. destruct (decide (id ∈ t_id <$> trains)) as [Hin | Hout].
  - apply cleanup_fold_kept. right. apply elem_of_list_to_set. exact Hin.
  - destruct (trainAnimations st !! id) as [anim |] eqn:Hanim.
    + apply cleanup_fold_removed.
      * apply elem_of_elements, elem_of_dom. rewrite Hanim. done.
      * rewrite elem_of_list_to_set. exact Hout.
    + rewrite <- Hanim. apply cleanup_fold_kept. left.
      rewrite elem_of_elements, elem_of_dom, Hanim. apply is_Some_None.
Qed.

(** The position cache keeps the entry of every id of the batch, and of
    every id that had no animation record. *)
Lemma cleanup_positions_kept st id :
  id ∈ t_id <$> trains \/ trainAnimations st !! id = None ->
  currentPositions (cleanup trains st) !! id = currentPositions st !! id.
Proof.
  intros Hkeep. unfold cleanup. apply cleanup_fold_kept.
  destruct Hkeep as [Hin | Hnone].
  - right. apply elem_of_list_to_set. exact Hin.
  - left. rewrite elem_of_elements, elem_of_dom, Hnone. apply is_Some_None.
Qed.

(** It loses the entry of an id outside the batch that had an animation
    record. *)
Lemma cleanup_positions_removed st id :
  id ∉ t_id <$> trains -> is_Some (trainAnimations st !! id) ->
  currentPositions (cleanup trains st) !! id = None.
Proof.
  intros Hout Hanim. unfold cleanup. apply cleanup_fold_removed.
  - apply elem_of_elements, elem_of_dom. exact Hanim.
  - rewrite elem_of_list_to_set. exact Hout.
Qed.

Lemma cleanup_invariant st :
  (validStore st -> validStore (cleanup trains st))
  /\ (withinSnap st -> withinSnap (cleanup trains st)).
Proof.
  split; intros H id anim; rewrite cleanup_animations;
    destruct (decide _); try done; apply H.
Qed.

End CleanupBatch.

(** ** The animation frame *)

Section Frame.

Implicit Types (st : Store) (train : Train) (p : list Coord).

(** On a segment of the path the bearing is that of its two vertices, with
    a half turn for ['S']. *)
Lemma tangentBearing_segment p idx direction a b :
  p !! idx = Some a -> p !! (idx + 1)%nat = Some b ->
  tangentBearing p idx direction
  = Some (if decide (direction = Some DirS)
          then calculateBearing a b + 180 else calculateBearing a b).
Proof.
  intros Ha Hb. unfold tangentBearing.
  rewrite decide_True by (apply lookup_lt_Some in Hb; lia).
  rewrite Ha, Hb. simpl. destruct (decide (direction = Some DirS)); done.
Qed.

Lemma tangentBearing_nearest coords p direction :
  (2 <= length p)%nat ->
  is_Some (tangentBearing p (np_index (nearestPointOnLine coords p)) direction).
Proof.
  intros Hlen.
  destruct (nearestPointOnLine_on_segment coords p Hlen) as (a & b & Ha & Hb & _).
  rewrite (tangentBearing_segment _ _ _ a b Ha Hb). done.
Qed.

Lemma fallbackBearing_total coords direction (paths : list (list Coord)) :
  is_Some (fallbackBearing coords direction paths).
Proof.
  induction paths as [| p rest IH]; cbn [fallbackBearing]; [done |].
  destruct (decide (length p < 2)%nat) as [| Hlong]; [exact IH |].
  destruct (decide _); [| exact IH].
  destruct (tangentBearing_nearest coords p direction) as [bearing ->]; [lia |].
  done.
Qed.

(** The bearing part of the callback never throws. *)
Lemma frameBearing_total (routePaths : RoutePaths) st train coords :
  is_Some (frameBearing routePaths st train coords).
Proof.
  unfold frameBearing.
  assert (Hfb : is_Some
    match getDirectionFromStopId (t_currentStopId train) with
    | Some _ =>
        match routePaths !! t_routeId train with
        | Some paths =>
            fallbackBearing coords
              (getDirectionFromStopId (t_currentStopId train)) paths
        | None => Some None
        end
    | None => Some None
    end).
  { destruct (getDirectionFromStopId _); [| done].
    destruct (routePaths !! _); [apply fallbackBearing_total | done]. }
  destruct (_ ≫= pathInfo) as [pi |]; [| exact Hfb].
  destruct (decide (2 <= length (path pi))%nat) as [Hlen |]; [| exact Hfb].
  destruct (tangentBearing_nearest coords (path pi)
              (getDirectionFromStopId (t_currentStopId train)) Hlen)
    as [bearing ->].
  done.
Qed.

(** The three outcomes of the position part of the callback. *)
Lemma frameCoords_cases now st train coords st' :
  frameCoords now st train = Some (coords, st') ->
  (trainAnimations st !! t_id train = None
   /\ coords = default (t_longitude train, t_latitude train)
                       (currentPositions st !! t_id train)
   /\ st' = mkStore (trainAnimations st)
                    (<[t_id train := coords]> (currentPositions st)))
  \/ (exists anim,
        trainAnimations st !! t_id train = Some anim
        /\ interpolatedPosition now anim = Some coords
        /\ ((progressAt now anim >= 1
             /\ st' = mkStore (delete (t_id train) (trainAnimations st))
                              (<[t_id train := endPos anim]> (currentPositions st)))
            \/ (progressAt now anim < 1 /\ st' = st))).
Proof.
  unfold frameCoords.
  destruct (trainAnimations st !! t_id train) as [anim |].
  - destruct (interpolatedPosition now anim) as [c |] eqn:Hc; [| done]. simpl.
    intros H. right. exists anim. split; [done |].
    destruct (decide (progressAt now anim >= 1)) as [Hdone | Hlive];
      simplify_eq; (split; [done |]); [left | right]; (split; [| done]); lra.
  - intros [= <- <-]. left. done.
Qed.

Lemma frameCoords_total now st train :
  validStore st -> is_Some (frameCoords now st train).
Proof.
  intros Hvalid. unfold frameCoords.
  destruct (trainAnimations st !! t_id train) as [anim |] eqn:Hanim; [| done].
  destruct (interpolatedPosition_total now anim) as [c ->].
  { intros pi Hpi. eapply Hvalid; eassumption. }
  simpl. destruct (decide _); done.
Qed.

(** A frame removes animation records, and writes none. *)
Lemma frameCoords_animations now st train coords st' id :
  frameCoords now st train = Some (coords, st') ->
  trainAnimations st' !! id = None
  \/ trainAnimations st' !! id = trainAnimations st !! id.
Proof.
  intros H.
  destruct (frameCoords_cases _ _ _ _ _ H)
    as [(_ & _ & ->) | (anim & _ & _ & [[_ ->] | [_ ->]])]; simpl; [tauto | | tauto].
  destruct (decide (id = t_id train)) as [-> | Hne].
  - left. apply lookup_delete_eq.
  - right. apply lookup_delete_ne. done.
Qed.

Lemma animateTrain_total routePaths now st train :
  validStore st -> is_Some (animateTrain routePaths now st train).
Proof.
  intros Hvalid. unfold animateTrain.
  destruct (frameCoords_total now st train Hvalid) as [[coords st'] ->]. simpl.
  destruct (frameBearing_total routePaths st' train coords) as [bearing ->].
  done.
Qed.

(** What the callback returns: the store left by the position part, and a
    feature with these coordinates, the train's own id, route and status,
    and the bearing turned by 90 degrees. *)
Lemma animateTrain_inv routePaths now st train st' f :
  animateTrain routePaths now st train = Some (st', f) ->
  exists bearing,
    frameCoords now st train = Some (f_coordinates f, st')
    /\ frameBearing routePaths st' train (f_coordinates f) = Some bearing
    /\ f = mkFeature (f_coordinates f) (t_id train) (t_routeId train)
                     (t_status train) ((λ b, b - 90) <$> bearing)
                     (getDirectionFromStopId (t_currentStopId train)).
Proof.
  unfold animateTrain.
  destruct (frameCoords now st train) as [[coords st1] |]; [| done]. simpl.
  destruct (frameBearing routePaths st1 train coords) as [bearing |] eqn:Hb;
    [| done].
  simpl. intros [= <- <-]. exists bearing. simpl. done.
Qed.

Lemma animateTrain_invariant routePaths now st train st' f :
  animateTrain routePaths now st train = Some (st', f) ->
  (validStore st -> validStore st') /\ (withinSnap st -> withinSnap st').
Proof.
  intros H. apply animateTrain_inv in H as (bearing & Hc & _ & _).
  split.
  - intros Hinv id anim pi Hanim Hpi.
    destruct (frameCoords_animations _ _ _ _ _ id Hc) as [Hn | He];
      [congruence |].
    rewrite He in Hanim. eapply Hinv; eassumption.
  - intros Hinv id anim Hanim.
    destruct (frameCoords_animations _ _ _ _ _ id Hc) as [Hn | He];
      [congruence |].
    rewrite He in Hanim. eapply Hinv; eassumption.
Qed.

Lemma animate_total routePaths now trains : forall st,
  validStore st -> is_Some (animate routePaths now st trains).
Proof.
  induction trains as [| train rest IH]; intros st Hvalid; simpl; [done |].
  destruct (animateTrain_total routePaths now st train Hvalid) as [[st1 f] H1].
  rewrite H1. simpl.
  destruct (IH st1) as [[st2 fs] ->]; [| done].
  eapply animateTrain_invariant; eassumption.
Qed.

Lemma animate_invariant routePaths now trains : forall st st' features,
  animate routePaths now st trains = Some (st', features) ->
  (validStore st -> validStore st') /\ (withinSnap st -> withinSnap st').
Proof.
  induction trains as [| train rest IH]; intros st st' features H; simpl in H.
  - by simplify_eq.
  - destruct (animateTrain routePaths now st train) as [[st1 f] |] eqn:H1; [| done].
    simpl in H.
    destruct (animate routePaths now st1 rest) as [[st2 fs] |] eqn:H2; [| done].
    simpl in H. simplify_eq.
    destruct (IH _ _ _ H2) as [Hv Hs].
    destruct (animateTrain_invariant _ _ _ _ _ _ H1) as [Hv1 Hs1]. tauto.
Qed.

(** The features of a frame are those of the trains shown, in order. *)
Lemma animate_ids routePaths now trains : forall st st' features,
  animate routePaths now st trains = Some (st', features) ->
  f_id <$> features = t_id <$> trains.
Proof.
  induction trains as [| train rest IH]; intros st st' features H; simpl in H.
  - by simplify_eq.
  - destruct (animateTrain routePaths now st train) as [[st1 f] |] eqn:H1; [| done].
    simpl in H.
    destruct (animate routePaths now st1 rest) as [[st2 fs] |] eqn:H2; [| done].
    simpl in H. simplify_eq.
    rewrite !fmap_cons. f_equal; [| eapply IH; eassumption].
    apply animateTrain_inv in H1 as (bearing & _ & _ & ->). done.
Qed.

End Frame.

(** ** Reachable stores *)

Lemma reconcile_invariant (routePaths : RoutePaths) now st trains st' :
  reconcile routePaths now st trains = Some st' ->
  (validStore st -> validStore st') /\ (withinSnap st -> withinSnap st').
Proof.
  unfold reconcile.
  destruct (reconcileTrains routePaths now st trains) as [st1 |] eqn:H1; [| done].
  simpl. intros [= <-].
  destruct (reconcileTrains_invariant _ _ _ _ _ H1) as [Hv Hs].
  destruct (cleanup_invariant trains st1) as [Hv1 Hs1]. tauto.
Qed.

Lemma reconcile_total (routePaths : RoutePaths) now st trains :
  validStore st -> is_Some (reconcile routePaths now st trains).
Proof.
  intros Hvalid. unfold reconcile.
  destruct (reconcileTrains_total routePaths now trains st Hvalid) as [st1 ->].
  done.
Qed.

(** In every reachable store all path records are valid and no animation
    record spans more than the snap threshold. *)
Lemma reachable_invariant st :
  reachable st -> validStore st /\ withinSnap st.
Proof.
  induction 1 as [| routePaths now st trains st' _ [IHv IHs] Hstep
                  | routePaths now st trains st' features _ [IHv IHs] Hstep].
  - split; intros id anim; simpl; rewrite lookup_empty; done.
  - destruct (reconcile_invariant _ _ _ _ _ Hstep). tauto.
  - destruct (animate_invariant _ _ _ _ _ _ Hstep). tauto.
Qed.

(** From a reachable store neither the reconciliation effect nor a frame
    throws, whatever the batch, the clock and the route paths. *)
Lemma reachable_no_throw st (routePaths : RoutePaths) now trains :
  reachable st ->
  is_Some (reconcile routePaths now st trains)
  /\ is_Some (animate routePaths now st trains).
Proof.
  intros Hreach. destruct (reachable_invariant st Hreach) as [Hvalid _].
  split; [apply reconcile_total | apply animate_total]; exact Hvalid.
Qed.

(** ** Reconciliation of one snapshot *)

Section Reconciliation.

Variable routePaths : RoutePaths.
Implicit Types (st : Store) (train : Train) (anim : TrainAnimation).

(** A target within 0.00001 of the displayed position leaves the store as
    it is, whether the callback returns early or falls through both
    distance tests. *)
Lemma reconcileTrain_still now st train displayed :
  startPosition now st train = Some displayed ->
  distance displayed (t_longitude train, t_latitude train) <= 0.00001 ->
  reconcileTrain routePaths now st train = Some st.
Proof.
  intros Hstart Hnear. unfold reconcileTrain.
  destruct (unchangedPosition _ _); [done |].
  rewrite Hstart. simpl.
  rewrite decide_False by lra. rewrite decide_False by lra. done.
Qed.

Lemma startPosition_animation now st train anim :
  trainAnimations st !! t_id train = Some anim ->
  startPosition now st train = interpolatedPosition now anim.
Proof. intros Hanim. unfold startPosition. rewrite Hanim. done. Qed.

(** Through a whole batch: the record of an id stays the same record when
    every snapshot of the batch for that id is within 0.00001 of the
    displayed position. *)
Lemma reconcileTrains_still now id anim displayed trains : forall st st',
  trainAnimations st !! id = Some anim ->
  interpolatedPosition now anim = Some displayed ->
  (forall train, train ∈ trains -> t_id train = id ->
     distance displayed (t_longitude train, t_latitude train) <= 0.00001) ->
  reconcileTrains routePaths now st trains = Some st' ->
  trainAnimations st' !! id = Some anim.
Proof.
  induction trains as [| train rest IH]; intros st st' Hanim Hpos Hnear H;
    simpl in H.
  - by simplify_eq.
  - destruct (reconcileTrain routePaths now st train) as [st1 |] eqn:H1; [| done].
    simpl in H. apply (IH st1 st'); [| exact Hpos | | exact H].
    + destruct (decide (t_id train = id)) as [Heq | Hne].
      * rewrite (reconcileTrain_still now st train displayed) in H1.
        -- by simplify_eq.
        -- rewrite (startPosition_animation now st train anim); [done |].
           rewrite Heq. exact Hanim.
        -- apply Hnear; [apply elem_of_cons; by left | exact Heq].
      * destruct (reconcileTrain_other routePaths now st train st1 id H1) as [-> _];
          done.
    + intros train' Hin. apply Hnear. apply elem_of_cons. by right.
Qed.


(** A frame for a train without animation record shows the cache entry. *)
Lemma animateTrain_static now st train pos :
  trainAnimations st !! t_id train = None ->
  currentPositions st !! t_id train = Some pos ->
  exists st' f,
    animateTrain routePaths now st train = Some (st', f)
    /\ f_coordinates f = pos.
Proof.
  intros Hanim Hpos.
  assert (Hc : frameCoords now st train
               = Some (pos, mkStore (trainAnimations st)
                                    (<[t_id train := pos]> (currentPositions st)))).
  { unfold frameCoords. rewrite Hanim, Hpos. done. }
  destruct (frameBearing_total routePaths
              (mkStore (trainAnimations st)
                       (<[t_id train := pos]> (currentPositions st))) train pos)
    as [bearing Hb].
  eexists _, _. unfold animateTrain. rewrite Hc. simpl. rewrite Hb. simpl.
  split; [reflexivity | done].
Qed.

End Reconciliation.


Lemma easeOutCubic_0 : easeOutCubic 0 = 0.
Proof. unfold easeOutCubic. simpl. ring. Qed.

Lemma easeOutCubic_1 : easeOutCubic 1 = 1.
Proof. unfold easeOutCubic. simpl. ring. Qed.

Lemma progressAt_done now anim :
  startTime anim + ANIMATION_DURATION <= now -> progressAt now anim = 1.
Proof.
  unfold progressAt, ANIMATION_DURATION. intros H. apply Rmin_right.
  apply (Rmult_le_reg_r 4000); [lra |].
  replace ((now - startTime anim) / 4000 * 4000) with (now - startTime anim)
    by (field; lra).
  lra.
Qed.

Lemma progressAt_live now anim :
  now < startTime anim + ANIMATION_DURATION -> progressAt now anim < 1.
Proof.
  unfold progressAt, ANIMATION_DURATION. intros H.
  apply Rle_lt_trans with ((now - startTime anim) / 4000); [apply Rmin_l |].
  apply (Rmult_lt_reg_r 4000); [lra |].
  replace ((now - startTime anim) / 4000 * 4000) with (now - startTime anim)
    by (field; lra).
  lra.
Qed.

(** A finished straight-line animation is displayed at its end position. *)
Lemma interpolatedPosition_straight_done now anim :
  pathInfo anim = None ->
  startTime anim + ANIMATION_DURATION <= now ->
  interpolatedPosition now anim = Some (endPos anim).
Proof.
  intros Hpath Hdone. unfold interpolatedPosition.
  rewrite Hpath, (progressAt_done now anim Hdone), easeOutCubic_1.
  destruct (endPos anim) as [ex ey]. simpl. do 2 f_equal; ring.
Qed.

(** C2. For an entity with an animation record, a snapshot whose position
    is within 0.00001 of the displayed position (the record sampled at the
    current time) changes nothing: the callback for that snapshot leaves both
    stores as they are, and after the whole reconciliation of a batch in which
    this is the entity's snapshot the animation store still holds the same
    record for the entity. *)
Theorem reconcile_epsilon_noop (routePaths : RoutePaths) (now : R) (st : Store)
    (train : Train) (anim : TrainAnimation) (displayed : Coord) :
  trainAnimations st !! t_id train = Some anim ->
  interpolatedPosition now anim = Some displayed ->
  distance displayed (t_longitude train, t_latitude train) <= 0.00001 ->
  reconcileTrain routePaths now st train = Some st
  /\ forall trains st',
       train ∈ trains ->
       (forall train', train' ∈ trains -> t_id train' = t_id train -> train' = train) ->
       reconcile routePaths now st trains = Some st' ->
       trainAnimations st' !! t_id train = Some anim.
Proof.
  intros Hanim Hpos Hnear. split.
  - apply (reconcileTrain_still routePaths now st train displayed); [| exact Hnear].
    rewrite (startPosition_animation now st train anim Hanim). exact Hpos.
  - intros trains st' Hin Huniq. unfold reconcile.
    destruct (reconcileTrains routePaths now st trains) as [st1 |] eqn:H1; [| done].
    simpl. intros [= <-]. rewrite cleanup_animations.
    rewrite decide_True by (apply list_elem_of_fmap; eauto).
    apply (reconcileTrains_still routePaths now _ anim displayed trains st st1);
      try done.
    intros train' Hin' Hid. rewrite (Huniq train' Hin' Hid). exact Hnear.
Qed.

(** An instance: the finished straight-line animation of "X" to (0.01,0),
    and a snapshot of "X" at (0.01,0) again. *)
Lemma reconcile_epsilon_noop_witness :
  let st := mkStore {["X" := straightAnim]} {["X" := (0, 0)]} in
  reconcileTrain ∅ 8000 st (trainX 0.01 0) = Some st
  /\ forall trains st',
       trainX 0.01 0 ∈ trains ->
       (forall train', train' ∈ trains -> t_id train' = "X" ->
          train' = trainX 0.01 0) ->
       reconcile ∅ 8000 st trains = Some st' ->
       trainAnimations st' !! "X" = Some straightAnim.
Proof.
  apply (reconcile_epsilon_noop ∅ 8000
           (mkStore {["X" := straightAnim]} {["X" := (0, 0)]})
           (trainX 0.01 0) straightAnim (0.01, 0)).
  - apply lookup_singleton_eq.
  - apply (interpolatedPosition_straight_done 8000 straightAnim).
    + reflexivity.
    + unfold straightAnim, ANIMATION_DURATION. simpl. lra.
  - simpl. rewrite distance_self. lra.
Defined.

(** ** Entities absent from a batch *)

Section Absent.

Variable routePaths : RoutePaths.
Implicit Types (st : Store) (id : string).

(** After a reconciliation no id outside the batch has an animation
    record. *)
Lemma reconcile_absent_animation now st trains st' id :
  reconcile routePaths now st trains = Some st' ->
  id ∉ t_id <$> trains ->
  trainAnimations st' !! id = None.
Proof.
  unfold reconcile.
  destruct (reconcileTrains routePaths now st trains) as [st1 |]; [| done].
  simpl. intros [= <-] Hout. rewrite cleanup_animations.
  rewrite decide_False by exact Hout. done.
Qed.

(** A frame has no feature for an id outside the trains shown. *)
Lemma animate_absent now st trains st' features id :
  animate routePaths now st trains = Some (st', features) ->
  id ∉ t_id <$> trains ->
  id ∉ f_id <$> features.
Proof. intros H Hout. rewrite (animate_ids _ _ _ _ _ _ H). exact Hout. Qed.

(** An id outside the batch that had an animation record loses its cache
    entry. *)
Lemma reconcile_absent_cache_removed now st trains st' id :
  reconcile routePaths now st trains = Some st' ->
  id ∉ t_id <$> trains ->
  is_Some (trainAnimations st !! id) ->
  currentPositions st' !! id = None.
Proof.
  unfold reconcile.
  destruct (reconcileTrains routePaths now st trains) as [st1 |] eqn:H1; [| done].
  simpl. intros [= <-] Hout Hanim.
  apply cleanup_positions_removed; [exact Hout |].
  destruct (reconcileTrains_other _ _ _ _ _ _ H1 Hout) as [-> _]. exact Hanim.
Qed.

(** An id outside the batch that had no animation record keeps its cache
    entry: the clean-up callback is never run for it. *)
Lemma reconcile_absent_cache_kept now st trains st' id :
  reconcile routePaths now st trains = Some st' ->
  id ∉ t_id <$> trains ->
  trainAnimations st !! id = None ->
  currentPositions st' !! id = currentPositions st !! id.
Proof.
  unfold reconcile.
  destruct (reconcileTrains routePaths now st trains) as [st1 |] eqn:H1; [| done].
  simpl. intros [= <-] Hout Hanim.
  destruct (reconcileTrains_other _ _ _ _ _ _ H1 Hout) as [Ha Hp].
  rewrite cleanup_positions_kept by (right; congruence). exact Hp.
Qed.

(** The first sighting of a train changes neither store. *)
Lemma reconcile_first_sighting now lon lat :
  reconcile routePaths now (mkStore ∅ ∅) [trainX lon lat] = Some (mkStore ∅ ∅).
Proof.
  unfold reconcile, reconcileTrains, reconcileTrain, startPosition. simpl.
  rewrite !lookup_empty. simpl. rewrite distance_self.
  rewrite decide_False by lra. rewrite decide_False by lra. simpl.
  unfold cleanup. simpl. rewrite dom_empty_L, elements_empty. done.
Qed.

(** The frame after it enters the reported position in the cache. *)
Lemma animate_first_sighting now lon lat :
  exists features,
    animate routePaths now (mkStore ∅ ∅) [trainX lon lat]
    = Some (mkStore ∅ {["X" := (lon, lat)]}, features).
Proof.
  unfold animate, animateTrain, frameCoords, frameBearing. simpl.
  rewrite !lookup_empty. simpl. eexists. reflexivity.
Qed.

Lemma idle_cache_reachable lon lat :
  reachable (mkStore ∅ {["X" := (lon, lat)]}).
Proof.
  destruct (animate_first_sighting 0 lon lat) as [features Hframe].
  eapply reachable_animate; [| exact Hframe].
  eapply reachable_reconcile; [apply reachable_init |].
  apply (reconcile_first_sighting 0 lon lat).
Qed.

End Absent.



(** C8, evaluated where it fails.  The stores that hold the cache entry of
    "X" and no animation record are reachable (first sighting of "X", then a
    frame); reconciled with the empty batch they stay as they are, so "X",
    absent from the batch, still has its cache entry. *)
Theorem stale_cache_entry :
  let st := mkStore ∅ {["X" := (0, 0)]} in
  reachable st
  /\ forall (routePaths : RoutePaths) now,
       reconcile routePaths now st [] = Some st
       /\ ("X" ∉ t_id <$> @nil Train)
       /\ currentPositions st !! "X" = Some (0, 0).
Proof.
  cbv zeta. split; [apply (idle_cache_reachable ∅) |].
  intros routePaths time. split; [| split].
  - unfold reconcile, cleanup. simpl. rewrite dom_empty_L, elements_empty. done.
  - apply not_elem_of_nil.
  - apply lookup_singleton_eq.
Qed.

(** ** A path-based animation, end to end *)

(** Two vertices of the only polyline of a route resolve to that polyline. *)
Lemma findPathBetweenPoints_on_track (routePaths : RoutePaths) rid p start end_ :
  routePaths !! rid = Some [p] -> (2 <= length p)%nat ->
  start ∈ p -> end_ ∈ p ->
  exists pi, findPathBetweenPoints routePaths rid start end_ = Some pi
             /\ path pi = p.
Proof.
  intros Hrid Hlen Hs He. unfold findPathBetweenPoints. rewrite Hrid.
  rewrite decide_False by (simpl; lia).
  destruct (bestOf_cases start end_ [p])
    as [[_ Hshort] | (k & q & Hq & _ & -> & _)].
  { specialize (Hshort 0%nat p eq_refl). lia. }
  assert (q = p) as ->.
  { destruct k as [| k']; simpl in Hq; [congruence | discriminate Hq]. }
  cbn [candidate bestStartInfo bestEndInfo bestPath pi_dist pi_index pi_t].
  pose proof (nearestPointOnLine_vertex start p start Hlen Hs) as H1.
  pose proof (nearestPointOnLine_vertex end_ p end_ Hlen He) as H2.
  rewrite distance_self in H1, H2.
  rewrite !bool_decide_eq_true_2 by lra.
  eexists. split; [reflexivity | done].
Qed.

Lemma distance_trackL_step : distance (0, 0) (0.01, 0) = 0.01.
Proof.
  unfold distance. simpl.
  replace ((0 - 0.01) * (0 - 0.01) + (0 - 0) * (0 - 0)) with (0.01 * 0.01) by lra.
  apply sqrt_square. lra.
Qed.

(** "X" is first seen at (0,0), shown by a frame, and then reported at
    (0.01,0): the stores then hold an animation of "X" along the track. *)
Lemma path_animation_reachable :
  exists pi,
    path pi = trackL
    /\ reachable (mkStore
                    {["X" := mkTrainAnimation (0, 0) (0.01, 0) 5000 "L" (Some pi)]}
                    {["X" := (0, 0)]}).
Proof.
  destruct (findPathBetweenPoints_on_track routesL "L" trackL (0, 0) (0.01, 0))
    as (pi & Hpi & Hpath).
  { apply lookup_singleton_eq. }
  { simpl. lia. }
  { unfold trackL. apply elem_of_cons. by left. }
  { unfold trackL. apply elem_of_cons. right. apply elem_of_cons. by left. }
  exists pi. split; [exact Hpath |].
  eapply (reachable_reconcile routesL 5000 _ [trainX 0.01 0]);
    [apply (idle_cache_reachable ∅ 0 0) |].
  unfold reconcile, reconcileTrains, reconcileTrain, startPosition,
    unchangedPosition.
  cbn [trainX t_id t_longitude t_latitude t_routeId trainAnimations
       currentPositions fst snd].
  rewrite lookup_singleton_eq, lookup_empty.
  rewrite bool_decide_eq_false_2.
  2:{ cbn [fst]. unfold Rabs. destruct (Rcase_abs _); lra. }
  cbn [andb mbind option_bind].
  rewrite distance_trackL_step.
  rewrite decide_False by lra. rewrite decide_True by lra.
  rewrite Hpi. cbn [mbind option_bind]. reflexivity.
Qed.

(** C9. On a polyline of at least two points [nearestPointOnLine] succeeds:
    it returns a segment of the polyline and the point at a parameter in
    [0,1] on it.  Both candidate loops skip a polyline of fewer than two
    points, a resolved path has at least two points, and so has the path of
    every animation record of a reachable store, on which [pointAlongLine]
    never throws. *)
Theorem degenerate_polylines_guarded :
  (forall point line, (2 <= length line)%nat ->
     let r := nearestPointOnLine point line in
     exists a b,
       line !! np_index r = Some a /\ line !! (np_index r + 1)%nat = Some b
       /\ 0 <= np_t r <= 1 /\ np_point r = lerp a b (np_t r))
  /\ (forall start end_ best p, (length p < 2)%nat ->
        pathStep start end_ best p = best)
  /\ (forall coords direction p rest, (length p < 2)%nat ->
        fallbackBearing coords direction (p :: rest)
        = fallbackBearing coords direction rest)
  /\ (forall (routePaths : RoutePaths) rid start end_ r,
        findPathBetweenPoints routePaths rid start end_ = Some r ->
        (2 <= length (path r))%nat)
  /\ (forall st id anim pi,
        reachable st ->
        trainAnimations st !! id = Some anim -> pathInfo anim = Some pi ->
        (2 <= length (path pi))%nat
        /\ forall progress,
             is_Some (pointAlongLine (path pi) (startIndex pi) (startT pi)
                                     (endIndex pi) (endT pi) progress)).
Proof.
  split; [| split; [| split; [| split]]].
  - intros point line Hlen r.
    destruct (nearestPointOnLine_spec point line Hlen)
      as (j & a & b & Ha & Hb & Hr & _).
    exists a, b. subst r. rewrite Hr. simpl.
    replace (j + 1)%nat with (S j) by lia.
    split; [exact Ha |]. split; [exact Hb |].
    split; [apply segmentT_range | apply segmentProj_lerp].
  - intros start end_ best p Hshort. unfold pathStep.
    rewrite decide_True by exact Hshort. done.
  - intros coords direction p rest Hshort. cbn [fallbackBearing].
    rewrite decide_True by exact Hshort. done.
  - intros routePaths rid start end_ r Hr.
    apply findPathBetweenPoints_valid in Hr as [Hlen _]. exact Hlen.
  - intros st id anim pi Hreach Hanim Hpi.
    destruct (reachable_invariant st Hreach) as [Hvalid _].
    pose proof (Hvalid id anim pi Hanim Hpi) as Hv.
    split; [destruct Hv; lia |].
    intros progress. apply pointAlongLine_valid, Hv.
Qed.

(** An instance: the animation of "X" along the track of route "L". *)
Lemma degenerate_polylines_guarded_witness :
  exists st anim pi,
    reachable st
    /\ trainAnimations st !! "X" = Some anim /\ pathInfo anim = Some pi
    /\ path pi = trackL
    /\ (2 <= length (path pi))%nat
    /\ forall progress,
         is_Some (pointAlongLine (path pi) (startIndex pi) (startT pi)
                                 (endIndex pi) (endT pi) progress).
Proof.
  destruct path_animation_reachable as (pi & Hpath & Hreach).
  destruct degenerate_polylines_guarded as (_ & _ & _ & _ & Hstore).
  eexists _, _, pi. split; [exact Hreach |].
  split; [apply lookup_singleton_eq |]. split; [reflexivity |].
  split; [exact Hpath |].
  eapply (Hstore _ "X" _ pi Hreach); [apply lookup_singleton_eq | reflexivity].
Defined.

(** ** Bearing *)

Lemma tan_shift (x : R) : cos x <> 0 -> tan (x + PI) = tan x.
Proof.
  intros Hc. unfold tan. rewrite neg_sin, neg_cos. field. exact Hc.
Qed.

(** [atan2] gives back the angle of a point given in polar form, the angle
    being counted from the axis of the second argument towards the axis of
    the first. *)
Lemma atan2_polar (r theta : R) :
  0 < r -> - PI < theta <= PI ->
  atan2 (r * sin theta) (r * cos theta) = theta.
Proof.
  intros Hr [Hlo Hhi]. pose proof PI_RGT_0 as Hpi. unfold atan2.
  destruct (Rtotal_order theta (PI / 2)) as [Hlt | [Heq | Hgt]].
  - destruct (Rtotal_order theta (- (PI / 2))) as [Hlt' | [Heq' | Hgt']].
    + (* third quadrant *)
      assert (Hc : cos theta < 0).
      { rewrite <- cos_neg. apply cos_lt_0; lra. }
      assert (Hs : sin theta < 0) by (apply sin_lt_0_var; lra).
      rewrite decide_False by nra. rewrite decide_True by nra.
      rewrite decide_False by nra.
      replace (r * sin theta / (r * cos theta)) with (tan theta)
        by (unfold tan; field; lra).
      rewrite <- tan_shift by lra. rewrite atan_tan by lra. ring.
    + (* due west *)
      subst theta. rewrite cos_neg, sin_neg, cos_PI2, sin_PI2.
      rewrite decide_False by lra. rewrite decide_False by lra.
      rewrite decide_False by lra. rewrite decide_True by lra. done.
    + (* first and fourth quadrants *)
      assert (Hc : 0 < cos theta) by (apply cos_gt_0; lra).
      rewrite decide_True by nra.
      replace (r * sin theta / (r * cos theta)) with (tan theta)
        by (unfold tan; field; lra).
      apply atan_tan. lra.
  - (* due east *)
    subst theta. rewrite cos_PI2, sin_PI2.
    rewrite decide_False by lra. rewrite decide_False by lra.
    rewrite decide_True by lra. done.
  - (* second quadrant *)
    assert (Hc : cos theta < 0) by (apply cos_lt_0; lra).
    assert (Hs : 0 <= sin theta) by (apply sin_ge_0; lra).
    rewrite decide_False by nra. rewrite decide_True by nra.
    rewrite decide_True by nra.
    replace (r * sin theta / (r * cos theta)) with (tan theta)
      by (unfold tan; field; lra).
    assert (Hc' : cos (theta - PI) <> 0).
    { intros H0. replace theta with (theta - PI + PI) in Hc by ring.
      rewrite neg_cos in Hc. lra. }
    replace (tan theta) with (tan (theta - PI)).
    2:{ rewrite <- (tan_shift (theta - PI)) by exact Hc'. f_equal. ring. }
    rewrite atan_tan by lra. ring.
Qed.

(** The bearing of a point [r] away in the compass direction [theta]
    (radians, clockwise from north) is [theta] in degrees. *)
Lemma calculateBearing_compass (from : Coord) (r theta : R) :
  0 < r -> - PI < theta <= PI ->
  calculateBearing from (from.1 + r * sin theta, from.2 + r * cos theta)
  = theta * (180 / PI).
Proof.
  intros Hr Htheta. unfold calculateBearing. simpl.
  replace (from.1 + r * sin theta - from.1) with (r * sin theta) by ring.
  replace (from.2 + r * cos theta - from.2) with (r * cos theta) by ring.
  rewrite atan2_polar by done. done.
Qed.

(** North is 0, east 90, south 180 and west -90 degrees. *)
Lemma calculateBearing_cardinal (from : Coord) (r : R) :
  0 < r ->
  calculateBearing from (from.1, from.2 + r) = 0
  /\ calculateBearing from (from.1 + r, from.2) = 90
  /\ calculateBearing from (from.1, from.2 - r) = 180
  /\ calculateBearing from (from.1 - r, from.2) = -90.
Proof.
  intros Hr. pose proof PI_RGT_0 as Hpi.
  split; [| split; [| split]].
  - replace (from.1, from.2 + r)
      with (from.1 + r * sin 0, from.2 + r * cos 0)
      by (rewrite sin_0, cos_0; f_equal; ring).
    rewrite calculateBearing_compass by lra. field. lra.
  - replace (from.1 + r, from.2)
      with (from.1 + r * sin (PI / 2), from.2 + r * cos (PI / 2))
      by (rewrite sin_PI2, cos_PI2; f_equal; ring).
    rewrite calculateBearing_compass by lra. field. lra.
  - replace (from.1, from.2 - r)
      with (from.1 + r * sin PI, from.2 + r * cos PI)
      by (rewrite sin_PI, cos_PI; f_equal; ring).
    rewrite calculateBearing_compass by lra. field. lra.
  - replace (from.1 - r, from.2)
      with (from.1 + r * sin (- (PI / 2)), from.2 + r * cos (- (PI / 2)))
      by (rewrite sin_neg, cos_neg, sin_PI2, cos_PI2; f_equal; ring).
    rewrite calculateBearing_compass by lra. field. lra.
Qed.

(** The direction hint is ['S'] exactly for a stop id that ends in "S". *)
Lemma getDirectionFromStopId_S (stopId : option string) :
  getDirectionFromStopId stopId = Some DirS
  <-> exists s, stopId = Some s /\ lastChar s = Some "S"%char.
Proof.
  unfold getDirectionFromStopId. split.
  - destruct stopId as [s |]; [| done].
    destruct (lastChar s) as [c |] eqn:Hlast; [| done].
    destruct (decide (c = "N"%char)); [done |].
    destruct (decide (c = "S"%char)) as [-> |]; [| done].
    intros _. exists s. done.
  - intros (s & -> & ->).
    rewrite decide_False by discriminate. rewrite decide_True by reflexivity.
    reflexivity.
Qed.

(** In a frame, a train whose animation record has a valid path and is not
    yet finished is shown at the interpolated position, and its bearing is
    that of the two vertices of the segment onto which this position
    projects, plus a half turn for the hint ['S']; the feature carries it
    turned by 90 degrees for the glyph. *)
Lemma animateTrain_path_bearing (routePaths : RoutePaths) now st train anim pi :
  trainAnimations st !! t_id train = Some anim ->
  pathInfo anim = Some pi -> validPathInfo pi ->
  progressAt now anim < 1 ->
  exists coords a b bearing f,
    interpolatedPosition now anim = Some coords
    /\ path pi !! np_index (nearestPointOnLine coords (path pi)) = Some a
    /\ path pi !! (np_index (nearestPointOnLine coords (path pi)) + 1)%nat = Some b
    /\ bearing
       = (if decide (getDirectionFromStopId (t_currentStopId train) = Some DirS)
          then calculateBearing a b + 180 else calculateBearing a b)
    /\ frameBearing routePaths st train coords = Some (Some bearing)
    /\ animateTrain routePaths now st train = Some (st, f)
    /\ f_coordinates f = coords
    /\ f_bearing f = Some (bearing - 90).
Proof.
  intros Hanim Hpi Hvalid Hlive.
  assert (Hlen : (2 <= length (path pi))%nat) by (destruct Hvalid; lia).
  destruct (interpolatedPosition_total now anim) as [coords Hcoords].
  { intros pi' Hpi'. congruence. }
  destruct (nearestPointOnLine_on_segment coords (path pi) Hlen)
    as (a & b & Ha & Hb & _).
  assert (Hc : frameCoords now st train = Some (coords, st)).
  { unfold frameCoords. rewrite Hanim, Hcoords. simpl.
    rewrite decide_False by lra. done. }
  assert (Hbearing : frameBearing routePaths st train coords
    = Some (Some (if decide (getDirectionFromStopId (t_currentStopId train)
                             = Some DirS)
                  then calculateBearing a b + 180 else calculateBearing a b))).
  { unfold frameBearing. rewrite Hanim. simpl. rewrite Hpi.
    rewrite decide_True by exact Hlen.
    rewrite (tangentBearing_segment _ _ _ a b Ha Hb). done. }
  eexists coords, a, b, _, _.
  split; [exact Hcoords |]. split; [exact Ha |]. split; [exact Hb |].
  split; [reflexivity |]. split; [exact Hbearing |].
  unfold animateTrain. rewrite Hc. simpl. rewrite Hbearing. simpl.
  split; [reflexivity |]. done.
Qed.

(** C6. [calculateBearing] is [atan2] of the longitude and latitude
    differences, in degrees: the bearing of a point in the compass direction
    [theta], counted clockwise from north, is [theta] in degrees.  In a frame,
    a live animation with a path gives the bearing of the two vertices of the
    segment onto which the interpolated position projects, with a half turn
    when the stop id ends in "S"; the feature carries this bearing less 90
    degrees. *)
Theorem bearing_convention :
  (forall from to,
     calculateBearing from to
     = atan2 (to.1 - from.1) (to.2 - from.2) * (180 / PI))
  /\ (forall from r theta, 0 < r -> - PI < theta <= PI ->
        calculateBearing from (from.1 + r * sin theta, from.2 + r * cos theta)
        = theta * (180 / PI))
  /\ (forall stopId,
        getDirectionFromStopId stopId = Some DirS
        <-> exists s, stopId = Some s /\ lastChar s = Some "S"%char)
  /\ (forall (routePaths : RoutePaths) now st train anim pi,
        reachable st ->
        trainAnimations st !! t_id train = Some anim ->
        pathInfo anim = Some pi ->
        progressAt now anim < 1 ->
        exists coords a b bearing f,
          interpolatedPosition now anim = Some coords
          /\ path pi !! np_index (nearestPointOnLine coords (path pi)) = Some a
          /\ path pi !! (np_index (nearestPointOnLine coords (path pi)) + 1)%nat
             = Some b
          /\ bearing
             = (if decide (getDirectionFromStopId (t_currentStopId train)
                           = Some DirS)
                then calculateBearing a b + 180 else calculateBearing a b)
          /\ frameBearing routePaths st train coords = Some (Some bearing)
          /\ animateTrain routePaths now st train = Some (st, f)
          /\ f_coordinates f = coords
          /\ f_bearing f = Some (bearing - 90)).
Proof.
  split; [done |]. split; [exact calculateBearing_compass |].
  split; [exact getDirectionFromStopId_S |].
  intros routePaths now st train anim pi Hreach Hanim Hpi Hlive.
  destruct (reachable_invariant st Hreach) as [Hvalid _].
  apply (animateTrain_path_bearing routePaths now st train anim pi);
    try done.
  eapply Hvalid; eassumption.
Qed.

(** An instance: "X" animated along the eastward track of route "L", one
    second into its animation, with a southbound stop id: the bearing is 90
    plus 180 degrees. *)
Lemma bearing_convention_witness :
  exists st anim pi,
    reachable st
    /\ trainAnimations st !! "X" = Some anim /\ pathInfo anim = Some pi
    /\ exists coords a b bearing f,
         interpolatedPosition 6000 anim = Some coords
         /\ path pi !! np_index (nearestPointOnLine coords (path pi)) = Some a
         /\ path pi !! (np_index (nearestPointOnLine coords (path pi)) + 1)%nat
            = Some b
         /\ bearing = 270
         /\ frameBearing routesL st trainSouth coords = Some (Some bearing)
         /\ animateTrain routesL 6000 st trainSouth = Some (st, f)
         /\ f_coordinates f = coords
         /\ f_bearing f = Some (bearing - 90).
Proof.
  destruct path_animation_reachable as (pi & Hpath & Hreach).
  destruct bearing_convention as (_ & _ & _ & Hframe).
  eexists _, _, pi. split; [exact Hreach |].
  split; [apply lookup_singleton_eq |]. split; [reflexivity |].
  destruct (Hframe routesL 6000 _ trainSouth
              (mkTrainAnimation (0, 0) (0.01, 0) 5000 "L" (Some pi)) pi Hreach)
    as (coords & a & b & bearing & f & Hc & Ha & Hb & Hbearing & Hrest).
  { apply lookup_singleton_eq. }
  { reflexivity. }
  { apply progressAt_live. unfold ANIMATION_DURATION. simpl. lra. }
  exists coords, a, b, bearing, f.
  split; [exact Hc |]. split; [exact Ha |]. split; [exact Hb |].
  split; [| exact Hrest].
  rewrite Hbearing. rewrite decide_True by reflexivity.
  cut (calculateBearing a b = 90); [lra |].
  rewrite Hpath in Ha, Hb.
  pose proof (lookup_lt_Some _ _ _ Hb) as Hlt.
  change (length trackL) with 3%nat in Hlt.
  destruct (np_index (nearestPointOnLine coords trackL)) as [| [| k]];
    simpl in Ha, Hb; [| | lia].
  - injection Ha as <-. injection Hb as <-.
    replace (0.01, 0) with ((0, 0).1 + 0.01, (0, 0).2)
      by (simpl; f_equal; lra).
    apply calculateBearing_cardinal. lra.
  - injection Ha as <-. injection Hb as <-.
    replace (0.02, 0) with ((0.01, 0).1 + 0.01, (0.01, 0).2)
      by (simpl; f_equal; lra).
    apply calculateBearing_cardinal. lra.
Defined.

(** "X" is first seen at the northern end of [trackS], shown by a frame,
    and then reported one vertex further south: the stores then hold an
    animation of "X" along the track. *)
Lemma southward_animation_reachable :
  exists pi,
    path pi = trackS
    /\ reachable (mkStore
                    {["X" := mkTrainAnimation (0, 0.02) (0, 0.01) 5000 "L" (Some pi)]}
                    {["X" := (0, 0.02)]}).
Proof.
  destruct (findPathBetweenPoints_on_track routesS "L" trackS (0, 0.02) (0, 0.01))
    as (pi & Hpi & Hpath).
  { apply lookup_singleton_eq. }
  { simpl. lia. }
  { unfold trackS. apply elem_of_cons. by left. }
  { unfold trackS. apply elem_of_cons. right. apply elem_of_cons. by left. }
  exists pi. split; [exact Hpath |].
  eapply (reachable_reconcile routesS 5000 _ [trainSouthbound]);
    [apply (idle_cache_reachable ∅ 0 0.02) |].
  unfold reconcile, reconcileTrains, reconcileTrain, startPosition,
    unchangedPosition.
  cbn [trainSouthbound t_id t_longitude t_latitude t_routeId trainAnimations
       currentPositions fst snd].
  rewrite lookup_singleton_eq, lookup_empty.
  rewrite (bool_decide_eq_false_2 (Rabs (0.02 - 0.01) < 0.000001)).
  2:{ unfold Rabs. destruct (Rcase_abs _); lra. }
  rewrite andb_false_r.
  cbn [mbind option_bind].
  rewrite distance_vertical.
  replace (Rabs (0.02 - 0.01)) with 0.01
    by (unfold Rabs; destruct (Rcase_abs _); lra).
  rewrite decide_False by lra. rewrite decide_True by lra.
  rewrite Hpi. cbn [mbind option_bind]. reflexivity.
Qed.

(** The half turn does not go by the order of the vertices.  "X" runs south
    along [trackS], whose vertices run south as well, so that its southbound
    hint is not opposite to the order of the vertices; one second into the
    animation the bearing of the segment is 180 degrees and the frame turns
    it by a further 180 all the same. *)
Lemma bearing_reversal_counterexample :
  exists st anim pi coords a b f,
    reachable st
    /\ trainAnimations st !! "X" = Some anim /\ pathInfo anim = Some pi
    /\ progressAt 6000 anim < 1
    /\ interpolatedPosition 6000 anim = Some coords
    /\ path pi !! np_index (nearestPointOnLine coords (path pi)) = Some a
    /\ path pi !! (np_index (nearestPointOnLine coords (path pi)) + 1)%nat
       = Some b
    /\ ~ hintOpposes (getDirectionFromStopId (t_currentStopId trainSouthbound))
                     a b
    /\ calculateBearing a b = 180
    /\ animateTrain routesS 6000 st trainSouthbound = Some (st, f)
    /\ f_bearing f = Some (calculateBearing a b + 180 - 90)
    /\ f_bearing f <> Some (calculateBearing a b - 90).
Proof.
  destruct southward_animation_reachable as (pi & Hpath & Hreach).
  set (anim := mkTrainAnimation (0, 0.02) (0, 0.01) 5000 "L" (Some pi)) in *.
  set (st := mkStore {["X" := anim]} {["X" := (0, 0.02)]}) in *.
  assert (Hanim : trainAnimations st !! t_id trainSouthbound = Some anim)
    by apply lookup_singleton_eq.
  assert (Hlive : progressAt 6000 anim < 1).
  { apply progressAt_live. unfold ANIMATION_DURATION. simpl. lra. }
  destruct (reachable_invariant st Hreach) as [Hvalid _].
  destruct (animateTrain_path_bearing routesS 6000 st trainSouthbound anim pi
              Hanim eq_refl (Hvalid _ _ _ Hanim eq_refl) Hlive)
    as (coords & a & b & bearing & f & Hc & Ha & Hb & Hbearing & _ & Hf & _ & Hfb).
  assert (Hab : a.2 = b.2 + 0.01 /\ calculateBearing a b = 180).
  { rewrite Hpath in Ha, Hb.
    pose proof (lookup_lt_Some _ _ _ Hb) as Hlt.
    change (length trackS) with 3%nat in Hlt.
    destruct (np_index (nearestPointOnLine coords trackS)) as [| [| k]];
      simpl in Ha, Hb; [| | lia].
    - injection Ha as <-. injection Hb as <-. split; [simpl; lra |].
      replace (0, 0.01) with ((0, 0.02).1, (0, 0.02).2 - 0.01)
        by (simpl; f_equal; lra).
      apply calculateBearing_cardinal. lra.
    - injection Ha as <-. injection Hb as <-. split; [simpl; lra |].
      replace (0, 0) with ((0, 0.01).1, (0, 0.01).2 - 0.01)
        by (simpl; f_equal; lra).
      apply calculateBearing_cardinal. lra. }
  destruct Hab as [Hsouth H180].
  rewrite decide_True in Hbearing by reflexivity.
  exists st, anim, pi, coords, a, b, f.
  split; [exact Hreach |]. split; [exact Hanim |]. split; [reflexivity |].
  split; [exact Hlive |]. split; [exact Hc |]. split; [exact Ha |].
  split; [exact Hb |].
  split; [cbn [trainSouthbound t_currentStopId]; simpl; lra |].
  split; [exact H180 |]. split; [exact Hf |].
  rewrite Hfb, Hbearing, H180.
  split; [reflexivity |]. intros [= H]. lra.
Qed.

(** * Further properties *)

(** ** Easing and distance *)

Lemma cube_monotone (x y : R) : x <= y -> x ^ 3 <= y ^ 3.
Proof.
  intros H. simpl.
  cut (0 <= (y - x) * (x * x + x * y + y * y)); [nra |].
  apply Rmult_le_pos; [lra |]. nra.
Qed.

(** X1. The easing curve fixes 0 and 1, never decreases, keeps [0,1] inside
    [0,1] and is ahead of the linear progress there. *)
Theorem easeOutCubic_shape (p q : R) :
  0 <= p -> p <= q -> q <= 1 ->
  easeOutCubic 0 = 0 /\ easeOutCubic 1 = 1
  /\ 0 <= easeOutCubic p /\ easeOutCubic p <= easeOutCubic q
  /\ easeOutCubic q <= 1
  /\ p <= easeOutCubic p.
Proof.
  intros H0 Hpq H1.
  assert (Hmono : forall x y, x <= y -> easeOutCubic x <= easeOutCubic y).
  { intros x y Hxy. unfold easeOutCubic.
    pose proof (cube_monotone (1 - y) (1 - x)). lra. }
  split; [apply easeOutCubic_0 |]. split; [apply easeOutCubic_1 |].
  split; [rewrite <- easeOutCubic_0; apply Hmono; lra |].
  split; [apply Hmono; lra |].
  split; [rewrite <- easeOutCubic_1; apply Hmono; lra |].
  unfold easeOutCubic. simpl.
  cut (0 <= (1 - p) * (p * (2 - p))); [nra |].
  apply Rmult_le_pos; [lra |]. apply Rmult_le_pos; lra.
Qed.

Lemma easeOutCubic_shape_witness :
  easeOutCubic 0 = 0 /\ easeOutCubic 1 = 1
  /\ 0 <= easeOutCubic (1/2) /\ easeOutCubic (1/2) <= easeOutCubic (9/10)
  /\ easeOutCubic (9/10) <= 1
  /\ 1/2 <= easeOutCubic (1/2).
Proof. apply (easeOutCubic_shape (1/2) (9/10)); lra. Defined.

(** X2. The easing decelerates: of two steps of progress of the same size, the
    later one moves less. *)
Theorem easeOutCubic_decelerates (p h : R) :
  0 <= p -> 0 < h -> p + 2 * h <= 1 ->
  easeOutCubic (p + 2 * h) - easeOutCubic (p + h)
  < easeOutCubic (p + h) - easeOutCubic p.
Proof.
  intros Hp Hh H1. unfold easeOutCubic. simpl.
  cut (0 < 6 * (h * h) * (1 - p - h)); [nra |].
  apply Rmult_lt_0_compat; nra.
Qed.

Lemma easeOutCubic_decelerates_witness :
  easeOutCubic (1/10 + 2 * (4/10)) - easeOutCubic (1/10 + 4/10)
  < easeOutCubic (1/10 + 4/10) - easeOutCubic (1/10).
Proof. apply (easeOutCubic_decelerates (1/10) (4/10)); lra. Defined.

(** X3. [distance] is a metric on coordinates. *)
Theorem distance_metric (a b c : Coord) :
  0 <= distance a b
  /\ (distance a b = 0 <-> a = b)
  /\ distance a b = distance b a
  /\ distance a c <= distance a b + distance b c.
Proof.
  split; [apply distance_nonneg |]. split; [| split; [apply distance_sym |]].
  - split; [apply distance_zero_eq | intros ->; apply distance_self].
  - pose proof (distance_nonneg a b) as Hab.
    pose proof (distance_nonneg b c) as Hbc.
    unfold distance in *. simpl in *.
    set (u1 := a.1 - b.1) in *. set (u2 := a.2 - b.2) in *.
    set (v1 := b.1 - c.1) in *. set (v2 := b.2 - c.2) in *.
    replace (a.1 - c.1) with (u1 + v1) by (unfold u1, v1; ring).
    replace (a.2 - c.2) with (u2 + v2) by (unfold u2, v2; ring).
    set (U := sqrt (u1 * u1 + u2 * u2)) in *.
    set (V := sqrt (v1 * v1 + v2 * v2)) in *.
    assert (HU : U * U = u1 * u1 + u2 * u2)
      by (apply sqrt_sqrt, sum_squares_nonneg).
    assert (HV : V * V = v1 * v1 + v2 * v2)
      by (apply sqrt_sqrt, sum_squares_nonneg).
    pose proof (sqrt_cauchy u1 u2 v1 v2) as Hcs. unfold Rsqr in Hcs.
    fold U V in Hcs.
    replace (U + V) with (sqrt ((U + V) * (U + V))) by (apply sqrt_square; lra).
    apply sqrt_le_1_alt. nra.
Qed.

(** ** More on the projection *)

(** No point of the polyline is nearer than the projection. *)
Lemma nearestPointOnLine_le_on (point : Coord) (line : list Coord) (q : Coord) :
  (2 <= length line)%nat -> onPolyline line q ->
  distance point (np_point (nearestPointOnLine point line)) <= distance point q.
Proof.
  intros Hlen (j & a & b & s & Ha & Hb & Hs & ->).
  apply (nearestPointOnLine_closest point line j a b s); try done.
  rewrite <- Hb. f_equal. lia.
Qed.

(** A point of the polyline is its own projection. *)
Lemma nearestPointOnLine_fixes (point : Coord) (line : list Coord) :
  (2 <= length line)%nat -> onPolyline line point ->
  np_point (nearestPointOnLine point line) = point.
Proof.
  intros Hlen Hon. symmetry. apply distance_zero_eq.
  pose proof (nearestPointOnLine_le_on point line point Hlen Hon) as Hle.
  rewrite distance_self in Hle.
  pose proof (distance_nonneg point (np_point (nearestPointOnLine point line))).
  lra.
Qed.

(** X4. No point of the polyline is nearer to the query point than the
    projection, which is itself a point of the polyline; and a query point
    that lies on the polyline is its own projection. *)
Theorem nearestPointOnLine_nearest (point : Coord) (line : list Coord) :
  (2 <= length line)%nat ->
  onPolyline line (np_point (nearestPointOnLine point line))
  /\ (forall q, onPolyline line q ->
        distance point (np_point (nearestPointOnLine point line))
        <= distance point q)
  /\ (onPolyline line point ->
        np_point (nearestPointOnLine point line) = point).
Proof.
  intros Hlen. split; [| split].
  - destruct (nearestPointOnLine_spec point line Hlen)
      as (j & a & b & Ha & Hb & Hr & _).
    rewrite Hr. simpl. exists j, a, b, (segmentT point a b).
    split; [exact Ha |]. split; [rewrite <- Hb; f_equal; lia |].
    split; [apply segmentT_range | apply segmentProj_lerp].
  - intros q Hq. apply nearestPointOnLine_le_on; done.
  - apply nearestPointOnLine_fixes, Hlen.
Qed.

Lemma nearestPointOnLine_nearest_witness :
  let line : list Coord := [(0, 0); (2, 0); (2, 2)] in
  onPolyline line (np_point (nearestPointOnLine (1, 1) line))
  /\ (forall q, onPolyline line q ->
        distance (1, 1) (np_point (nearestPointOnLine (1, 1) line))
        <= distance (1, 1) q)
  /\ (onPolyline line (1, 1) ->
        np_point (nearestPointOnLine (1, 1) line) = (1, 1)).
Proof.
  apply (nearestPointOnLine_nearest (1, 1) [(0, 0); (2, 0); (2, 2)]).
  simpl. lia.
Defined.

(** X5. Among segments at the same least distance the one of lowest index is
    returned: every segment before the returned one is strictly farther. *)
Theorem nearestPointOnLine_first (point : Coord) (line : list Coord)
    (j : nat) (a b : Coord) :
  (2 <= length line)%nat ->
  (j < np_index (nearestPointOnLine point line))%nat ->
  line !! j = Some a -> line !! S j = Some b ->
  distance point (np_point (nearestPointOnLine point line))
  < distance point (segmentProj point a b).
Proof.
  intros Hlen Hj Ha Hb.
  destruct (nearestPointOnLine_spec point line Hlen)
    as (k & a0 & b0 & _ & _ & Hr & _ & Hfirst).
  rewrite Hr in Hj |- *. simpl in Hj |- *. apply (Hfirst j a b Hj Ha Hb).
Qed.

Lemma nearestPointOnLine_first_witness :
  let line : list Coord := [(0, 0); (2, 0); (2, 2)] in
  distance (3, 1) (np_point (nearestPointOnLine (3, 1) line))
  < distance (3, 1) (segmentProj (3, 1) (0, 0) (2, 0)).
Proof.
  assert (Hlen : (2 <= length [(0, 0); (2, 0); (2, 2)])%nat) by (simpl; lia).
  apply (nearestPointOnLine_first (3, 1) [(0, 0); (2, 0); (2, 2)] 0 (0, 0) (2, 0));
    [exact Hlen | | reflexivity | reflexivity].
  (* the second segment is at distance 1, the first at more than 1 *)
  destruct (nearestPointOnLine_spec (3, 1) [(0, 0); (2, 0); (2, 2)] Hlen)
    as (k & a0 & b0 & Ha0 & Hb0 & Hr & Hmin & _).
  rewrite Hr. simpl.
  destruct k as [| k]; [| lia].
  exfalso. simpl in Ha0, Hb0. injection Ha0 as <-. injection Hb0 as <-.
  pose proof (Hmin 1%nat (2, 0) (2, 2) eq_refl eq_refl) as Hle.
  unfold segmentDist in Hle.
  assert (T0 : segmentT (3, 1) (0, 0) (2, 0) = 1).
  { unfold segmentT. cbn [fst snd]. eval_tests.
    replace (((3 - 0) * (2 - 0) + (1 - 0) * (0 - 0))
             / ((2 - 0) * (2 - 0) + (0 - 0) * (0 - 0))) with (3 / 2) by field.
    eval_tests. reflexivity. }
  assert (T1 : segmentT (3, 1) (2, 0) (2, 2) = 1 / 2).
  { unfold segmentT. cbn [fst snd]. eval_tests.
    replace (((3 - 2) * (2 - 2) + (1 - 0) * (2 - 0))
             / ((2 - 2) * (2 - 2) + (2 - 0) * (2 - 0))) with (1 / 2) by field.
    eval_tests. reflexivity. }
  assert (P0 : segmentProj (3, 1) (0, 0) (2, 0) = (2, 0)).
  { unfold segmentProj. rewrite T0. cbn [fst snd]. f_equal; lra. }
  assert (P1 : segmentProj (3, 1) (2, 0) (2, 2) = (2, 1)).
  { unfold segmentProj. rewrite T1. cbn [fst snd]. f_equal; lra. }
  rewrite P0, P1, distance_horizontal in Hle.
  replace (Rabs (3 - 2)) with 1 in Hle by (rewrite Rabs_pos_eq; lra).
  assert (Hfar : 1 < distance (3, 1) (2, 0)).
  { unfold distance. cbn [fst snd].
    replace 1 with (sqrt (1 * 1)) at 1 by (apply sqrt_square; lra).
    apply sqrt_lt_1_alt. lra. }
  lra.
Defined.

(** ** More on the interpolation *)

(** A point of a piece of a segment of the polyline is on the polyline. *)
Lemma subSegment_onPolyline (line : list Coord) (seg : Segment) (s : R) :
  subSegment line seg -> 0 <= s <= 1 ->
  onPolyline line (lerp (seg_start seg) (seg_end seg) s).
Proof.
  intros (j & a & b & s1 & s2 & Ha & Hb & H1 & H2 & -> & ->) Hs.
  exists j, a, b, (s1 + s * (s2 - s1)).
  split; [exact Ha |]. split; [exact Hb |].
  split; [apply between_range; done | apply lerp_lerp].
Qed.

Section WalkOnPolyline.

Variable line : list Coord.

Lemma forwardSegment_sub i seg :
  forwardSegment line i = Some seg -> subSegment line seg.
Proof.
  unfold forwardSegment.
  destruct (line !! i) as [a |] eqn:Ha; [| done].
  destruct (line !! (i + 1)%nat) as [b |] eqn:Hb; [| done].
  simpl. intros [= <-]. exists i, a, b, 0, 1. simpl.
  rewrite lerp_0, lerp_1. repeat split; try done; lra.
Qed.

Lemma backwardSegment_sub i seg :
  backwardSegment line i = Some seg -> subSegment line seg.
Proof.
  unfold backwardSegment.
  destruct (line !! (i + 1)%nat) as [b |] eqn:Hb; [| done].
  destruct (line !! i) as [a |] eqn:Ha; [| done].
  simpl. intros [= <-]. exists i, a, b, 1, 0. simpl.
  rewrite lerp_0, lerp_1. repeat split; try done; lra.
Qed.

Lemma mapM_sub (f : nat -> option Segment) (l : list nat) (mids : list Segment) :
  (forall i seg, f i = Some seg -> subSegment line seg) ->
  mapM f l = Some mids -> Forall (subSegment line) mids.
Proof.
  intros Hf Hm. apply mapM_Some in Hm.
  induction Hm as [| i seg l' mids' Hi _ IH]; constructor; eauto.
Qed.

(** Every segment of the walk is a piece of a segment of the polyline,
    when both parameters are in [0,1]. *)
Lemma buildSegments_sub startIndex startT endIndex endT a b segments :
  line !! startIndex = Some a -> line !! (startIndex + 1)%nat = Some b ->
  0 <= startT <= 1 -> 0 <= endT <= 1 ->
  buildSegments line startIndex (lerp a b startT) endIndex endT = Some segments ->
  Forall (subSegment line) segments.
Proof.
  intros Ha Hb Hst Het. unfold buildSegments.
  destruct (decide (startIndex < endIndex)%nat) as [Hfwd | Hbwd].
  - rewrite Hb. simpl.
    destruct (mapM (forwardSegment line) _) as [mids |] eqn:Hm; [| done].
    simpl.
    destruct (line !! endIndex) as [c |] eqn:Hc; [| done].
    destruct (line !! (endIndex + 1)%nat) as [d |] eqn:Hd; [| done].
    simpl. intros [= <-]. constructor; [| apply Forall_app; split].
    + exists startIndex, a, b, startT, 1. simpl. rewrite lerp_1.
      repeat split; try done; lra.
    + eapply mapM_sub; [apply forwardSegment_sub | exact Hm].
    + constructor; [| constructor].
      exists endIndex, c, d, 0, endT. simpl. rewrite lerp_0.
      repeat split; try done; lra.
  - rewrite Ha. simpl.
    destruct (mapM (backwardSegment line) _) as [mids |] eqn:Hm; [| done].
    simpl.
    destruct (line !! endIndex) as [c |] eqn:Hc; [| done].
    destruct (line !! (endIndex + 1)%nat) as [d |] eqn:Hd; [| done].
    simpl. intros [= <-]. constructor; [| apply Forall_app; split].
    + exists startIndex, a, b, startT, 0. simpl. rewrite lerp_0.
      repeat split; try done; lra.
    + eapply mapM_sub; [apply backwardSegment_sub | exact Hm].
    + constructor; [| constructor].
      exists endIndex, c, d, 1, endT. simpl. rewrite lerp_1.
      repeat split; try done; lra.
Qed.

End WalkOnPolyline.

Lemma pointAlongLine_stays (line : list Coord) (startIndex endIndex : nat)
    (startT endT progress : R) :
  (startIndex + 1 < length line)%nat -> (endIndex + 1 < length line)%nat ->
  0 <= startT <= 1 -> 0 <= endT <= 1 -> 0 <= progress <= 1 ->
  exists q,
    pointAlongLine line startIndex startT endIndex endT progress = Some q
    /\ onPolyline line q.
Proof.
  intros Hsi Hei Hst Het Hp.
  destruct (lookup_lt_is_Some_2 line startIndex) as [a Ha]; [lia |].
  destruct (lookup_lt_is_Some_2 line (startIndex + 1)) as [b Hb]; [lia |].
  destruct (lookup_lt_is_Some_2 line endIndex) as [c Hc]; [lia |].
  destruct (lookup_lt_is_Some_2 line (endIndex + 1)) as [d Hd]; [lia |].
  destruct (pointAlongLine_path_distance line startIndex endIndex startT endT
              a b c d Ha Hb Hc Hd) as (total & _ & Hlin).
  destruct (Hlin progress Hp) as (q & Hq & _ & a' & b' & Ha' & Hb' & Hon).
  exists q. split; [exact Hq |].
  assert (a' = a) as -> by congruence. assert (b' = b) as -> by congruence.
  cbv zeta in Hon.
  destruct (decide (startIndex = endIndex)) as [Heq | Hne].
  - destruct Hon as (c' & e' & s & Hc' & He' & Hs & -> & _).
    assert (c' = a) as -> by (rewrite <- Heq in Hc'; congruence).
    assert (e' = b) as -> by (rewrite <- Heq in He'; congruence).
    rewrite lerp_lerp. exists startIndex, a, b, (startT + s * (endT - startT)).
    split; [exact Ha |]. split; [exact Hb |].
    split; [apply between_range; done | done].
  - destruct Hon as (segments & before & seg & after & s & Hbuild & -> & Hs & -> & _).
    apply subSegment_onPolyline; [| exact Hs].
    pose proof (buildSegments_sub line startIndex startT endIndex endT a b _
                  Ha Hb Hst Het Hbuild) as Hall.
    apply Forall_app in Hall as [_ Hall]. apply Forall_cons in Hall as [Hseg _].
    exact Hseg.
Qed.

(** X6. Between two projections onto a polyline of at least two points, the
    point returned for a progress in [0,1] is a point of the polyline. *)
Theorem pointAlongLine_on_polyline (line : list Coord) (A B : Coord)
    (progress : R) :
  (2 <= length line)%nat -> 0 <= progress <= 1 ->
  let pa := nearestPointOnLine A line in
  let pb := nearestPointOnLine B line in
  exists q,
    pointAlongLine line (np_index pa) (np_t pa) (np_index pb) (np_t pb) progress
    = Some q
    /\ onPolyline line q.
Proof.
  intros Hlen Hp pa pb.
  destruct (nearestPointOnLine_spec A line Hlen) as (j & a & b & _ & Hb & Ha & _).
  destruct (nearestPointOnLine_spec B line Hlen) as (k & c & d & _ & Hd & Hc & _).
  subst pa pb. rewrite Ha, Hc. simpl.
  apply lookup_lt_Some in Hb, Hd.
  apply pointAlongLine_stays; try lia; try done; apply segmentT_range.
Qed.

Lemma pointAlongLine_on_polyline_witness :
  let line : list Coord := [(0, 0); (2, 0); (2, 2)] in
  let pa := nearestPointOnLine (1, -1) line in
  let pb := nearestPointOnLine (3, 1) line in
  exists q,
    pointAlongLine line (np_index pa) (np_t pa) (np_index pb) (np_t pb) (1/3)
    = Some q
    /\ onPolyline line q.
Proof.
  apply (pointAlongLine_on_polyline [(0, 0); (2, 0); (2, 2)] (1, -1) (3, 1) (1/3)).
  - simpl. lia.
  - lra.
Defined.

(** X7. [pointAlongLine] throws exactly when one of the two indices does not
    name a segment of the polyline. *)
Theorem pointAlongLine_throws (line : list Coord) (startIndex endIndex : nat)
    (startT endT progress : R) :
  pointAlongLine line startIndex startT endIndex endT progress = None
  <-> ~ ((startIndex + 1 < length line)%nat /\ (endIndex + 1 < length line)%nat).
Proof.
  split.
  - intros Hnone [Hsi Hei].
    destruct (lookup_lt_is_Some_2 line startIndex) as [a Ha]; [lia |].
    destruct (lookup_lt_is_Some_2 line (startIndex + 1)) as [b Hb]; [lia |].
    destruct (lookup_lt_is_Some_2 line endIndex) as [c Hc]; [lia |].
    destruct (lookup_lt_is_Some_2 line (endIndex + 1)) as [d Hd]; [lia |].
    destruct (pointAlongLine_total line startIndex endIndex startT endT
                a b c d Ha Hb Hc Hd progress) as [q Hq].
    congruence.
  - intros Hbad.
    destruct (pointAlongLine line startIndex startT endIndex endT progress)
      as [q |] eqn:Hq; [| done].
    exfalso. apply Hbad. unfold pointAlongLine in Hq.
    destruct (line !! startIndex) as [a |] eqn:Ha; [| done].
    destruct (line !! (startIndex + 1)%nat) as [b |] eqn:Hb; [| done].
    simpl in Hq. apply lookup_lt_Some in Hb. split; [exact Hb |].
    destruct (decide (startIndex = endIndex)) as [<- | Hne]; [exact Hb |].
    destruct (buildSegments line startIndex (lerp a b startT) endIndex endT)
      as [segments |] eqn:Hbuild; [| done].
    unfold buildSegments in Hbuild.
    destruct (decide (startIndex < endIndex)%nat).
    + destruct (line !! (startIndex + 1)%nat); [| done]. simpl in Hbuild.
      destruct (mapM _ _); [| done]. simpl in Hbuild.
      destruct (line !! endIndex); [| done].
      destruct (line !! (endIndex + 1)%nat) eqn:Hd; [| done].
      apply lookup_lt_Some in Hd. exact Hd.
    + lia.
Qed.

(** X8. Past the end: with two different segments, a progress of 1 or more
    gives the projected end point. *)
Theorem pointAlongLine_overshoot (line : list Coord) (startIndex endIndex : nat)
    (startT endT progress : R) (c d : Coord) :
  startIndex <> endIndex ->
  (startIndex + 1 < length line)%nat ->
  line !! endIndex = Some c -> line !! (endIndex + 1)%nat = Some d ->
  1 <= progress ->
  pointAlongLine line startIndex startT endIndex endT progress
  = Some (lerp c d endT).
Proof.
  intros Hne Hsi Hc Hd Hp.
  destruct (lookup_lt_is_Some_2 line startIndex) as [a Ha]; [lia |].
  destruct (lookup_lt_is_Some_2 line (startIndex + 1)) as [b Hb]; [lia |].
  destruct (pointAlongLine_walk line startIndex endIndex startT endT a b c d
              Ha Hb Hc Hd progress Hne) as (segments & Hchain & Hnil & _ & ->).
  rewrite totalDistOf_sum.
  pose proof (chain_sumDist_nonneg _ _ _ Hchain) as Hnn.
  destruct (Rle_lt_dec (progress * sumDist segments) (sumDist segments))
    as [Hle | Hgt].
  - replace (progress * sumDist segments) with (0 + sumDist segments) by nra.
    rewrite (walkSegments_total segments _ _ 0 Hnil Hchain). done.
  - assert (Hover : forall segs x acc target,
              chain x segs (lerp c d endT) -> segs <> [] ->
              acc + sumDist segs < target ->
              walkSegments segs target acc = None
              /\ exists lastSeg, last segs = Some lastSeg
                                 /\ seg_end lastSeg = lerp c d endT).
    { induction segs as [| seg rest IH]; intros x acc target Hch Hn Hlt; [done |].
      destruct Hch as (Hs & Hdist & Hrest). rewrite sumDist_cons in Hlt.
      cbn [walkSegments].
      pose proof (chain_sumDist_nonneg _ _ _ Hrest) as Hr.
      rewrite decide_False by lra.
      destruct rest as [| seg' rest'].
      - split; [done |]. exists seg. split; [done |]. simpl in Hrest. done.
      - destruct (IH (seg_end seg) (acc + seg_dist seg) target Hrest)
          as (Hw & lastSeg & Hlast & Hend); [done | lra |].
        split; [exact Hw |]. exists lastSeg. split; [| exact Hend].
        rewrite last_cons, Hlast. done. }
    destruct (Hover segments _ 0 (progress * sumDist segments) Hchain Hnil)
      as (-> & lastSeg & -> & ->); [lra | done].
Qed.

Lemma pointAlongLine_overshoot_witness :
  pointAlongLine [(0, 0); (2, 0); (2, 2)] 0 (1/2) 1 (1/2) 3
  = Some (lerp (2, 0) (2, 2) (1/2)).
Proof.
  apply (pointAlongLine_overshoot [(0, 0); (2, 0); (2, 2)] 0 1 (1/2) (1/2) 3);
    simpl; try lia; try done; lra.
Defined.

(** ** More on the resolver *)

(** What a result of the resolver is made of. *)
Lemma findPathBetweenPoints_inv (routePaths : RoutePaths) rid start end_ r :
  findPathBetweenPoints routePaths rid start end_ = Some r ->
  exists paths,
    routePaths !! rid = Some paths /\ path r ∈ paths
    /\ (2 <= length (path r))%nat
    /\ startIndex r = np_index (nearestPointOnLine start (path r))
    /\ startT r = np_t (nearestPointOnLine start (path r))
    /\ endIndex r = np_index (nearestPointOnLine end_ (path r))
    /\ endT r = np_t (nearestPointOnLine end_ (path r))
    /\ distance start (np_point (nearestPointOnLine start (path r))) < 0.005
    /\ distance end_ (np_point (nearestPointOnLine end_ (path r))) < 0.005.
Proof.
  unfold findPathBetweenPoints.
  destruct (routePaths !! rid) as [paths |]; [| done].
  destruct (decide (length paths = 0%nat)); [done |].
  destruct (bestOf_cases start end_ paths)
    as [[-> _] | (k & p & Hp & Hlen & -> & _)]; [done |].
  simpl. intros H.
  destruct (bool_decide _) eqn:Hs in H; [| done].
  destruct (bool_decide _) eqn:He in H; [| done].
  simpl in H. simplify_eq. simpl.
  apply bool_decide_eq_true in Hs, He.
  exists paths. split; [done |].
  split; [apply list_elem_of_lookup; eauto |]. done.
Qed.

(** X9. A resolved path can be interpolated at every progress; it starts within
    0.005 of the start position and ends within 0.005 of the end position. *)
Theorem findPathBetweenPoints_interpolates (routePaths : RoutePaths) rid
    start end_ r :
  findPathBetweenPoints routePaths rid start end_ = Some r ->
  (forall progress,
     is_Some (pointAlongLine (path r) (startIndex r) (startT r)
                             (endIndex r) (endT r) progress))
  /\ exists q0 q1,
       pointAlongLine (path r) (startIndex r) (startT r) (endIndex r) (endT r) 0
       = Some q0
       /\ pointAlongLine (path r) (startIndex r) (startT r) (endIndex r) (endT r) 1
          = Some q1
       /\ distance start q0 < 0.005 /\ distance end_ q1 < 0.005.
Proof.
  intros Hr.
  pose proof (findPathBetweenPoints_valid _ _ _ _ _ Hr) as [_ Hvalid].
  destruct (findPathBetweenPoints_inv _ _ _ _ _ Hr)
    as (paths & _ & _ & Hlen & Hsi & Hst & Hei & Het & Hs & He).
  split; [intros progress; apply pointAlongLine_valid, Hvalid |].
  destruct (nearestPointOnLine_on_segment start (path r) Hlen)
    as (a & b & Ha & Hb & HpA).
  destruct (nearestPointOnLine_on_segment end_ (path r) Hlen)
    as (c & d & Hc & Hd & HpB).
  rewrite Hsi, Hst, Hei, Het.
  exists (np_point (nearestPointOnLine start (path r))),
         (np_point (nearestPointOnLine end_ (path r))).
  split; [rewrite HpA; eapply pointAlongLine_start; eassumption |].
  split; [rewrite HpB; eapply pointAlongLine_end; eassumption |].
  done.
Qed.

(** An instance: from the first to the second vertex of the track of
    [routesL]. *)
Lemma findPathBetweenPoints_interpolates_witness :
  exists r,
    findPathBetweenPoints routesL "L" (0, 0) (0.01, 0) = Some r
    /\ (forall progress,
          is_Some (pointAlongLine (path r) (startIndex r) (startT r)
                                  (endIndex r) (endT r) progress))
    /\ exists q0 q1,
         pointAlongLine (path r) (startIndex r) (startT r) (endIndex r) (endT r) 0
         = Some q0
         /\ pointAlongLine (path r) (startIndex r) (startT r) (endIndex r) (endT r) 1
            = Some q1
         /\ distance (0, 0) q0 < 0.005 /\ distance (0.01, 0) q1 < 0.005.
Proof.
  destruct (findPathBetweenPoints_on_track routesL "L" trackL (0, 0) (0.01, 0))
    as (r & Hr & _).
  - apply lookup_singleton_eq.
  - simpl. lia.
  - apply elem_of_cons. by left.
  - apply elem_of_cons. right. apply elem_of_cons. by left.
  - exists r. split; [exact Hr |].
    apply (findPathBetweenPoints_interpolates routesL "L" (0, 0) (0.01, 0) r Hr).
Defined.

(** X10. No result without a usable polyline: for a route that is not loaded, or
    whose polylines all have fewer than two points. *)
Theorem findPathBetweenPoints_none (routePaths : RoutePaths) rid start end_ :
  (forall paths p, routePaths !! rid = Some paths -> p ∈ paths ->
     (length p < 2)%nat) ->
  findPathBetweenPoints routePaths rid start end_ = None.
Proof.
  intros Hshort.
  destruct (findPathBetweenPoints routePaths rid start end_) as [r |] eqn:Hr;
    [| done].
  destruct (findPathBetweenPoints_inv _ _ _ _ _ Hr)
    as (paths & Hpaths & Hin & Hlen & _).
  specialize (Hshort paths (path r) Hpaths Hin). lia.
Qed.

Lemma findPathBetweenPoints_none_witness :
  findPathBetweenPoints {["L" := [[(0, 0)]; []]]} "L" (0, 0) (0, 0) = None.
Proof.
  apply findPathBetweenPoints_none. intros paths p Hpaths Hin.
  rewrite lookup_singleton_eq in Hpaths. injection Hpaths as <-.
  apply elem_of_cons in Hin as [-> | Hin]; [simpl; lia |].
  apply elem_of_cons in Hin as [-> | Hin]; [simpl; lia |].
  apply elem_of_nil in Hin. done.
Defined.

(** X11. Two positions that lie on one polyline of the route are resolved, and
    the resolved path then leads exactly from the one to the other. *)
Theorem findPathBetweenPoints_on_polyline (routePaths : RoutePaths) rid
    paths p start end_ :
  routePaths !! rid = Some paths -> p ∈ paths -> (2 <= length p)%nat ->
  onPolyline p start -> onPolyline p end_ ->
  exists r,
    findPathBetweenPoints routePaths rid start end_ = Some r
    /\ pointAlongLine (path r) (startIndex r) (startT r) (endIndex r) (endT r) 0
       = Some start
    /\ pointAlongLine (path r) (startIndex r) (startT r) (endIndex r) (endT r) 1
       = Some end_.
Proof.
  intros Hpaths Hin Hlen Hs He.
  apply list_elem_of_lookup in Hin as [k0 Hk0].
  assert (Hzero : pathScore start end_ p = 0).
  { unfold pathScore.
    rewrite (nearestPointOnLine_fixes start p Hlen Hs).
    rewrite (nearestPointOnLine_fixes end_ p Hlen He).
    rewrite !distance_self. ring. }
  destruct (bestOf_cases start end_ paths)
    as [[_ Hshort] | (k & q & Hq & Hlenq & Hbest & Hmin & _)].
  { specialize (Hshort k0 p Hk0). lia. }
  pose proof (Hmin k0 p Hk0 Hlen) as Hle. rewrite Hzero in Hle.
  unfold pathScore in Hle.
  pose proof (distance_nonneg start (np_point (nearestPointOnLine start q))) as H1.
  pose proof (distance_nonneg end_ (np_point (nearestPointOnLine end_ q))) as H2.
  assert (Hr : findPathBetweenPoints routePaths rid start end_
               = Some (mkPathInfo q
                         (np_index (nearestPointOnLine start q))
                         (np_t (nearestPointOnLine start q))
                         (np_index (nearestPointOnLine end_ q))
                         (np_t (nearestPointOnLine end_ q)))).
  { unfold findPathBetweenPoints. rewrite Hpaths.
    rewrite decide_False by (apply lookup_lt_Some in Hk0; lia).
    rewrite Hbest.
    cbn [candidate bestStartInfo bestEndInfo bestPath pi_dist pi_index pi_t].
    rewrite !bool_decide_eq_true_2 by lra. done. }
  eexists. split; [exact Hr |]. cbn [path startIndex startT endIndex endT].
  destruct (nearestPointOnLine_on_segment start q Hlenq) as (a & b & Ha & Hb & HpA).
  destruct (nearestPointOnLine_on_segment end_ q Hlenq) as (c & d & Hc & Hd & HpB).
  assert (Es : np_point (nearestPointOnLine start q) = start)
    by (symmetry; apply distance_zero_eq; lra).
  assert (Ee : np_point (nearestPointOnLine end_ q) = end_)
    by (symmetry; apply distance_zero_eq; lra).
  split.
  - rewrite <- Es at 3. rewrite HpA. eapply pointAlongLine_start; eassumption.
  - rewrite <- Ee at 3. rewrite HpB. eapply pointAlongLine_end; eassumption.
Qed.

Lemma findPathBetweenPoints_on_polyline_witness :
  exists r,
    findPathBetweenPoints routesL "L" (0, 0) (0.01, 0) = Some r
    /\ pointAlongLine (path r) (startIndex r) (startT r) (endIndex r) (endT r) 0
       = Some (0, 0)
    /\ pointAlongLine (path r) (startIndex r) (startT r) (endIndex r) (endT r) 1
       = Some (0.01, 0).
Proof.
  apply (findPathBetweenPoints_on_polyline routesL "L" [trackL] trackL).
  - apply lookup_singleton_eq.
  - apply elem_of_cons. by left.
  - simpl. lia.
  - exists 0%nat, (0, 0), (0.01, 0), 0.
    split; [done |]. split; [done |]. split; [lra |]. by rewrite lerp_0.
  - exists 0%nat, (0, 0), (0.01, 0), 1.
    split; [done |]. split; [done |]. split; [lra |]. by rewrite lerp_1.
Defined.

(** ** Records of reachable stores *)

Section Records.

Variable P : TrainAnimation -> Prop.
Hypothesis P_built : forall anim, builtRecord anim -> P anim.

Lemma reconcileTrain_records (routePaths : RoutePaths) now st train st' :
  reconcileTrain routePaths now st train = Some st' ->
  allRecords P st -> allRecords P st'.
Proof.
  intros H Hall.
  destruct (reconcileTrain_cases _ _ _ _ _ H)
    as [-> | [(sp & _ & _ & ->) | (sp & _ & Hd & ->)]]; [done | |].
  - intros id anim Hanim. simpl in Hanim.
    apply lookup_delete_Some in Hanim as [_ Hanim]. eapply Hall; eassumption.
  - intros id anim Hanim. simpl in Hanim.
    apply lookup_insert_Some in Hanim as [[_ <-] | [_ Hanim]].
    + apply P_built. split; [eexists; reflexivity | exact Hd].
    + eapply Hall; eassumption.
Qed.

Lemma reconcile_records (routePaths : RoutePaths) now st trains st' :
  reconcile routePaths now st trains = Some st' ->
  allRecords P st -> allRecords P st'.
Proof.
  unfold reconcile.
  destruct (reconcileTrains routePaths now st trains) as [st1 |] eqn:H1; [| done].
  simpl. intros [= <-] Hall.
  assert (Hall1 : allRecords P st1).
  { clear -H1 Hall P_built. revert st H1 Hall.
    induction trains as [| train rest IH]; intros st H1 Hall; simpl in H1.
    - by simplify_eq.
    - destruct (reconcileTrain routePaths now st train) as [st2 |] eqn:H2;
        [| done].
      simpl in H1. eapply IH; [exact H1 |].
      eapply reconcileTrain_records; eassumption. }
  intros id anim. rewrite cleanup_animations.
  destruct (decide _); [apply Hall1 | done].
Qed.

Lemma animate_records (routePaths : RoutePaths) now trains :
  forall st st' features,
    animate routePaths now st trains = Some (st', features) ->
    allRecords P st -> allRecords P st'.
Proof.
  induction trains as [| train rest IH]; intros st st' features H Hall;
    simpl in H.
  - by simplify_eq.
  - destruct (animateTrain routePaths now st train) as [[st1 f] |] eqn:H1; [| done].
    simpl in H.
    destruct (animate routePaths now st1 rest) as [[st2 fs] |] eqn:H2; [| done].
    simpl in H. simplify_eq. eapply IH; [exact H2 |].
    apply animateTrain_inv in H1 as (bearing & Hc & _ & _).
    intros id anim Hanim.
    destruct (frameCoords_animations _ _ _ _ _ id Hc) as [Hn | He];
      [congruence |].
    rewrite He in Hanim. eapply Hall; eassumption.
Qed.

(** Every record of a reachable store was built by the reconciliation
    callback. *)
Lemma reachable_records st : reachable st -> allRecords P st.
Proof.
  induction 1 as [| routePaths now st trains st' _ IH Hstep
                  | routePaths now st trains st' features _ IH Hstep].
  - intros id anim. simpl. rewrite lookup_empty. done.
  - eapply reconcile_records; eassumption.
  - eapply animate_records; eassumption.
Qed.

End Records.

Lemma progressAt_range now anim :
  startTime anim <= now -> 0 <= progressAt now anim <= 1.
Proof.
  intros H. unfold progressAt, ANIMATION_DURATION. split; [| apply Rmin_r].
  apply Rmin_glb; [| lra].
  apply Rmult_le_pos; [lra |]. left. apply Rinv_0_lt_compat. lra.
Qed.

Lemma easeOutCubic_range (p : R) : 0 <= p <= 1 -> 0 <= easeOutCubic p <= 1.
Proof.
  intros [H0 H1]. unfold easeOutCubic.
  pose proof (cube_monotone 0 (1 - p)). pose proof (cube_monotone (1 - p) 1).
  simpl in *. lra.
Qed.

(** The path fields of a built record name segments of the path, with
    parameters in [0,1]. *)
Lemma builtRecord_path anim pi :
  builtRecord anim -> pathInfo anim = Some pi ->
  validPathInfo pi /\ 0 <= startT pi <= 1 /\ 0 <= endT pi <= 1.
Proof.
  intros [[routePaths Hpath] _] Hpi. rewrite Hpi in Hpath. symmetry in Hpath.
  pose proof (findPathBetweenPoints_valid _ _ _ _ _ Hpath) as [_ Hvalid].
  destruct (findPathBetweenPoints_inv _ _ _ _ _ Hpath)
    as (paths & _ & _ & Hlen & _ & Hst & _ & Het & _).
  split; [exact Hvalid |]. rewrite Hst, Het.
  destruct (nearestPointOnLine_spec (startPos anim) (path pi) Hlen)
    as (j & a & b & _ & _ & -> & _).
  destruct (nearestPointOnLine_spec (endPos anim) (path pi) Hlen)
    as (j' & a' & b' & _ & _ & -> & _).
  simpl. split; apply segmentT_range.
Qed.

(** X12. In a reachable store, a record sampled at or after its start time gives
    a point on its path's polyline if it has a path, and a point of the
    straight segment from its start to its end position otherwise. *)
Theorem reachable_position_on_track st id anim now :
  reachable st -> trainAnimations st !! id = Some anim ->
  startTime anim <= now ->
  exists q,
    interpolatedPosition now anim = Some q
    /\ match pathInfo anim with
       | Some pi => onPolyline (path pi) q
       | None => exists s, 0 <= s <= 1 /\ q = lerp (startPos anim) (endPos anim) s
       end.
Proof.
  intros Hreach Hanim Hnow.
  pose proof (reachable_records builtRecord (λ _ H, H) st Hreach id anim Hanim)
    as Hbuilt.
  pose proof (easeOutCubic_range _ (progressAt_range now anim Hnow)) as He.
  unfold interpolatedPosition.
  destruct (pathInfo anim) as [pi |] eqn:Hpi.
  - destruct (builtRecord_path anim pi Hbuilt Hpi) as ([Hsi Hei] & Hst & Het).
    apply pointAlongLine_stays; done.
  - eexists. split; [reflexivity |].
    exists (easeOutCubic (progressAt now anim)). split; [exact He |].
    unfold lerp. f_equal; ring.
Qed.

Lemma reachable_position_on_track_witness :
  exists pi q,
    interpolatedPosition 6000
      (mkTrainAnimation (0, 0) (0.01, 0) 5000 "L" (Some pi)) = Some q
    /\ onPolyline (path pi) q.
Proof.
  destruct path_animation_reachable as (pi & Hpath & Hreach).
  exists pi.
  apply (reachable_position_on_track _ "X"
           (mkTrainAnimation (0, 0) (0.01, 0) 5000 "L" (Some pi)) 6000 Hreach).
  - apply lookup_singleton_eq.
  - simpl. lra.
Defined.

(** ** More on reconciliation and frames *)

(** Sampling a built record: at its start time it is within 0.005 of its
    start position, and exactly there without a path; from 4000 ms later on
    it is within 0.005 of its end position, and exactly there without a
    path. *)
Lemma builtRecord_ends anim :
  builtRecord anim ->
  (exists q, interpolatedPosition (startTime anim) anim = Some q
             /\ distance (startPos anim) q < 0.005
             /\ (pathInfo anim = None -> q = startPos anim))
  /\ forall now, startTime anim + ANIMATION_DURATION <= now ->
       exists q, interpolatedPosition now anim = Some q
                 /\ distance (endPos anim) q < 0.005
                 /\ (pathInfo anim = None -> q = endPos anim).
Proof.
  intros [[routePaths Hpath] _].
  assert (H0 : progressAt (startTime anim) anim = 0).
  { unfold progressAt, ANIMATION_DURATION.
    replace ((startTime anim - startTime anim) / 4000) with 0 by (field; lra).
    apply Rmin_left. lra. }
  split.
  - unfold interpolatedPosition. rewrite H0, easeOutCubic_0.
    destruct (pathInfo anim) as [pi |] eqn:Hpi.
    + symmetry in Hpath.
      destruct (findPathBetweenPoints_inv _ _ _ _ _ Hpath)
        as (paths & _ & _ & Hlen & Hsi & Hst & Hei & Het & Hs & _).
      destruct (nearestPointOnLine_on_segment (startPos anim) (path pi) Hlen)
        as (a & b & Ha & Hb & HpA).
      destruct (nearestPointOnLine_on_segment (endPos anim) (path pi) Hlen)
        as (c & d & Hc & Hd & _).
      exists (np_point (nearestPointOnLine (startPos anim) (path pi))).
      split; [| split; [exact Hs | done]].
      rewrite Hsi, Hst, Hei, Het, HpA.
      eapply pointAlongLine_start; eassumption.
    + eexists. split; [reflexivity |].
      replace ((startPos anim).1 + ((endPos anim).1 - (startPos anim).1) * 0,
               (startPos anim).2 + ((endPos anim).2 - (startPos anim).2) * 0)
        with (startPos anim)
        by (destruct (startPos anim); simpl; f_equal; ring).
      rewrite distance_self. split; [lra | done].
  - intros now Hdone. unfold interpolatedPosition.
    rewrite (progressAt_done now anim Hdone), easeOutCubic_1.
    destruct (pathInfo anim) as [pi |] eqn:Hpi.
    + symmetry in Hpath.
      destruct (findPathBetweenPoints_inv _ _ _ _ _ Hpath)
        as (paths & _ & _ & Hlen & Hsi & Hst & Hei & Het & _ & He).
      destruct (nearestPointOnLine_on_segment (startPos anim) (path pi) Hlen)
        as (a & b & Ha & Hb & _).
      destruct (nearestPointOnLine_on_segment (endPos anim) (path pi) Hlen)
        as (c & d & Hc & Hd & HpB).
      exists (np_point (nearestPointOnLine (endPos anim) (path pi))).
      split; [| split; [exact He | done]].
      rewrite Hsi, Hst, Hei, Het, HpB.
      eapply pointAlongLine_end; eassumption.
    + eexists. split; [reflexivity |].
      replace ((startPos anim).1 + ((endPos anim).1 - (startPos anim).1) * 1,
               (startPos anim).2 + ((endPos anim).2 - (startPos anim).2) * 1)
        with (endPos anim)
        by (destruct (endPos anim); simpl; f_equal; ring).
      rewrite distance_self. split; [lra | done].
Qed.

(** X13. The first sighting of an entity, with neither cache entry nor record,
    changes neither store and starts no animation; a frame then shows the
    entity at the reported position and enters that position in the cache. *)
Theorem first_sighting (routePaths routePaths' : RoutePaths) now now' st train :
  currentPositions st !! t_id train = None ->
  trainAnimations st !! t_id train = None ->
  reconcileTrain routePaths now st train = Some st
  /\ exists st' f,
       animateTrain routePaths' now' st train = Some (st', f)
       /\ f_coordinates f = (t_longitude train, t_latitude train)
       /\ trainAnimations st' = trainAnimations st
       /\ currentPositions st' !! t_id train
          = Some (t_longitude train, t_latitude train).
Proof.
  intros Hpos Hanim. split.
  - unfold reconcileTrain, startPosition. rewrite Hpos, Hanim. simpl.
    rewrite distance_self.
    rewrite decide_False by lra. rewrite decide_False by lra. done.
  - assert (Hc : frameCoords now' st train
               = Some ((t_longitude train, t_latitude train),
                       mkStore (trainAnimations st)
                         (<[t_id train := (t_longitude train, t_latitude train)]>
                            (currentPositions st)))).
    { unfold frameCoords. rewrite Hanim, Hpos. done. }
    destruct (frameBearing_total routePaths'
                (mkStore (trainAnimations st)
                   (<[t_id train := (t_longitude train, t_latitude train)]>
                      (currentPositions st)))
                train (t_longitude train, t_latitude train)) as [bearing Hb].
    eexists _, _. unfold animateTrain. rewrite Hc. simpl. rewrite Hb. simpl.
    split; [reflexivity |]. simpl. split; [done |]. split; [done |].
    apply lookup_insert_eq.
Qed.

Lemma first_sighting_witness :
  reconcileTrain routesL 0 (mkStore ∅ ∅) (trainX 0.01 0) = Some (mkStore ∅ ∅)
  /\ exists st' f,
       animateTrain routesL 16 (mkStore ∅ ∅) (trainX 0.01 0) = Some (st', f)
       /\ f_coordinates f = (0.01, 0)
       /\ trainAnimations st' = ∅
       /\ currentPositions st' !! "X" = Some (0.01, 0).
Proof.
  apply (first_sighting routesL routesL 0 16 (mkStore ∅ ∅) (trainX 0.01 0));
    apply lookup_empty.
Defined.

(** X14. A new leg.  When the displayed position is more than 0.00001 and at
    most 0.02 from the new position, the callback replaces the record of the
    entity by one from the displayed position to the new position, started
    now, and leaves the cache alone.  Sampled now, the new record is within
    0.005 of the displayed position (exactly there without a path); sampled
    4000 ms later or more, it is within 0.005 of the new position (exactly
    there without a path). *)
Theorem reconcileTrain_new_leg (routePaths : RoutePaths) now st train displayed :
  unchangedPosition (currentPositions st !! t_id train)
                    (t_longitude train, t_latitude train) = false ->
  startPosition now st train = Some displayed ->
  0.00001 < distance displayed (t_longitude train, t_latitude train) <= 0.02 ->
  exists st' anim,
    reconcileTrain routePaths now st train = Some st'
    /\ trainAnimations st' !! t_id train = Some anim
    /\ currentPositions st' = currentPositions st
    /\ startPos anim = displayed
    /\ endPos anim = (t_longitude train, t_latitude train)
    /\ startTime anim = now
    /\ (exists q, interpolatedPosition now anim = Some q
                  /\ distance displayed q < 0.005
                  /\ (pathInfo anim = None -> q = displayed))
    /\ (forall now', now + ANIMATION_DURATION <= now' ->
          exists q, interpolatedPosition now' anim = Some q
                    /\ distance (t_longitude train, t_latitude train) q < 0.005
                    /\ (pathInfo anim = None ->
                        q = (t_longitude train, t_latitude train))).
Proof.
  intros Hchanged Hstart Hd.
  set (newPos := (t_longitude train, t_latitude train)) in *.
  set (anim := mkTrainAnimation displayed newPos now (t_routeId train)
                 (findPathBetweenPoints routePaths (t_routeId train)
                                        displayed newPos)).
  assert (Hbuilt : builtRecord anim).
  { split; [exists routePaths; reflexivity | exact Hd]. }
  exists (mkStore (<[t_id train := anim]> (trainAnimations st))
                  (currentPositions st)), anim.
  split.
  - unfold reconcileTrain. fold newPos. rewrite Hchanged, Hstart. simpl.
    rewrite decide_False by lra. rewrite decide_True by lra.
    subst anim. destruct (findPathBetweenPoints _ _ _ _); done.
  - split; [apply lookup_insert_eq |]. do 4 (split; [done |]).
    apply (builtRecord_ends anim Hbuilt).
Qed.

Lemma reconcileTrain_new_leg_witness :
  let st := mkStore ∅ {["X" := (0, 0)]} in
  exists st' anim,
    reconcileTrain routesL 5000 st (trainX 0.01 0) = Some st'
    /\ trainAnimations st' !! "X" = Some anim
    /\ currentPositions st' = currentPositions st
    /\ startPos anim = (0, 0)
    /\ endPos anim = (0.01, 0)
    /\ startTime anim = 5000
    /\ (exists q, interpolatedPosition 5000 anim = Some q
                  /\ distance (0, 0) q < 0.005
                  /\ (pathInfo anim = None -> q = (0, 0)))
    /\ (forall now', 5000 + ANIMATION_DURATION <= now' ->
          exists q, interpolatedPosition now' anim = Some q
                    /\ distance (0.01, 0) q < 0.005
                    /\ (pathInfo anim = None -> q = (0.01, 0))).
Proof.
  apply (reconcileTrain_new_leg routesL 5000 (mkStore ∅ {["X" := (0, 0)]})
           (trainX 0.01 0) (0, 0)).
  - unfold unchangedPosition. simpl. rewrite lookup_singleton_eq.
    rewrite bool_decide_eq_false_2; [done |].
    cbn [fst]. unfold Rabs. destruct (Rcase_abs _); lra.
  - unfold startPosition. simpl. rewrite lookup_empty, lookup_singleton_eq. done.
  - simpl. rewrite distance_trackL_step. lra.
Defined.

(** X15. The end of a leg.  In a reachable store, the first frame 4000 ms or
    more after the start of a record shows the entity within 0.005 of the
    end position, deletes the record and enters the end position in the
    cache; the frames after it show the entity at the end position. *)
Theorem animateTrain_finishes (routePaths : RoutePaths) now st train anim :
  reachable st ->
  trainAnimations st !! t_id train = Some anim ->
  startTime anim + ANIMATION_DURATION <= now ->
  exists st' f,
    animateTrain routePaths now st train = Some (st', f)
    /\ distance (endPos anim) (f_coordinates f) < 0.005
    /\ trainAnimations st' !! t_id train = None
    /\ currentPositions st' !! t_id train = Some (endPos anim)
    /\ forall (routePaths' : RoutePaths) now', exists st'' f',
         animateTrain routePaths' now' st' train = Some (st'', f')
         /\ f_coordinates f' = endPos anim.
Proof.
  intros Hreach Hanim Hdone.
  pose proof (reachable_records builtRecord (λ _ H, H) st Hreach _ anim Hanim)
    as Hbuilt.
  destruct (builtRecord_ends anim Hbuilt) as [_ Hend].
  destruct (Hend now Hdone) as (q & Hq & Hdist & _).
  set (st' := mkStore (delete (t_id train) (trainAnimations st))
                      (<[t_id train := endPos anim]> (currentPositions st))).
  assert (Hc : frameCoords now st train = Some (q, st')).
  { unfold frameCoords. rewrite Hanim, Hq. simpl.
    rewrite decide_True; [done |].
    rewrite (progressAt_done now anim Hdone). lra. }
  destruct (frameBearing_total routePaths st' train q) as [bearing Hb].
  eexists st', _. unfold animateTrain. rewrite Hc. simpl. rewrite Hb. simpl.
  split; [reflexivity |]. simpl. split; [exact Hdist |].
  split; [apply lookup_delete_eq |]. split; [apply lookup_insert_eq |].
  intros routePaths' now'. apply animateTrain_static; simpl.
  - apply lookup_delete_eq.
  - apply lookup_insert_eq.
Qed.

Lemma animateTrain_finishes_witness :
  exists pi st' f,
    animateTrain routesL 9000
      (mkStore {["X" := mkTrainAnimation (0, 0) (0.01, 0) 5000 "L" (Some pi)]}
               {["X" := (0, 0)]})
      (trainX 0.01 0) = Some (st', f)
    /\ distance (0.01, 0) (f_coordinates f) < 0.005
    /\ trainAnimations st' !! "X" = None
    /\ currentPositions st' !! "X" = Some (0.01, 0)
    /\ forall (routePaths' : RoutePaths) now', exists st'' f',
         animateTrain routePaths' now' st' (trainX 0.01 0) = Some (st'', f')
         /\ f_coordinates f' = (0.01, 0).
Proof.
  destruct path_animation_reachable as (pi & _ & Hreach).
  exists pi.
  apply (animateTrain_finishes routesL 9000 _ (trainX 0.01 0)
           (mkTrainAnimation (0, 0) (0.01, 0) 5000 "L" (Some pi)) Hreach).
  - apply lookup_singleton_eq.
  - unfold ANIMATION_DURATION. simpl. lra.
Defined.

(** X16. From a reachable store neither the reconciliation effect nor a frame
    throws, whatever the batch, the clock and the route paths; the frame
    hands over one feature per train. *)
Theorem reachable_never_throws st (routePaths : RoutePaths) now trains :
  reachable st ->
  (exists st1, reconcile routePaths now st trains = Some st1 /\ reachable st1)
  /\ (exists st2 features,
        animate routePaths now st trains = Some (st2, features)
        /\ reachable st2 /\ length features = length trains).
Proof.
  intros Hreach. destruct (reachable_invariant st Hreach) as [Hvalid _].
  split.
  - destruct (reconcile_total routePaths now st trains Hvalid) as [st1 H1].
    exists st1. split; [exact H1 |]. eapply reachable_reconcile; eassumption.
  - destruct (animate_total routePaths now trains st Hvalid) as [[st2 fs] H2].
    exists st2, fs. split; [exact H2 |].
    split; [eapply reachable_animate; eassumption |].
    pose proof (animate_ids _ _ _ _ _ _ H2) as Hids.
    apply (f_equal length) in Hids. rewrite !length_fmap in Hids. exact Hids.
Qed.

Lemma reachable_never_throws_witness :
  let st := mkStore ∅ {["X" := (0, 0)]} in
  (exists st1, reconcile routesL 5000 st [trainX 0.01 0] = Some st1
               /\ reachable st1)
  /\ (exists st2 features,
        animate routesL 5000 st [trainX 0.01 0] = Some (st2, features)
        /\ reachable st2 /\ length features = length [trainX 0.01 0]).
Proof.
  apply (reachable_never_throws (mkStore ∅ {["X" := (0, 0)]}) routesL 5000
           [trainX 0.01 0]).
  apply (idle_cache_reachable ∅ 0 0).
Defined.

(** X17. The features of a frame are those of the trains shown, in their order:
    each has the id, the route and the status of its train, and the direction
    hint of the train's stop id. *)
Theorem animate_features (routePaths : RoutePaths) now trains :
  forall st st' features,
    animate routePaths now st trains = Some (st', features) ->
    Forall2 (λ train f,
               f_id f = t_id train /\ f_routeId f = t_routeId train
               /\ f_status f = t_status train
               /\ f_direction f = getDirectionFromStopId (t_currentStopId train))
            trains features.
Proof.
  induction trains as [| train rest IH]; intros st st' features H; simpl in H.
  - simplify_eq. constructor.
  - destruct (animateTrain routePaths now st train) as [[st1 f] |] eqn:H1; [| done].
    simpl in H.
    destruct (animate routePaths now st1 rest) as [[st2 fs] |] eqn:H2; [| done].
    simpl in H. simplify_eq. constructor; [| eapply IH; eassumption].
    apply animateTrain_inv in H1 as (bearing & _ & _ & ->). done.
Qed.

Lemma animate_features_witness :
  exists st' features,
    animate routesL 16 (mkStore ∅ ∅) [trainSouth] = Some (st', features)
    /\ Forall2 (λ train f,
                  f_id f = t_id train /\ f_routeId f = t_routeId train
                  /\ f_status f = t_status train
                  /\ f_direction f
                     = getDirectionFromStopId (t_currentStopId train))
               [trainSouth] features.
Proof.
  destruct (animate_total routesL 16 [trainSouth] (mkStore ∅ ∅))
    as [[st' features] H].
  { intros id anim pi Hl. simpl in Hl. rewrite lookup_empty in Hl. done. }
  exists st', features. split; [exact H |].
  apply (animate_features routesL 16 [trainSouth] (mkStore ∅ ∅) st' features H).
Defined.

(** X18. After a reconciliation every animation record belongs to an entity of
    the batch, and an entity that had a record and is not in the batch has
    lost its cache entry as well. *)
Theorem reconcile_drops_departed (routePaths : RoutePaths) now st trains st' id :
  reconcile routePaths now st trains = Some st' ->
  id ∉ t_id <$> trains ->
  trainAnimations st' !! id = None
  /\ (is_Some (trainAnimations st !! id) -> currentPositions st' !! id = None).
Proof.
  intros H Hout. split.
  - eapply reconcile_absent_animation; eassumption.
  - intros Hanim. eapply reconcile_absent_cache_removed; eassumption.
Qed.

Lemma reconcile_drops_departed_witness :
  let st := mkStore {["X" := straightAnim]} {["X" := (0, 0)]} in
  exists st',
    reconcile routesL 1000 st [] = Some st'
    /\ trainAnimations st' !! "X" = None
    /\ (is_Some (trainAnimations st !! "X") -> currentPositions st' !! "X" = None).
Proof.
  destruct (reconcile_total routesL 1000
              (mkStore {["X" := straightAnim]} {["X" := (0, 0)]}) [])
    as [st' H].
  { intros id anim pi Hl Hpi. simpl in Hl.
    apply lookup_singleton_Some in Hl as [_ <-]. discriminate Hpi. }
  exists st'. split; [exact H |].
  apply (reconcile_drops_departed routesL 1000 _ [] st' "X" H).
  apply not_elem_of_nil.
Defined.

(** The fallback loop leaves the bearing out exactly when no polyline of at
    least two points is within 0.005 of the position. *)
Lemma fallbackBearing_None coords direction (paths : list (list Coord)) :
  fallbackBearing coords direction paths = Some None
  <-> forall p, p ∈ paths -> (2 <= length p)%nat ->
        0.005 <= distance coords (np_point (nearestPointOnLine coords p)).
Proof.
  induction paths as [| p rest IH]; cbn [fallbackBearing].
  - split; [| done]. intros _ p Hp. apply elem_of_nil in Hp. done.
  - destruct (decide (length p < 2)%nat) as [Hshort | Hlong].
    + rewrite IH. split.
      * intros H q Hq Hlen. apply elem_of_cons in Hq as [-> | Hq]; [lia |].
        apply H; done.
      * intros H q Hq. apply H. apply elem_of_cons. by right.
    + destruct (decide (distance coords (np_point (nearestPointOnLine coords p))
                        < 0.005)) as [Hnear | Hfar].
      * destruct (tangentBearing_nearest coords p direction) as [b ->]; [lia |].
        cbn beta iota. split; [done |]. intros H.
        assert (Hp : p ∈ p :: rest) by (apply elem_of_cons; by left).
        assert (Hlen : (2 <= length p)%nat) by lia.
        specialize (H p Hp Hlen). lra.
      * rewrite IH. split.
        -- intros H q Hq Hlen. apply elem_of_cons in Hq as [-> | Hq]; [lra |].
           apply H; done.
        -- intros H q Hq. apply H. apply elem_of_cons. by right.
Qed.

(** The fallback loop gives a bearing only from a polyline of at least two
    points within 0.005 of the position. *)
Lemma fallbackBearing_Some coords direction (paths : list (list Coord)) b :
  fallbackBearing coords direction paths = Some (Some b) ->
  exists p, p ∈ paths /\ (2 <= length p)%nat
            /\ distance coords (np_point (nearestPointOnLine coords p)) < 0.005.
Proof.
  induction paths as [| p rest IH]; cbn [fallbackBearing]; [done |].
  destruct (decide (length p < 2)%nat) as [Hshort | Hlong].
  - intros H. destruct (IH H) as (q & Hq & Hlen & Hd).
    exists q. split; [apply elem_of_cons; by right | done].
  - destruct (decide (distance coords (np_point (nearestPointOnLine coords p))
                      < 0.005)) as [Hnear | Hfar].
    + intros _. exists p. split; [apply elem_of_cons; by left |].
      split; [lia | exact Hnear].
    + intros H. destruct (IH H) as (q & Hq & Hlen & Hd).
      exists q. split; [apply elem_of_cons; by right | done].
Qed.

(** X19. A train without animation record is shown at its cached or reported
    position; its feature has a bearing exactly when its stop id gives a
    direction hint and a polyline of at least two points of its route is
    within 0.005 of that position. *)
Theorem frame_fallback_bearing (routePaths : RoutePaths) now st train :
  trainAnimations st !! t_id train = None ->
  exists st' f,
    animateTrain routePaths now st train = Some (st', f)
    /\ f_coordinates f
       = default (t_longitude train, t_latitude train)
                 (currentPositions st !! t_id train)
    /\ (is_Some (f_bearing f)
        <-> is_Some (getDirectionFromStopId (t_currentStopId train))
            /\ exists paths p,
                 routePaths !! t_routeId train = Some paths /\ p ∈ paths
                 /\ (2 <= length p)%nat
                 /\ distance (f_coordinates f)
                             (np_point (nearestPointOnLine (f_coordinates f) p))
                    < 0.005).
Proof.
  intros Hanim.
  set (coords := default (t_longitude train, t_latitude train)
                         (currentPositions st !! t_id train)).
  set (st' := mkStore (trainAnimations st)
                      (<[t_id train := coords]> (currentPositions st))).
  assert (Hc : frameCoords now st train = Some (coords, st')).
  { unfold frameCoords. rewrite Hanim. done. }
  destruct (frameBearing_total routePaths st' train coords) as [bearing Hb].
  eexists st', _. unfold animateTrain. rewrite Hc. simpl. rewrite Hb. simpl.
  split; [reflexivity |]. simpl. split; [done |].
  unfold frameBearing in Hb. simpl in Hb. rewrite Hanim in Hb. simpl in Hb.
  destruct (getDirectionFromStopId (t_currentStopId train)) as [dir |] eqn:Hdir.
  - destruct (routePaths !! t_routeId train) as [paths |] eqn:Hpaths.
    + destruct bearing as [b |]; simpl.
      * split; [intros _ | done]. split; [done |].
        destruct (fallbackBearing_Some _ _ _ _ Hb) as (p & Hp & Hlen & Hd).
        exists paths, p. done.
      * split; [intros [? H]; discriminate H |].
        intros (_ & paths' & p & Hp' & Hp & Hlen & Hd).
        assert (paths' = paths) as -> by congruence.
        pose proof (proj1 (fallbackBearing_None _ _ _) Hb p Hp Hlen) as Hge.
        change (distance coords (np_point (nearestPointOnLine coords p))
                < 0.005) in Hd.
        lra.
    + simplify_eq. simpl. split; [intros [? H]; discriminate H |].
      intros (_ & paths' & p & Hp' & _). discriminate Hp'.
  - simplify_eq. simpl. split; [intros [? H]; discriminate H |].
    intros [[? H] _]. discriminate H.
Qed.

Lemma frame_fallback_bearing_witness :
  exists st' f,
    animateTrain routesL 16 (mkStore ∅ ∅) trainSouth = Some (st', f)
    /\ f_coordinates f
       = default (t_longitude trainSouth, t_latitude trainSouth)
                 (currentPositions (mkStore ∅ ∅) !! t_id trainSouth)
    /\ (is_Some (f_bearing f)
        <-> is_Some (getDirectionFromStopId (t_currentStopId trainSouth))
            /\ exists paths p,
                 routesL !! t_routeId trainSouth = Some paths /\ p ∈ paths
                 /\ (2 <= length p)%nat
                 /\ distance (f_coordinates f)
                             (np_point (nearestPointOnLine (f_coordinates f) p))
                    < 0.005).
Proof.
  apply (frame_fallback_bearing routesL 16 (mkStore ∅ ∅) trainSouth).
  apply lookup_empty.
Defined.

(** ** More on the line filter *)

Lemma list_to_set_nonempty (routes : list string) :
  routes <> [] -> list_to_set (C := gset string) routes <> ∅.
Proof.
  destruct routes as [| r rest]; [done |]. intros _ He.
  assert (Hr : r ∈ list_to_set (C := gset string) (r :: rest)).
  { apply elem_of_list_to_set. apply elem_of_cons. by left. }
  rewrite He in Hr. by apply not_elem_of_empty in Hr.
Qed.

Lemma forallb_subseteq (routes : list string) (s : gset string) :
  forallb (λ r, bool_decide (r ∈ s)) routes = true
  <-> list_to_set routes ⊆ s.
Proof.
  split; [| apply forallb_list_to_set].
  intros H r Hr. apply elem_of_list_to_set in Hr.
  apply list_elem_of_In in Hr.
  rewrite forallb_forall in H. specialize (H r Hr).
  by apply bool_decide_eq_true in H.
Qed.

Lemma foldl_add_routes (routes : list string) : forall s : gset string,
  foldl (λ s r, {[r]} ∪ s) s routes = list_to_set routes ∪ s.
Proof.
  induction routes as [| r rest IH]; intros s; simpl.
  - by rewrite (left_id_L ∅ (∪)).
  - rewrite IH. set_unfold. intros x. tauto.
Qed.

(** [toggleLine] by cases, with the loops over [routes] as set operations. *)
Lemma toggleLine_cases (lineGroup : string) (routes : list string)
    (activeLines : ActiveLines) :
  routesOf lineGroup = Some routes ->
  toggleLine lineGroup activeLines
  = Some match activeLines with
         | None => Some (list_to_set routes)
         | Some active =>
             if decide (list_to_set routes ⊆ active)
             then if decide (active ∖ list_to_set routes = ∅)
                  then None
                  else Some (active ∖ list_to_set routes)
             else Some (list_to_set routes ∪ active)
         end.
Proof.
  intros Hr. unfold toggleLine. rewrite Hr. simpl.
  destruct activeLines as [active |]; [| done].
  destruct (decide (list_to_set routes ⊆ active)) as [Hsub | Hsub].
  - rewrite (proj2 (forallb_subseteq routes active) Hsub).
    rewrite foldl_delete_routes.
    destruct (decide (active ∖ list_to_set routes = ∅)) as [He | He].
    + rewrite decide_True; [done |]. rewrite He. apply size_empty.
    + rewrite decide_False; [done |]. intros Hs. apply He.
      by apply size_empty_iff, leibniz_equiv in Hs.
  - destruct (forallb _ routes) eqn:Hall.
    + apply forallb_subseteq in Hall. done.
    + by rewrite foldl_add_routes.
Qed.

(** X20. What two presses of the same line button make of the filter: a
    filter that is off stays off, and a set holding all routes of the group
    comes back unchanged; from any other set the two presses take the
    routes of the group out, and turn the filter off if nothing else is
    left.  So the two presses give the filter back exactly when it was off,
    or was a non-empty set holding all routes of the group or none of
    them. *)
Theorem toggleLine_round_trip (lineGroup : string) (routes : list string)
    (activeLines : ActiveLines) :
  routesOf lineGroup = Some routes ->
  toggleLine lineGroup activeLines ≫= toggleLine lineGroup
  = Some match activeLines with
         | None => None
         | Some active =>
             if decide (list_to_set routes ⊆ active) then Some active
             else if decide (active ∖ list_to_set routes = ∅) then None
             else Some (active ∖ list_to_set routes)
         end
  /\ (toggleLine lineGroup activeLines ≫= toggleLine lineGroup = Some activeLines
      <-> match activeLines with
          | None => True
          | Some active =>
              active <> ∅
              /\ (list_to_set routes ⊆ active \/ list_to_set routes ## active)
          end).
Proof.
  intros Hr.
  pose proof (list_to_set_nonempty routes (routesOf_nonempty _ _ Hr)) as Hne.
  apply set_choose_L in Hne as [r0 Hr0].
  assert (Hres : toggleLine lineGroup activeLines ≫= toggleLine lineGroup
                 = Some match activeLines with
                        | None => None
                        | Some active =>
                            if decide (list_to_set routes ⊆ active)
                            then Some active
                            else if decide (active ∖ list_to_set routes = ∅)
                                 then None
                                 else Some (active ∖ list_to_set routes)
                        end).
  { rewrite (toggleLine_cases _ _ _ Hr). cbn [mbind option_bind].
    destruct activeLines as [a |].
    - destruct (decide (list_to_set routes ⊆ a)) as [Hsub | Hsub].
      + destruct (decide (a ∖ list_to_set routes = ∅)) as [He | He].
        * rewrite (toggleLine_cases _ _ None Hr). do 2 f_equal.
          apply set_eq. intros x. split; [apply Hsub |].
          intros Hx.
          destruct (decide (x ∈ list_to_set (C := gset string) routes))
            as [Hin | Hout]; [done |].
          assert (Hd : x ∈ a ∖ list_to_set routes)
            by (apply elem_of_difference; done).
          rewrite He in Hd. by apply not_elem_of_empty in Hd.
        * rewrite (toggleLine_cases _ _ (Some _) Hr).
          rewrite decide_False.
          2: { intros H. apply H in Hr0 as Hd.
               apply elem_of_difference in Hd as [_ Hd]. done. }
          do 2 f_equal. apply set_eq. intros x.
          rewrite elem_of_union, elem_of_difference. split.
          -- intros [Hx | [Hx _]]; [by apply Hsub | done].
          -- intros Hx.
             destruct (decide (x ∈ list_to_set (C := gset string) routes));
               [by left | by right].
      + rewrite (toggleLine_cases _ _ (Some _) Hr).
        rewrite decide_True by apply union_subseteq_l.
        assert (Hd : (list_to_set routes ∪ a) ∖ list_to_set routes
                     = a ∖ list_to_set routes).
        { apply set_eq. intros x.
          rewrite !elem_of_difference, elem_of_union. tauto. }
        rewrite Hd. done.
    - rewrite (toggleLine_cases _ _ (Some _) Hr).
      rewrite decide_True by done.
      rewrite decide_True; [done |].
      apply set_eq. intros x. rewrite elem_of_difference. split.
      + intros [Hx Hout]. done.
      + intros Hx. by apply not_elem_of_empty in Hx. }
  split; [exact Hres |]. rewrite Hres.
  destruct activeLines as [a |]; [| done].
  destruct (decide (list_to_set routes ⊆ a)) as [Hsub | Hsub].
  - split; [intros _ | done]. split; [| by left]. intros ->.
    apply Hsub in Hr0. by apply not_elem_of_empty in Hr0.
  - destruct (decide (a ∖ list_to_set routes = ∅)) as [He | He].
    + split; [done |]. intros [Ha [Hs | Hd]]; [done |]. exfalso.
      apply Ha. apply set_eq. intros x. split;
        [| intros Hx; by apply not_elem_of_empty in Hx].
      intros Hx.
      destruct (decide (x ∈ list_to_set (C := gset string) routes))
        as [Hin | Hout].
      * exfalso. by apply (Hd x).
      * rewrite <- He. apply elem_of_difference. done.
    + split.
      * intros [= H]. split.
        -- intros ->. apply He. rewrite H. done.
        -- right. intros x Hx Ha. rewrite <- H in Ha.
           apply elem_of_difference in Ha as [_ Ha]. done.
      * intros [_ [Hs | Hd]]; [done |]. do 2 f_equal.
        apply set_eq. intros x. rewrite elem_of_difference. split.
        -- intros [Hx _]. done.
        -- intros Hx. split; [done |]. intros Hin. by apply (Hd x).
Qed.

(** An instance: the A/C/E button pressed twice while the filter shows the
    A/C/E and the L groups. *)
Lemma toggleLine_round_trip_witness :
  toggleLine "A/C/E" (Some {["A"; "C"; "E"; "L"]}) ≫= toggleLine "A/C/E"
  = Some (if decide (list_to_set ["A"; "C"; "E"]
                     ⊆ ({["A"; "C"; "E"; "L"]} : gset string))
          then Some {["A"; "C"; "E"; "L"]}
          else if decide (({["A"; "C"; "E"; "L"]} : gset string)
                          ∖ list_to_set ["A"; "C"; "E"] = ∅)
               then None
               else Some ({["A"; "C"; "E"; "L"]} ∖ list_to_set ["A"; "C"; "E"]))
  /\ (toggleLine "A/C/E" (Some {["A"; "C"; "E"; "L"]})
        ≫= toggleLine "A/C/E" = Some (Some {["A"; "C"; "E"; "L"]})
      <-> ({["A"; "C"; "E"; "L"]} : gset string) <> ∅
          /\ (list_to_set ["A"; "C"; "E"] ⊆ ({["A"; "C"; "E"; "L"]} : gset string)
              \/ list_to_set ["A"; "C"; "E"]
                 ## ({["A"; "C"; "E"; "L"]} : gset string))).
Proof.
  apply (toggleLine_round_trip "A/C/E" ["A"; "C"; "E"]
           (Some {["A"; "C"; "E"; "L"]})).
  vm_compute. reflexivity.
Defined.

(** X21. Neither [toggleLine] nor [showOnlyLine] ever stores an empty set: the
    filter is off, or it shows at least one route. *)
Theorem activeLines_never_empty (lineGroup : string) (activeLines : ActiveLines)
    (active : gset string) :
  toggleLine lineGroup activeLines = Some (Some active)
  \/ showOnlyLine lineGroup = Some (Some active) ->
  active <> ∅.
Proof.
  intros [H | H].
  - destruct (routesOf lineGroup) as [routes |] eqn:Hr;
      [| unfold toggleLine in H; rewrite Hr in H; discriminate H].
    pose proof (list_to_set_nonempty routes (routesOf_nonempty _ _ Hr)) as Hne.
    rewrite (toggleLine_cases _ _ _ Hr) in H.
    destruct activeLines as [a |].
    + destruct (decide (list_to_set routes ⊆ a)) as [Hsub | Hsub].
      * destruct (decide (a ∖ list_to_set routes = ∅)) as [He | He];
          [discriminate H |]. by injection H as <-.
      * injection H as <-. intros He. apply Hne.
        apply set_eq. intros x. split;
          [| intros Hx; by apply not_elem_of_empty in Hx].
        intros Hx. rewrite <- He. apply elem_of_union. by left.
    + by injection H as <-.
  - unfold showOnlyLine in H.
    destruct (routesOf lineGroup) as [routes |] eqn:Hr; [| discriminate H].
    injection H as <-.
    exact (list_to_set_nonempty routes (routesOf_nonempty _ _ Hr)).
Qed.

(** An instance: the L button pressed on the A/C/E filter. *)
Lemma activeLines_never_empty_witness :
  toggleLine "L" (Some {["A"; "C"; "E"]})
  = Some (Some (list_to_set ["L"] ∪ {["A"; "C"; "E"]}))
  /\ (list_to_set ["L"] ∪ {["A"; "C"; "E"]} : gset string) <> ∅.
Proof.
  assert (H : toggleLine "L" (Some {["A"; "C"; "E"]})
              = Some (Some (list_to_set ["L"] ∪ {["A"; "C"; "E"]}))).
  { rewrite (toggleLine_cases "L" ["L"]) by (vm_compute; reflexivity).
    rewrite decide_False; [done |].
    intros Hsub.
    assert (Hl : "L" ∈ ({["A"; "C"; "E"]} : gset string)).
    { apply Hsub. apply elem_of_list_to_set. apply elem_of_cons. by left. }
    revert Hl. vm_compute. intros Hl. discriminate Hl || done. }
  split; [exact H |].
  apply (activeLines_never_empty "L" (Some {["A"; "C"; "E"]})).
  left. exact H.
Defined.

Lemma existsb_active (routes : list string) (s : gset string) :
  existsb (λ r, bool_decide (r ∈ s)) routes = true
  <-> exists r, r ∈ routes /\ r ∈ s.
Proof.
  rewrite existsb_exists. split.
  - intros (r & Hr & Hs). exists r. split; [by apply list_elem_of_In |].
    by apply bool_decide_eq_true in Hs.
  - intros (r & Hr & Hs). exists r. split; [by apply list_elem_of_In |].
    by apply bool_decide_eq_true.
Qed.

(** No route belongs to two groups of [LINE_GROUPS]. *)
Lemma LINE_GROUPS_disjoint (label other : string) (routes routes' : list string) :
  (label, routes) ∈ LINE_GROUPS -> (other, routes') ∈ LINE_GROUPS ->
  label <> other ->
  forall r, r ∈ routes -> r ∈ routes' -> False.
Proof.
  intros H1 H2 Hne r Hr Hr'.
  repeat (apply elem_of_cons in H1 as [Heq | H1];
          [injection Heq as -> -> |]);
    try (by apply elem_of_nil in H1);
    repeat (apply elem_of_cons in Hr as [-> | Hr]);
    try (by apply elem_of_nil in Hr);
    repeat (apply elem_of_cons in H2 as [Heq | H2];
            [injection Heq as -> -> |]);
    try (by apply elem_of_nil in H2);
    try done;
    repeat (apply elem_of_cons in Hr' as [Heq | Hr']; [discriminate Heq |]);
    by apply elem_of_nil in Hr'.
Qed.

(** X22. After a press of its button a group is shown inactive exactly when all
    of its routes were in the filter together with some other route; in
    every other case the button is shown active after the press. *)
Theorem toggleLine_isLineActive (lineGroup : string)
    (activeLines activeLines' : ActiveLines) :
  toggleLine lineGroup activeLines = Some activeLines' ->
  exists routes b,
    routesOf lineGroup = Some routes
    /\ isLineActive activeLines' lineGroup = Some b
    /\ (b = false
        <-> exists active,
              activeLines = Some active
              /\ list_to_set routes ⊆ active
              /\ active <> list_to_set routes).
Proof.
  intros H.
  destruct (routesOf lineGroup) as [routes |] eqn:Hr;
    [| unfold toggleLine in H; rewrite Hr in H; discriminate H].
  pose proof (list_to_set_nonempty routes (routesOf_nonempty _ _ Hr)) as Hne.
  apply set_choose_L in Hne as [r0 Hr0].
  rewrite (toggleLine_cases _ _ _ Hr) in H. injection H as <-.
  exists routes. unfold isLineActive.
  destruct activeLines as [a |].
  - destruct (decide (list_to_set routes ⊆ a)) as [Hsub | Hsub].
    + destruct (decide (a ∖ list_to_set routes = ∅)) as [He | He].
      * exists true. split; [done |]. split; [done |]. split; [done |].
        intros (a' & [= <-] & _ & Hdiff). exfalso. apply Hdiff.
        apply set_eq. intros x. split; [| apply Hsub].
        intros Hx.
        destruct (decide (x ∈ list_to_set (C := gset string) routes))
          as [Hin | Hout]; [done |].
        assert (Hd : x ∈ a ∖ list_to_set routes)
          by (apply elem_of_difference; done).
        rewrite He in Hd. by apply not_elem_of_empty in Hd.
      * exists false. rewrite Hr. cbn [mbind option_bind]. split; [done |].
        split.
        -- f_equal. apply not_true_is_false. intros Hex.
           apply existsb_active in Hex as (r & Hin & Hd).
           apply elem_of_difference in Hd as [_ Hd]. apply Hd.
           by apply elem_of_list_to_set.
        -- split; [intros _ | done]. exists a. split; [done |].
           split; [done |]. intros ->. apply He.
           apply set_eq. intros x. rewrite elem_of_difference. split.
           ++ intros [Hx Hout]. done.
           ++ intros Hx. by apply not_elem_of_empty in Hx.
    + exists true. rewrite Hr. cbn [mbind option_bind]. split; [done |].
      split.
      * f_equal. apply existsb_active. exists r0.
        split; [by apply elem_of_list_to_set in Hr0 |].
        apply elem_of_union. by left.
      * split; [done |]. intros (a' & [= <-] & Hs & _). done.
  - exists true. rewrite Hr. cbn [mbind option_bind]. split; [done |].
    split.
    + f_equal. apply existsb_active. exists r0.
      split; [by apply elem_of_list_to_set in Hr0 | done].
    + split; [done |]. intros (a' & Ha & _). discriminate Ha.
Qed.

(** An instance: the L button pressed while the filter is off. *)
Lemma toggleLine_isLineActive_witness :
  exists routes b,
    routesOf "L" = Some routes
    /\ isLineActive (Some (list_to_set ["L"])) "L" = Some b
    /\ (b = false
        <-> exists active : gset string,
              None = Some active
              /\ list_to_set routes ⊆ active
              /\ active <> list_to_set routes).
Proof.
  apply (toggleLine_isLineActive "L" None (Some (list_to_set ["L"]))).
  apply (toggleLine_cases "L" ["L"] None). vm_compute. reflexivity.
Defined.

(** X23. While the filter stays a set, a press of one group's button never
    changes whether another group of [LINE_GROUPS] is shown active. *)
Theorem toggleLine_other_group (label other : string)
    (routes routes' : list string) (active active' : gset string) :
  (label, routes) ∈ LINE_GROUPS -> (other, routes') ∈ LINE_GROUPS ->
  label <> other ->
  toggleLine label (Some active) = Some (Some active') ->
  isLineActive (Some active') other = isLineActive (Some active) other.
Proof.
  intros Hl Ho Hne H.
  pose proof (LINE_GROUPS_disjoint _ _ _ _ Hl Ho Hne) as Hdisj.
  rewrite (toggleLine_cases _ _ _ (routesOf_LINE_GROUPS _ _ Hl)) in H.
  unfold isLineActive. rewrite (routesOf_LINE_GROUPS _ _ Ho).
  cbn [mbind option_bind]. f_equal.
  assert (Hiff : forall r, r ∈ routes' -> r ∈ active' <-> r ∈ active).
  { intros r Hr'.
    assert (Hout : r ∉ list_to_set (C := gset string) routes).
    { intros Hin. apply elem_of_list_to_set in Hin. by apply (Hdisj r). }
    destruct (decide (list_to_set routes ⊆ active)) as [Hsub | Hsub].
    - destruct (decide (active ∖ list_to_set routes = ∅)); [discriminate H |].
      injection H as <-. rewrite elem_of_difference. tauto.
    - injection H as <-. rewrite elem_of_union. tauto. }
  apply eq_true_iff_eq. rewrite !existsb_active. split.
  - intros (r & Hr & Ha). exists r. split; [done |]. by apply Hiff.
  - intros (r & Hr & Ha). exists r. split; [done |]. by apply Hiff.
Qed.

(** An instance: the L button pressed on the A/C/E filter; the 7 button
    stays inactive. *)
Lemma toggleLine_other_group_witness :
  isLineActive (Some (list_to_set ["L"] ∪ {["A"; "C"; "E"]})) "7"
  = isLineActive (Some {["A"; "C"; "E"]}) "7".
Proof.
  apply (toggleLine_other_group "L" "7" ["L"] ["7"]).
  - unfold LINE_GROUPS. repeat (apply elem_of_cons; first [by left | right]).
  - unfold LINE_GROUPS. repeat (apply elem_of_cons; first [by left | right]).
  - discriminate.
  - rewrite (toggleLine_cases "L" ["L"]) by (vm_compute; reflexivity).
    rewrite decide_False; [done |].
    intros Hsub.
    assert (Hl : "L" ∈ ({["A"; "C"; "E"]} : gset string)).
    { apply Hsub. apply elem_of_list_to_set. apply elem_of_cons. by left. }
    revert Hl. vm_compute. intros Hl. discriminate Hl || done.
Defined.

(** ** Alerts *)

(** The loop over the informed entities keeps [routeIds] free of duplicates
    and of empty strings, and adds exactly the non-empty route ids. *)
Lemma foldl_routeIdsStep (informed : list InformedEntity) :
  forall routeIds : list string,
    NoDup routeIds -> EmptyString ∉ routeIds ->
    NoDup (foldl routeIdsStep routeIds informed)
    /\ (EmptyString ∉ foldl routeIdsStep routeIds informed)
    /\ forall r, r ∈ foldl routeIdsStep routeIds informed
                 <-> r ∈ routeIds
                     \/ (r <> ""%string
                         /\ exists inf, inf ∈ informed /\ route_id inf = Some r).
Proof.
  induction informed as [| inf rest IH]; intros routeIds Hnd Hne; simpl.
  - split; [done |]. split; [done |]. intros r. split; [by left |].
    intros [Hr | (_ & inf & Hin & _)]; [done |]. by apply elem_of_nil in Hin.
  - assert (Hstep : NoDup (routeIdsStep routeIds inf)
                    /\ (EmptyString ∉ routeIdsStep routeIds inf)
                    /\ forall r, r ∈ routeIdsStep routeIds inf
                                 <-> r ∈ routeIds
                                     \/ (r <> ""%string /\ route_id inf = Some r)).
    { unfold routeIdsStep. destruct (route_id inf) as [r0 |].
      - destruct (decide (r0 <> ""%string /\ r0 ∉ routeIds)) as [[H0 Hnew] | Hold].
        + split.
          { apply NoDup_app. split; [done |]. split; [| apply NoDup_singleton].
            intros x Hx Hx'. apply list_elem_of_singleton in Hx'. by subst. }
          split.
          { intros H. apply elem_of_app in H as [H | H]; [done |].
            apply list_elem_of_singleton in H. done. }
          intros r. rewrite elem_of_app, list_elem_of_singleton. split.
          * intros [Hr | ->]; [by left | by right].
          * intros [Hr | [_ [= ->]]]; [by left | by right].
        + split; [done |]. split; [done |]. intros r. split; [by left |].
          intros [Hr | [Hr [= ->]]]; [done |].
          destruct (decide (r ∈ routeIds)) as [Hin | Hout]; [done |].
          exfalso. apply Hold. done.
      - split; [done |]. split; [done |]. intros r. split; [by left |].
        intros [Hr | [_ Hr]]; [done | discriminate Hr]. }
    destruct Hstep as (Hnd' & Hne' & Hiff).
    destruct (IH _ Hnd' Hne') as (Hnd'' & Hne'' & Hiff'').
    split; [done |]. split; [done |]. intros r. rewrite Hiff'', Hiff. split.
    + intros [[Hr | [Hr Hinf]] | (Hr & inf' & Hin & Hinf)].
      * by left.
      * right. split; [done |]. exists inf. split; [| done].
        apply elem_of_cons. by left.
      * right. split; [done |]. exists inf'. split; [| done].
        apply elem_of_cons. by right.
    + intros [Hr | (Hr & inf' & Hin & Hinf)]; [by left; left |].
      apply elem_of_cons in Hin as [-> | Hin].
      * left. right. done.
      * right. split; [done |]. exists inf'. done.
Qed.

(** Every alert the loop over the entities adds is built from one entity
    that has an alert with a route and a title. *)
Lemma foldl_alertsStep (entities : list FeedEntity) :
  forall (alerts : list Alert) (alert : Alert),
    alert ∈ foldl alertsStep alerts entities ->
    alert ∈ alerts
    \/ exists e body,
         e ∈ entities /\ entity_alert e = Some body
         /\ a_id alert = entity_id e
         /\ a_routeIds alert = routeIdsOf body
         /\ a_headerText alert = textOf (header_text body)
         /\ a_descriptionText alert = textOf (description_text body)
         /\ (0 < length (routeIdsOf body))%nat
         /\ textOf (header_text body) <> ""%string.
Proof.
  induction entities as [| e rest IH]; intros alerts alert; simpl; [by left |].
  intros H. apply IH in H as [H | (e' & body & Hin & H)].
  - unfold alertsStep in H.
    destruct (entity_alert e) as [body |] eqn:Hbody; [| by left].
    destruct (periodOf body) as [ps pe].
    destruct (decide ((0 < length (routeIdsOf body))%nat
                      /\ textOf (header_text body) <> ""%string))
      as [[Hlen Hhead] | Hno]; [| by left].
    apply elem_of_app in H as [H | H]; [by left |].
    apply list_elem_of_singleton in H. subst alert. right.
    exists e, body. split; [apply elem_of_cons; by left |]. done.
  - right. exists e', body. split; [apply elem_of_cons; by right | done].
Qed.

(** X24. Every alert that [fetchAlerts] returns has a non-empty title and a
    non-empty list of route ids without duplicates and without the empty
    string; it carries the id of an entity of the feed, and its route ids
    are exactly the non-empty route ids of that entity's informed
    entities. *)
Theorem fetchAlerts_alerts (response : Fetched AlertsFeed) (alert : Alert) :
  alert ∈ fetchAlerts response ->
  a_routeIds alert <> [] /\ NoDup (a_routeIds alert)
  /\ (EmptyString ∉ a_routeIds alert)
  /\ a_headerText alert <> ""%string
  /\ exists data entities e body informed,
       response = Body data /\ entity data = Some entities
       /\ e ∈ entities /\ entity_alert e = Some body
       /\ informed_entity body = Some informed
       /\ a_id alert = entity_id e
       /\ forall r, r ∈ a_routeIds alert
                    <-> r <> ""%string
                        /\ exists inf, inf ∈ informed /\ route_id inf = Some r.
Proof.
  intros H. unfold fetchAlerts in H.
  destruct response as [| | data]; try (by apply elem_of_nil in H).
  destruct (entity data) as [entities |] eqn:Hent;
    [| by apply elem_of_nil in H].
  apply foldl_alertsStep in H as [H | (e & body & Hin & Hbody & Hid & Hroutes
                                       & Hhead & _ & Hlen & Hne)];
    [by apply elem_of_nil in H |].
  rewrite Hroutes, Hhead. unfold routeIdsOf in *.
  destruct (informed_entity body) as [informed |] eqn:Hinf;
    [| simpl in Hlen; lia].
  destruct (foldl_routeIdsStep informed [] (NoDup_nil_2))
    as (Hnd & Hno & Hiff); [apply not_elem_of_nil |].
  split; [intros He; rewrite He in Hlen; simpl in Hlen; lia |].
  split; [done |]. split; [done |]. split; [done |].
  exists data, entities, e, body, informed.
  do 6 (split; [done |]). intros r. rewrite Hiff. split.
  - intros [Hr | Hr]; [by apply elem_of_nil in Hr | done].
  - intros Hr. by right.
Qed.

(** An instance: the one alert of [feedL]. *)
Lemma fetchAlerts_alerts_witness :
  fetchAlerts (Body feedL) = [alertL]
  /\ a_routeIds alertL <> [] /\ NoDup (a_routeIds alertL)
  /\ (EmptyString ∉ a_routeIds alertL)
  /\ a_headerText alertL <> ""%string
  /\ exists data entities e body informed,
       Body feedL = Body data /\ entity data = Some entities
       /\ e ∈ entities /\ entity_alert e = Some body
       /\ informed_entity body = Some informed
       /\ a_id alertL = entity_id e
       /\ forall r, r ∈ a_routeIds alertL
                    <-> r <> ""%string
                        /\ exists inf, inf ∈ informed /\ route_id inf = Some r.
Proof.
  assert (H : fetchAlerts (Body feedL) = [alertL]) by (vm_compute; reflexivity).
  split; [exact H |].
  apply (fetchAlerts_alerts (Body feedL) alertL).
  rewrite H. apply elem_of_cons. by left.
Defined.

Lemma find_head_filter {A} (P : A -> Prop) `{!forall x, Decision (P x)}
    (l : list A) :
  List.find (λ x, bool_decide (P x)) l = head (filter P l).
Proof.
  induction l as [| x rest IH]; [done |]. simpl.
  rewrite filter_cons. destruct (decide (P x)) as [Hx | Hx].
  - by rewrite bool_decide_eq_true_2.
  - by rewrite bool_decide_eq_false_2.
Qed.

(** X25. Alerts are shown only while a filter is on.  Every alert shown is one of
    the alerts received and has at least one route badge; the first badge is
    an active route of the alert, and the title is coloured after it unless
    it is the empty string, in which case the first route of the alert is
    taken whether active or not. *)
Theorem filteredAlerts_shown (activeLines : ActiveLines) (alerts : list Alert)
    (alert : Alert) :
  alert ∈ filteredAlerts activeLines alerts ->
  exists active r,
    activeLines = Some active /\ alert ∈ alerts
    /\ head (routeBadges active alert) = Some r
    /\ r ∈ active /\ r ∈ a_routeIds alert
    /\ primaryRoute active alert
       = if decide (r = ""%string) then head (a_routeIds alert) else Some r.
Proof.
  unfold filteredAlerts. destruct activeLines as [active |];
    [| intros H; by apply elem_of_nil in H].
  intros H. apply list_elem_of_filter in H as [Hex Hin].
  apply Exists_exists in Hex as (r0 & Hr0 & Ha0).
  assert (Hb : r0 ∈ routeBadges active alert)
    by (apply list_elem_of_filter; done).
  destruct (routeBadges active alert) as [| r rest] eqn:Hbadges;
    [by apply elem_of_nil in Hb |].
  assert (Hr : r ∈ routeBadges active alert)
    by (rewrite Hbadges; apply elem_of_cons; by left).
  apply list_elem_of_filter in Hr as [Ha Hr].
  exists active, r. rewrite Hbadges. do 5 (split; [done |]).
  unfold primaryRoute.
  rewrite (find_head_filter (λ r, r ∈ active)).
  fold (routeBadges active alert). rewrite Hbadges. done.
Qed.

(** An instance: the alert of [feedL] under the L filter. *)
Lemma filteredAlerts_shown_witness :
  exists active r,
    Some (list_to_set ["L"]) = Some active /\ alertL ∈ [alertL]
    /\ head (routeBadges active alertL) = Some r
    /\ r ∈ active /\ r ∈ a_routeIds alertL
    /\ primaryRoute active alertL
       = if decide (r = ""%string) then head (a_routeIds alertL) else Some r.
Proof.
  apply (filteredAlerts_shown (Some (list_to_set ["L"])) [alertL] alertL).
  unfold filteredAlerts. apply list_elem_of_filter. split.
  - apply Exists_exists. exists "L"%string. split.
    + apply elem_of_cons. by left.
    + apply elem_of_list_to_set. apply elem_of_cons. by left.
  - apply elem_of_cons. by left.
Defined.

Lemma currentAlert_is_Some (filtered : list Alert) (currentIndex : Z) :
  is_Some (currentAlert filtered currentIndex)
  <-> (0 <= currentIndex < Z.of_nat (length filtered))%Z.
Proof.
  unfold currentAlert. destruct (decide (0 <= currentIndex)%Z) as [H0 | H0].
  - rewrite lookup_lt_is_Some. lia.
  - split; [intros [? H]; discriminate H | lia].
Qed.

Lemma goToNext_iter (len prev : Z) (k : nat) :
  (0 <= prev < len)%Z ->
  Nat.iter k (goToNext len) prev = ((prev + Z.of_nat k) mod len)%Z.
Proof.
  intros Hp. induction k as [| k IH].
  - simpl. rewrite Z.add_0_r, Z.mod_small by lia. done.
  - change (Nat.iter (S k) (goToNext len) prev)
      with (goToNext len (Nat.iter k (goToNext len) prev)).
    rewrite IH.
    pose proof (Z.mod_pos_bound (prev + Z.of_nat k) len ltac:(lia)) as Hm.
    replace (prev + Z.of_nat (S k))%Z with ((prev + Z.of_nat k) + 1)%Z by lia.
    rewrite <- (Z.add_mod_idemp_l (prev + Z.of_nat k) 1 len) by lia.
    unfold goToNext.
    destruct (decide (((prev + Z.of_nat k) mod len)%Z = (len - 1)%Z)) as [He | He].
    + rewrite He. replace (len - 1 + 1)%Z with len by lia.
      by rewrite Z.mod_same by lia.
    + rewrite (Z.mod_small ((prev + Z.of_nat k) mod len + 1)) by lia. done.
Qed.

(** X26. From an index that shows an alert, both arrows lead to an index that
    shows an alert; each arrow undoes the other, and the right arrow pressed
    once per alert comes back to the same index. *)
Theorem carousel_cycle (filtered : list Alert) (prev : Z) :
  is_Some (currentAlert filtered prev) ->
  let n := Z.of_nat (length filtered) in
  is_Some (currentAlert filtered (goToNext n prev))
  /\ is_Some (currentAlert filtered (goToPrevious n prev))
  /\ goToPrevious n (goToNext n prev) = prev
  /\ goToNext n (goToPrevious n prev) = prev
  /\ Nat.iter (length filtered) (goToNext n) prev = prev.
Proof.
  intros H n. apply currentAlert_is_Some in H. fold n in H.
  rewrite !currentAlert_is_Some. fold n.
  split; [unfold goToNext; destruct (decide (prev = n - 1)%Z); lia |].
  split; [unfold goToPrevious; destruct (decide (prev = 0)%Z); lia |].
  split.
  { unfold goToPrevious, goToNext.
    destruct (decide (prev = n - 1)%Z) as [He | He].
    - rewrite decide_True by done. lia.
    - rewrite decide_False by lia. lia. }
  split.
  { unfold goToPrevious, goToNext.
    destruct (decide (prev = 0)%Z) as [He | He].
    - rewrite decide_True by done. lia.
    - rewrite decide_False by lia. lia. }
  rewrite goToNext_iter by done. fold n.
  rewrite <- (Z.mul_1_l n) at 1. rewrite Z.mod_add by lia.
  apply Z.mod_small. lia.
Qed.

(** An instance: three alerts, the last one shown. *)
Lemma carousel_cycle_witness :
  let n := Z.of_nat (length [alertL; alertL; alertL]) in
  is_Some (currentAlert [alertL; alertL; alertL] (goToNext n 2))
  /\ is_Some (currentAlert [alertL; alertL; alertL] (goToPrevious n 2))
  /\ goToPrevious n (goToNext n 2) = 2%Z
  /\ goToNext n (goToPrevious n 2) = 2%Z
  /\ Nat.iter (length [alertL; alertL; alertL]) (goToNext n) 2%Z = 2%Z.
Proof.
  apply (carousel_cycle [alertL; alertL; alertL] 2).
  vm_compute. eexists. reflexivity.
Defined.

(** ** The description of an alert *)


Lemma append_cons (a : ascii) (s t : string) :
  (String a s +:+ t)%string = String a (s +:+ t).
Proof. reflexivity. Qed.

Lemma substring_all (s : string) :
  String.substring 0 (String.length s) s = s.
Proof. induction s as [| a s IH]; simpl; [done | by rewrite IH]. Qed.

Lemma prefix_split (p s : string) :
  String.prefix p s = true ->
  s = (p +:+ String.substring (String.length p)
               (String.length s - String.length p) s)%string.
Proof.
  revert s. induction p as [| a p IH]; intros s H; simpl.
  - by rewrite Nat.sub_0_r, substring_all.
  - destruct s as [| b s]; [discriminate H |]. simpl in H.
    destruct (Ascii.ascii_dec a b) as [-> | Hne]; [| discriminate H].
    simpl. rewrite append_cons. f_equal. by apply IH.
Qed.

Lemma index_split (p s : string) : forall n,
  String.index 0 p s = Some n ->
  s = (String.substring 0 n s
       +:+ (p +:+ String.substring (n + String.length p)
                    (String.length s - (n + String.length p)) s))%string.
Proof.
  induction s as [| b s IH]; intros n H.
  - simpl in H. destruct p; [| discriminate H]. injection H as <-. done.
  - cbn [String.index] in H.
    destruct (String.prefix p (String b s)) eqn:Hp.
    + injection H as <-. cbn [String.substring Nat.add].
      change (""%string +:+ ?x)%string with x.
      by apply prefix_split.
    + destruct (String.index 0 p s) as [n0 |] eqn:Hi; [| discriminate H].
      injection H as <-. specialize (IH n0 eq_refl).
      cbn [String.substring Nat.add String.length Nat.sub].
      rewrite append_cons. f_equal. exact IH.
Qed.

Lemma substring_prefix (p post : string) :
  String.substring 0 (String.length p) (p +:+ post) = p.
Proof.
  induction p as [| a p IH]; [by destruct post |].
  rewrite append_cons. simpl. by rewrite IH.
Qed.

Lemma substring_middle (pre p post : string) :
  String.substring (String.length pre) (String.length p) (pre +:+ (p +:+ post)) = p.
Proof.
  induction pre as [| a pre IH]; [exact (substring_prefix p post) |].
  rewrite append_cons. simpl. exact IH.
Qed.

(** [indexOf] finds the first place where the pattern occurs. *)
Lemma indexOf_Some (text pattern : string) (idx : nat) :
  indexOf text pattern = Some idx ->
  text = (slice text 0 idx
          +:+ (pattern +:+ slice text (idx + String.length pattern)
                                 (String.length text)))%string
  /\ forall pre post, text = (pre +:+ (pattern +:+ post))%string ->
                      (idx <= String.length pre)%nat.
Proof.
  unfold indexOf, slice. intros H. split.
  - rewrite Nat.sub_0_r. by apply index_split.
  - intros pre post ->. destruct (decide (idx <= String.length pre)%nat) as [| Hlt];
      [done |]. exfalso.
    apply (String.index_correct2 _ _ _ _ H (String.length pre)); [lia | lia |].
    apply substring_middle.
Qed.

(** [indexOf] gives -1 only if the pattern does not occur. *)
Lemma indexOf_None (text pattern : string) :
  indexOf text pattern = None -> pattern <> ""%string ->
  forall pre post, text <> (pre +:+ (pattern +:+ post))%string.
Proof.
  unfold indexOf. intros H Hne pre post ->.
  apply (String.index_correct3 _ (String.length pre) _ _ H Hne); [lia |].
  apply substring_middle.
Qed.

Lemma prefix_length (p s : string) :
  String.prefix p s = true -> (String.length p <= String.length s)%nat.
Proof.
  revert s. induction p as [| a p IH]; intros s H; simpl; [lia |].
  destruct s as [| b s]; [discriminate H |]. simpl in H.
  destruct (Ascii.ascii_dec a b); [| discriminate H].
  simpl. apply IH in H. lia.
Qed.

Lemma indexOf_le (text pattern : string) (idx : nat) :
  indexOf text pattern = Some idx ->
  (idx + String.length pattern <= String.length text)%nat.
Proof.
  unfold indexOf. revert idx. induction text as [| b s IH]; intros n H.
  - simpl in H. destruct pattern; [| discriminate H]. injection H as <-. done.
  - cbn [String.index] in H.
    destruct (String.prefix pattern (String b s)) eqn:Hp.
    + injection H as <-. by apply prefix_length.
    + destruct (String.index 0 pattern s) as [n0 |]; [| discriminate H].
      injection H as <-. specialize (IH n0 eq_refl). simpl. lia.
Qed.

Lemma length_substring_0 (s : string) (n : nat) :
  (n <= String.length s)%nat -> String.length (String.substring 0 n s) = n.
Proof.
  revert n. induction s as [| a s IH]; intros n Hn; simpl in *.
  - destruct n; [done | lia].
  - destruct n as [| n]; [done |]. simpl. rewrite IH; [done | lia].
Qed.

(** The loop of [hasWhatsHappeningSection] stops at the first pattern of the
    list that occurs in the text, at the first place where it occurs. *)
Lemma sectionLoop_spec (trim : string -> string) (text : string)
    (ps : list string) :
  Forall (λ p, p <> ""%string) ps ->
  match sectionLoop trim ps text with
  | Some found =>
      hasSection found = true
      /\ exists i pattern pre post,
           ps !! i = Some pattern
           /\ text = (pre +:+ (pattern +:+ post))%string
           /\ beforeText found = trim pre /\ afterText found = trim post
           /\ (forall pre' post',
                 text = (pre' +:+ (pattern +:+ post'))%string ->
                 (String.length pre <= String.length pre')%nat)
           /\ (forall j earlier,
                 (j < i)%nat -> ps !! j = Some earlier ->
                 forall pre' post',
                   text <> (pre' +:+ (earlier +:+ post'))%string)
  | None =>
      forall pattern, pattern ∈ ps ->
        forall pre' post', text <> (pre' +:+ (pattern +:+ post'))%string
  end.
Proof.
  induction ps as [| p rest IH]; intros Hne; cbn [sectionLoop].
  - intros pattern Hin. by apply elem_of_nil in Hin.
  - apply Forall_cons in Hne as [Hp Hrest].
    destruct (indexOf text p) as [idx |] eqn:Hidx.
    + destruct (indexOf_Some _ _ _ Hidx) as [Hsplit Hfirst].
      pose proof (indexOf_le _ _ _ Hidx) as Hle.
      split; [done |].
      exists 0%nat, p, (slice text 0 idx),
        (slice text (idx + String.length p) (String.length text)).
      split; [done |]. split; [exact Hsplit |]. split; [done |].
      split; [done |]. split; [| intros j earlier Hj; lia].
      intros pre' post' Heq. unfold slice.
      rewrite Nat.sub_0_r, length_substring_0 by lia.
      by apply (Hfirst pre' post').
    + specialize (IH Hrest).
      destruct (sectionLoop trim rest text) as [found |].
      * destruct IH as (Hsec & i & pattern & pre & post & Hi & Hsplit & Hb & Ha
                        & Hfirst & Hprio).
        split; [done |]. exists (S i), pattern, pre, post.
        do 5 (split; [done |]).
        intros [| j] earlier Hj Hl.
        -- injection Hl as <-. by apply indexOf_None.
        -- apply (Hprio j earlier); [lia | done].
      * intros pattern Hin. apply elem_of_cons in Hin as [-> | Hin].
        -- by apply indexOf_None.
        -- by apply IH.
Qed.

Lemma patterns_nonempty : Forall (λ p, p <> ""%string) patterns.
Proof. unfold patterns. repeat (apply Forall_cons; split; [done |]). done. Qed.

(** X27. [hasWhatsHappeningSection] reports a section exactly when one of the
    three patterns occurs in the text.  The text is then cut around the
    first occurrence of the first pattern of the list that occurs: what is
    before it, trimmed, is [beforeText] and what is after it, trimmed, is
    [afterText].  Without a section [beforeText] is the whole text, not
    trimmed. *)
Theorem hasWhatsHappeningSection_split (trim : string -> string)
    (text : string) :
  let found := hasWhatsHappeningSection trim text in
  if hasSection found
  then
    exists i pattern pre post,
      patterns !! i = Some pattern
      /\ text = (pre +:+ (pattern +:+ post))%string
      /\ beforeText found = trim pre /\ afterText found = trim post
      /\ (forall pre' post',
            text = (pre' +:+ (pattern +:+ post'))%string ->
            (String.length pre <= String.length pre')%nat)
      /\ (forall j earlier,
            (j < i)%nat -> patterns !! j = Some earlier ->
            forall pre' post', text <> (pre' +:+ (earlier +:+ post'))%string)
  else
    beforeText found = text /\ afterText found = ""%string
    /\ forall pattern, pattern ∈ patterns ->
         forall pre' post', text <> (pre' +:+ (pattern +:+ post'))%string.
Proof.
  intros found. subst found. unfold hasWhatsHappeningSection.
  pose proof (sectionLoop_spec trim text patterns patterns_nonempty) as H.
  destruct (sectionLoop trim patterns text) as [found |].
  - destruct H as [-> H]. exact H.
  - cbn [hasSection beforeText afterText]. done.
Qed.

(** The two loops over the patterns stop at the same pattern and index. *)
Lemma descriptionLoop_sectionLoop (trim : string -> string) (text : string)
    (ps : list string) (whatsHappeningIndex : Z) (matchedPattern : string) :
  match sectionLoop trim ps text with
  | Some found =>
      exists idx pattern,
        descriptionLoop ps text whatsHappeningIndex matchedPattern
        = (Z.of_nat idx, pattern)
        /\ found = mkWhatsHappening true
                     (trim (slice text 0 idx))
                     (trim (slice text (idx + String.length pattern)
                                  (String.length text)))
  | None =>
      descriptionLoop ps text whatsHappeningIndex matchedPattern
      = (whatsHappeningIndex, matchedPattern)
  end.
Proof.
  induction ps as [| p rest IH]; cbn [sectionLoop descriptionLoop]; [done |].
  destruct (indexOf text p) as [idx |]; [| exact IH].
  exists idx, p. done.
Qed.

(** X28. The expanded description and the collapsed one agree on the section:
    [formatDescription] renders the section exactly when
    [hasWhatsHappeningSection] reports one with a non-empty [afterText], with
    that [afterText] as content and that [beforeText], if not empty, as
    introduction; otherwise it renders the whole text.  Whenever the
    expanded description has the section, the button that expands it is
    there. *)
Theorem formatDescription_section (trim : string -> string) (text : string) :
  let found := hasWhatsHappeningSection trim text in
  formatDescription trim text
  = (if hasSection found && bool_decide (afterText found <> ""%string)
     then WithSection
            (if decide (beforeText found = ""%string) then None
             else Some (beforeText found))
            (afterText found)
     else Plain text)
  /\ (forall intro content,
        formatDescription trim text = WithSection intro content ->
        hasExpandableContent found = true).
Proof.
  intros found.
  assert (Heq : formatDescription trim text
                = if hasSection found && bool_decide (afterText found <> ""%string)
                  then WithSection
                         (if decide (beforeText found = ""%string) then None
                          else Some (beforeText found))
                         (afterText found)
                  else Plain text).
  { subst found. unfold formatDescription, hasWhatsHappeningSection.
    pose proof (descriptionLoop_sectionLoop trim text patterns (-1) "") as H.
    destruct (sectionLoop trim patterns text) as [found |].
    - destruct H as (idx & pattern & -> & ->).
      cbn [hasSection beforeText afterText andb].
      rewrite decide_False by lia. rewrite Nat2Z.id.
      destruct (decide (trim (slice text (idx + String.length pattern)
                                    (String.length text)) = ""%string))
        as [He | He].
      + rewrite bool_decide_eq_false_2; [done |]. intros H. by apply H.
      + by rewrite bool_decide_eq_true_2.
    - rewrite H. rewrite decide_True by done. done. }
  split; [exact Heq |].
  intros intro content H. rewrite Heq in H. unfold hasExpandableContent.
  destruct (hasSection found && bool_decide (afterText found <> ""%string));
    [done | discriminate H].
Qed.
